(** * Evently back end: seat reservation, expiry sweep and admission control

    A shallow embedding of the booking controller ([lockSeats],
    [confirmBooking], [cancelBooking]), of the cleanup worker
    ([cleanupExpiredBookings]) and of the admission middlewares
    ([rateLimiter], [smartWaitingRoom]) together with the properties the
    design document states about them.

    The relational store is a record of tables (lists of rows); a connection
    holds the committed tables and the tables as seen by the open
    transaction, so that [COMMIT] and [ROLLBACK] are what they are in the
    source.  The lock store is a finite map from string keys to values with
    an optional time to live.  Handlers run in a state monad with one
    exception, the error a lock-store or queue round trip may raise; which
    round trips raise is decided by a fault plan carried in the state.

    Modelling choices: one handler runs at a time (interleavings of
    concurrent requests are not modelled); relational statements do not
    raise; the time to live of a key is recorded with the key, and a key
    that expires between two calls is a change of the world between those
    calls. *)

From Stdlib Require Import ZArith String Ascii List Lia.
From stdpp Require Import base decidable option list gmap strings pretty.

Open Scope string_scope.
Open Scope Z_scope.

(** ** Relational data model (migrations/initial-schema, models) *)

Inductive seat_status := AVAILABLE | LOCKED | BOOKED.
Inductive booking_status := PENDING | CONFIRMED | CANCELLED.

#[global] Instance seat_status_eq_dec : EqDecision seat_status.
Proof. solve_decision. Defined.
#[global] Instance booking_status_eq_dec : EqDecision booking_status.
Proof. solve_decision. Defined.

Record Seat := mkSeat {
  seat_id : Z;
  venue_id : Z;
  seat_row : string;
  seat_number : Z }.

Record Show := mkShow {
  show_id : Z;
  show_venue_id : Z }.

Record Booking := mkBooking {
  booking_id : Z;
  user_id : Z;
  b_show_id : Z;
  b_status : booking_status;
  created_at : Z }.

Record ShowSeat := mkShowSeat {
  ss_show_id : Z;
  ss_seat_id : Z;
  ss_status : seat_status;
  ss_booking_id : option Z;
  locked_at : option Z }.

(** The tables this core reads and writes; [bookings_seq] is the next value
    of the serial column [bookings.booking_id]. *)
Record Db := mkDb {
  shows : list Show;
  seats : list Seat;
  bookings : list Booking;
  show_seats : list ShowSeat;
  bookings_seq : Z }.

(** ** Lock store (Redis) and deferred-admission queue (BullMQ) *)

Record Entry := mkEntry {
  value : string;
  ttl : option Z }.

Record Job := mkJob {
  job_name : string;
  job_token : string;
  job_clientId : string;
  job_timestamp : Z;
  job_delay : Z;
  job_priority : Z }.

(** Jobs added with a positive delay sit in the delayed set until they are
    due; [getWaiting] returns the waiting list only. *)
Record Queue := mkQueue {
  q_waiting : list Job;
  q_delayed : list Job }.

(** ** The world a handler runs in *)

Record World := mkWorld {
  committed : Db;          (* what other connections see *)
  session : Db;            (* what this connection's transaction sees *)
  redis : gmap string Entry;
  waitingRoomQueue : Queue;
  clock : Z;               (* NOW() and Date.now(), in milliseconds *)
  faults : list bool;      (* head = true: the next store round trip throws *)
  raised : nat }.          (* ghost: how many errors have been thrown so far *)

Definition set_committed (d : Db) (w : World) : World :=
  mkWorld d (session w) (redis w) (waitingRoomQueue w) (clock w) (faults w) (raised w).
Definition set_session (d : Db) (w : World) : World :=
  mkWorld (committed w) d (redis w) (waitingRoomQueue w) (clock w) (faults w) (raised w).
Definition set_redis (r : gmap string Entry) (w : World) : World :=
  mkWorld (committed w) (session w) r (waitingRoomQueue w) (clock w) (faults w) (raised w).
Definition set_queue (q : Queue) (w : World) : World :=
  mkWorld (committed w) (session w) (redis w) q (clock w) (faults w) (raised w).
Definition set_faults (f : list bool) (w : World) : World :=
  mkWorld (committed w) (session w) (redis w) (waitingRoomQueue w) (clock w) f
    (raised w).
Definition set_raised (n : nat) (w : World) : World :=
  mkWorld (committed w) (session w) (redis w) (waitingRoomQueue w) (clock w)
    (faults w) n.

(** ** State monad with one exception *)

Inductive Result (A : Type) := Ok (a : A) | Thrown.
Arguments Ok {A} a.
Arguments Thrown {A}.

Definition M (A : Type) : Type := World -> Result A * World.

Definition ret {A} (a : A) : M A := fun w => (Ok a, w).
(** [throw] raises a new error (and counts it), [rethrow] passes a caught
    one on. *)
Definition throw {A} : M A := fun w => (Thrown, set_raised (S (raised w)) w).
Definition rethrow {A} : M A := fun w => (Thrown, w).
Definition bind {A B} (m : M A) (k : A -> M B) : M B :=
  fun w => match m w with
           | (Ok a, w') => k a w'
           | (Thrown, w') => (Thrown, w')
           end.
(** [try { body } catch (error) { handler }] *)
Definition try_catch {A} (body handler : M A) : M A :=
  fun w => match body w with
           | (Ok a, w') => (Ok a, w')
           | (Thrown, w') => handler w'
           end.

Notation "x <- m ;; k" := (bind m (fun x => k))
  (at level 100, m at level 99, k at level 200, right associativity).
Notation "m ;;; k" := (bind m (fun _ => k))
  (at level 100, k at level 200, right associativity).

(** [if (c) { m }] *)
Definition when (c : bool) (m : M unit) : M unit := if c then m else ret tt.

Definition get_world : M World := fun w => (Ok w, w).
Definition modify (f : World -> World) : M unit := fun w => (Ok tt, f w).

(** One round trip to the lock store: it throws when the fault plan says
    so, and otherwise runs [op] on the store. *)
Definition round_trip {A} (op : M A) : M A :=
  fun w => match faults w with
           | true :: fs => throw (set_faults fs w)
           | false :: fs => op (set_faults fs w)
           | [] => op w
           end.

(** ** JavaScript helpers used by the handlers *)

Module JS.

(** [hay.includes(needle)] *)
Fixpoint includes (needle hay : string) : bool :=
  String.prefix needle hay ||
  match hay with
  | EmptyString => false
  | String _ rest => includes needle rest
  end.

(** [s.startsWith(p)] *)
Definition startsWith (p s : string) : bool := String.prefix p s.

(** [x || d] on a possibly missing string: the empty string is falsy. *)
Definition or_else (x : option string) (d : string) : string :=
  match x with
  | Some s => if decide (s = "") then d else s
  | None => d
  end.

(** [if (x)] on a possibly missing string. *)
Definition truthy (x : option string) : bool :=
  match x with
  | Some s => bool_decide (s ≠ "")
  | None => false
  end.

Definition is_space (c : ascii) : bool :=
  let n := N_of_ascii c in
  (n =? 32)%N || ((9 <=? n)%N && (n <=? 13)%N).

Definition digit_of (c : ascii) : option Z :=
  let n := Z.of_N (N_of_ascii c) in
  if (48 <=? n) && (n <=? 57) then Some (n - 48)
  else if (97 <=? n) && (n <=? 122) then Some (n - 97 + 10)
  else if (65 <=? n) && (n <=? 90) then Some (n - 65 + 10)
  else None.

(** The longest prefix of digits below [radix], read from the left. *)
Fixpoint digits (radix : Z) (s : string) (acc : option Z) : option Z :=
  match s with
  | EmptyString => acc
  | String c rest =>
      match digit_of c with
      | Some d =>
          if d <? radix
          then digits radix rest (Some (radix * default 0 acc + d))
          else acc
      | None => acc
      end
  end.

Fixpoint skip_spaces (s : string) : string :=
  match s with
  | String c rest => if is_space c then skip_spaces rest else s
  | EmptyString => s
  end.

Definition unsigned (s : string) : option Z :=
  match s with
  | String "0" (String "x" rest) | String "0" (String "X" rest) =>
      digits 16 rest None
  | _ => digits 10 s None
  end.

(** [parseInt(s)]: [None] is NaN. *)
Definition parseInt (s : string) : option Z :=
  match skip_spaces s with
  | String "-" rest => Z.opp <$> unsigned rest
  | String "+" rest => unsigned rest
  | rest => unsigned rest
  end.

(** [a > b] and [a >= b] where the right or the left side may be NaN. *)
Definition gt (a b : option Z) : bool :=
  match a, b with
  | Some x, Some y => y <? x
  | _, _ => false
  end.
Definition ge (a b : option Z) : bool :=
  match a, b with
  | Some x, Some y => y <=? x
  | _, _ => false
  end.

End JS.

(** ** Lock-store commands *)

Module Redis.

(** The value is the decimal rendering of a signed 64-bit integer. *)
Definition integer_of (s : string) : option Z :=
  match JS.parseInt s with
  | Some n =>
      if decide (pretty n = s ∧ - 2 ^ 63 <= n < 2 ^ 63) then Some n else None
  | None => None
  end.

Definition get (k : string) : M (option string) :=
  round_trip (fun w => (Ok (value <$> redis w !! k), w)).

(** [SET k v EX seconds NX]: [true] is the reply OK, [false] the nil reply. *)
Definition set_ex_nx (k v : string) (seconds : Z) : M bool :=
  round_trip (fun w =>
    match redis w !! k with
    | Some _ => (Ok false, w)
    | None => (Ok true, set_redis (<[k := mkEntry v (Some seconds)]> (redis w)) w)
    end).

Definition setex (k : string) (seconds : Z) (v : string) : M unit :=
  round_trip (modify (fun w =>
    set_redis (<[k := mkEntry v (Some seconds)]> (redis w)) w)).

(** [DEL k1 ... kn] *)
Definition del (ks : list string) : M unit :=
  round_trip (modify (fun w =>
    set_redis (foldr delete (redis w) ks) w)).

Definition incr_store (k : string) (r : gmap string Entry)
  : option (Z * gmap string Entry) :=
  match r !! k with
  | None => Some (1, <[k := mkEntry "1" None]> r)
  | Some e =>
      match integer_of (value e) with
      | Some n =>
          if decide (n + 1 < 2 ^ 63)
          then Some (n + 1, <[k := mkEntry (pretty (n + 1)) (ttl e)]> r)
          else None
      | None => None
      end
  end.

Definition expire_store (k : string) (seconds : Z) (r : gmap string Entry)
  : gmap string Entry :=
  match r !! k with
  | Some e => <[k := mkEntry (value e) (Some seconds)]> r
  | None => r
  end.

(** [INCR k]: the reply error on a value that is no integer is thrown. *)
Definition incr (k : string) : M Z :=
  round_trip (fun w =>
    match incr_store k (redis w) with
    | Some (n, r) => (Ok n, set_redis r w)
    | None => throw w
    end).

Definition expire (k : string) (seconds : Z) : M unit :=
  round_trip (modify (fun w =>
    set_redis (expire_store k seconds (redis w)) w)).

(** [multi().incr(k).expire(k, seconds).exec()]: one round trip; a reply
    error of a queued command is part of the result array, not thrown. *)
Definition multi_incr_expire (k : string) (seconds : Z) : M unit :=
  round_trip (modify (fun w =>
    let r := match incr_store k (redis w) with
             | Some (_, r) => r
             | None => redis w
             end in
    set_redis (expire_store k seconds r) w)).

End Redis.

(** ** Queue commands (BullMQ over the same store connection) *)

Module Bull.

(** [queue.getWaiting()] *)
Definition getWaiting : M (list Job) :=
  round_trip (fun w => (Ok (q_waiting (waitingRoomQueue w)), w)).

(** [queue.add(name, data, { delay, priority })] *)
Definition add (j : Job) : M unit :=
  round_trip (modify (fun w =>
    let q := waitingRoomQueue w in
    set_queue
      (if decide (0 < job_delay j)
       then mkQueue (q_waiting q) (q_delayed q ++ [j])
       else mkQueue (q_waiting q ++ [j]) (q_delayed q)) w)).

End Bull.

(** ** Relational statements (pg client) *)

Module Pg.

Definition BEGIN : M unit := modify (fun w => set_session (committed w) w).
Definition COMMIT : M unit := modify (fun w => set_committed (session w) w).
Definition ROLLBACK : M unit := modify (fun w => set_session (committed w) w).

(** A SELECT sees the tables of the open transaction, an INSERT or UPDATE
    changes them.  The statements below are the ones PostgreSQL runs when
    every id parameter is a value of the [integer] id columns ([int4]
    below); for a parameter outside that range the real statement raises
    instead, which these definitions do not cover: the properties of
    requests with arbitrary ids carry [int4] as a hypothesis. *)
Definition query {A} (q : Db -> A) : M A := fun w => (Ok (q (session w)), w).
Definition exec (u : Db -> Db) : M unit :=
  modify (fun w => set_session (u (session w)) w).

Definition set_bookings (bs : list Booking) (d : Db) : Db :=
  mkDb (shows d) (seats d) bs (show_seats d) (bookings_seq d).
Definition set_show_seats (ss : list ShowSeat) (d : Db) : Db :=
  mkDb (shows d) (seats d) (bookings d) ss (bookings_seq d).

(** SELECT show_id FROM shows WHERE show_id = $1 *)
Definition select_show (sid : Z) (d : Db) : list Show :=
  filter (fun s => show_id s = sid) (shows d).

(** SELECT seat_id, status FROM show_seats
    WHERE show_id = $1 AND seat_id = ANY($2) FOR UPDATE

    The statement has no ORDER BY: the rows come here in the order of the
    table, PostgreSQL may return them in another, so what is said about a
    list computed from these rows is said up to the order of its
    elements. *)
Definition select_show_seats_for_update (sid : Z) (ids : list Z) (d : Db)
  : list ShowSeat :=
  filter (fun r => ss_show_id r = sid ∧ ss_seat_id r ∈ ids) (show_seats d).

(** SELECT seat_id FROM seats WHERE seat_id = ANY($1) *)
Definition select_seats (ids : list Z) (d : Db) : list Seat :=
  filter (fun s => seat_id s ∈ ids) (seats d).

(** INSERT INTO bookings (user_id, show_id, status) VALUES ($1, $2, $3)
    RETURNING booking_id; [created_at] defaults to NOW(). *)
Definition insert_booking (uid sid : Z) (st : booking_status) (now : Z)
    (d : Db) : Db :=
  mkDb (shows d) (seats d)
    (bookings d ++ [mkBooking (bookings_seq d) uid sid st now])
    (show_seats d) (bookings_seq d + 1).

(** One row of INSERT INTO show_seats ... ON CONFLICT (show_id, seat_id)
    DO UPDATE SET status = 'LOCKED', booking_id = $2, locked_at = NOW() *)
Definition upsert_locked_row (sid bid now : Z) (rows : list ShowSeat)
    (seat : Z) : list ShowSeat :=
  if decide (Exists (fun r => ss_show_id r = sid ∧ ss_seat_id r = seat) rows)
  then (fun r =>
          if decide (ss_show_id r = sid ∧ ss_seat_id r = seat)
          then mkShowSeat (ss_show_id r) (ss_seat_id r) LOCKED (Some bid)
                 (Some now)
          else r) <$> rows
  else rows ++ [mkShowSeat sid seat LOCKED (Some bid) (Some now)].

Definition upsert_locked (sid bid : Z) (ids : list Z) (now : Z) (d : Db)
  : Db :=
  set_show_seats (foldl (upsert_locked_row sid bid now) (show_seats d) ids) d.

(** SELECT booking_id, show_id, status FROM bookings
    WHERE booking_id = $1 AND user_id = $2 *)
Definition select_booking (bid uid : Z) (d : Db) : list Booking :=
  filter (fun b => booking_id b = bid ∧ user_id b = uid) (bookings d).

(** SELECT seat_id, locked_at FROM show_seats
    WHERE booking_id = $1 AND status = $2 *)
Definition select_seats_of_booking_with_status (bid : Z) (st : seat_status)
    (d : Db) : list ShowSeat :=
  filter (fun r => ss_booking_id r = Some bid ∧ ss_status r = st)
    (show_seats d).

(** SELECT seat_id FROM show_seats WHERE booking_id = $1 *)
Definition select_seats_of_booking (bid : Z) (d : Db) : list ShowSeat :=
  filter (fun r => ss_booking_id r = Some bid) (show_seats d).

(** UPDATE bookings SET status = $1 WHERE booking_id = $2 *)
Definition update_booking_status (st : booking_status) (bid : Z) (d : Db)
  : Db :=
  set_bookings
    ((fun b =>
        if decide (booking_id b = bid)
        then mkBooking (booking_id b) (user_id b) (b_show_id b) st
               (created_at b)
        else b) <$> bookings d) d.

Definition released (r : ShowSeat) : ShowSeat :=
  mkShowSeat (ss_show_id r) (ss_seat_id r) AVAILABLE None None.

(** UPDATE show_seats SET status = $1, booking_id = NULL, locked_at = NULL
    WHERE booking_id = $2 AND seat_id = ANY($3)     (with $1 = AVAILABLE) *)
Definition release_seats_among (bid : Z) (ids : list Z) (d : Db) : Db :=
  set_show_seats
    ((fun r =>
        if decide (ss_booking_id r = Some bid ∧ ss_seat_id r ∈ ids)
        then released r else r) <$> show_seats d) d.

(** UPDATE show_seats SET status = $1, booking_id = NULL, locked_at = NULL
    WHERE booking_id = $2                           (with $1 = AVAILABLE) *)
Definition release_seats (bid : Z) (d : Db) : Db :=
  set_show_seats
    ((fun r =>
        if decide (ss_booking_id r = Some bid) then released r else r)
       <$> show_seats d) d.

(** UPDATE show_seats SET status = $1 WHERE booking_id = $2 *)
Definition update_seat_status (st : seat_status) (bid : Z) (d : Db) : Db :=
  set_show_seats
    ((fun r =>
        if decide (ss_booking_id r = Some bid)
        then mkShowSeat (ss_show_id r) (ss_seat_id r) st (ss_booking_id r)
               (locked_at r)
        else r) <$> show_seats d) d.

(** SELECT s.seat_id, s.seat_row, s.seat_number FROM seats s
    JOIN show_seats ss ON s.seat_id = ss.seat_id WHERE ss.booking_id = $1 *)
Definition select_seat_details_of_booking (bid : Z) (d : Db) : list Seat :=
  s ← seats d;
  (fun _ => s) <$>
    filter (fun r => ss_seat_id r = seat_id s ∧ ss_booking_id r = Some bid)
      (show_seats d).

(** SELECT booking_id, show_id, user_id FROM bookings
    WHERE status = 'PENDING'
    AND created_at < NOW() - INTERVAL '<minutes> minutes' *)
Definition select_expired_bookings (minutes now : Z) (d : Db)
  : list Booking :=
  filter (fun b => b_status b = PENDING ∧
                   created_at b < now - minutes * 60 * 1000)
    (bookings d).

End Pg.

(** ** HTTP responses *)

Record SeatDetail := mkSeatDetail {
  sd_seat_id : Z;
  sd_seat_row : string;
  sd_seat_number : Z }.

Definition seat_detail (row : Seat) : SeatDetail :=
  mkSeatDetail (seat_id row) (seat_row row) (seat_number row).

Inductive Body :=
| Message (message : string)
| FailedSeats (message : string) (failed_seats : list Z)
| InvalidSeats (message : string) (invalid_seats : list Z)
| SeatsLocked (message : string) (booking_id : Z)
    (locked_seats : list SeatDetail) (expires_in : Z)
| ExpiredSeats (message : string) (expired_seats : list Z)
| BookingConfirmed (message : string) (booking_id : Z)
    (confirmed_seats : list SeatDetail)
| BookingCancelled (message : string) (booking_id : Z)
    (cancelled_seats : list SeatDetail)
| RetryAfter (message : string) (retry_after : Z)
| InQueue (message estimated_wait_time position : string)
    (token : option string).

(** [res.status(code).json(body)] *)
Record Response := Json { status : Z; body : Body }.

(** ** Booking controller *)

Definition seat_lock_key (show_id seatId : Z) : string :=
  "seat_lock:" +:+ pretty show_id +:+ ":" +:+ pretty seatId.

(** [for (const key of redisLockKeys) await redisClient.del(key)] *)
Fixpoint release_locks (redisLockKeys : list string) : M unit :=
  match redisLockKeys with
  | [] => ret tt
  | key :: rest => Redis.del [key] ;;; release_locks rest
  end.

(** The acquisition loop of [lockSeats] over the seats still to visit.  It
    ends with [inl lockedSeats] when every key was set, and with [inr] of the
    409 response when a [SET ... NX] came back empty. *)
Fixpoint acquire_locks (show_id userId lockTimeout : Z)
    (allAvailableSeats todo lockedSeats : list Z)
    (redisLockKeys : list string) : M (list Z + Response) :=
  match todo with
  | [] => ret (inl lockedSeats)
  | seatId :: rest =>
      let lockKey := seat_lock_key show_id seatId in
      lockResult <- Redis.set_ex_nx lockKey (pretty userId) lockTimeout ;;
      if lockResult : bool
      then acquire_locks show_id userId lockTimeout allAvailableSeats rest
             (lockedSeats ++ [seatId]) (redisLockKeys ++ [lockKey])
      else
        release_locks redisLockKeys ;;;
        Pg.ROLLBACK ;;;
        ret (inr (Json 409
          (FailedSeats "Some seats are no longer available"
             (filter (fun id => id ∉ lockedSeats) allAvailableSeats))))
  end.

Definition lockSeats (show_id : Z) (seat_ids : option (list Z)) (userId : Z)
  : M Response :=
  match seat_ids with
  | None | Some [] =>
      ret (Json 400 (Message "At least one seat must be selected"))
  | Some seat_ids =>
      let lockTimeout := 10 * 60 in
      try_catch
        (Pg.BEGIN ;;;
         showResult <- Pg.query (Pg.select_show show_id) ;;
         if decide (length showResult = 0%nat) then
           Pg.ROLLBACK ;;;
           ret (Json 404 (Message "Show not found"))
         else
         seatStatusResult <-
           Pg.query (Pg.select_show_seats_for_update show_id seat_ids) ;;
         let unavailableSeats :=
           filter (fun row => ss_status row ≠ AVAILABLE) seatStatusResult in
         if decide (0 < length unavailableSeats)%nat then
           Pg.ROLLBACK ;;;
           ret (Json 409
             (FailedSeats "Some seats are no longer available"
                (ss_seat_id <$> unavailableSeats)))
         else
         let existingSeatIds : list Z := ss_seat_id <$> seatStatusResult in
         let newSeats :=
           filter (fun seatId => seatId ∉ existingSeatIds) seat_ids in
         rejected <-
           (if decide (0 < length newSeats)%nat then
              validSeatsResult <- Pg.query (Pg.select_seats newSeats) ;;
              let validNewSeats : list Z := seat_id <$> validSeatsResult in
              let invalidSeats :=
                filter (fun id => id ∉ validNewSeats) newSeats in
              if decide (0 < length invalidSeats)%nat then
                Pg.ROLLBACK ;;;
                ret (Some (Json 400
                  (InvalidSeats "Invalid seat IDs" invalidSeats)))
              else ret None
            else ret None) ;;
         match rejected with
         | Some response => ret response
         | None =>
         let allAvailableSeats : list Z :=
           ((ss_seat_id <$> seatStatusResult) ++ newSeats)%list in
         acquired <-
           acquire_locks show_id userId lockTimeout allAvailableSeats
             allAvailableSeats [] [] ;;
         match acquired with
         | inr response => ret response
         | inl lockedSeats =>
         w <- get_world ;;
         let bookingId := bookings_seq (session w) in
         Pg.exec (Pg.insert_booking userId show_id PENDING (clock w)) ;;;
         when (bool_decide (0 < length lockedSeats)%nat)
           (Pg.exec
              (Pg.upsert_locked show_id bookingId lockedSeats (clock w))) ;;;
         Pg.COMMIT ;;;
         seatDetailsResult <- Pg.query (Pg.select_seats lockedSeats) ;;
         let seatDetails := seat_detail <$> seatDetailsResult in
         ret (Json 200
           (SeatsLocked "Seats locked successfully" bookingId seatDetails
              lockTimeout))
         end
         end)
        (Pg.ROLLBACK ;;;
         ret (Json 500 (Message "Failed to lock seats")))
  end.

(** [new Date(seat.locked_at).getTime()]: a null timestamp is the epoch. *)
Definition lockedAt (seat : ShowSeat) : Z := default 0 (locked_at seat).

Definition confirmBooking (booking_id userId : Z) : M Response :=
  try_catch
    (Pg.BEGIN ;;;
     bookingResult <- Pg.query (Pg.select_booking booking_id userId) ;;
     match bookingResult with
     | [] =>
         Pg.ROLLBACK ;;;
         ret (Json 404 (Message "Booking not found"))
     | booking :: _ =>
     if decide (b_status booking ≠ PENDING) then
       Pg.ROLLBACK ;;;
       ret (Json 400 (Message "Booking is not in pending status"))
     else
     seatsResult <-
       Pg.query (Pg.select_seats_of_booking_with_status booking_id LOCKED) ;;
     if decide (length seatsResult = 0%nat) then
       Pg.ROLLBACK ;;;
       ret (Json 400 (Message "No locked seats found for this booking"))
     else
     let lockTimeout := 10 * 60 in
     w <- get_world ;;
     let now := clock w in
     let expiredSeats :=
       filter (fun seat =>
                 let lockExpiry := lockedAt seat + lockTimeout * 1000 in
                 now > lockExpiry) seatsResult in
     if decide (0 < length expiredSeats)%nat then
       let expiredSeatIds := ss_seat_id <$> expiredSeats in
       Pg.exec (Pg.release_seats_among booking_id expiredSeatIds) ;;;
       let expiredLockKeys :=
         (fun seat => seat_lock_key (b_show_id booking) (ss_seat_id seat))
           <$> expiredSeats in
       when (bool_decide (0 < length expiredLockKeys)%nat)
         (Redis.del expiredLockKeys) ;;;
       Pg.exec (Pg.update_booking_status CANCELLED booking_id) ;;;
       Pg.ROLLBACK ;;;
       ret (Json 410
         (ExpiredSeats "Seat locks have expired. Booking has been cancelled."
            expiredSeatIds))
     else
     Pg.exec (Pg.update_booking_status CONFIRMED booking_id) ;;;
     Pg.exec (Pg.update_seat_status BOOKED booking_id) ;;;
     let lockKeys :=
       (fun seat => seat_lock_key (b_show_id booking) (ss_seat_id seat))
         <$> seatsResult in
     when (bool_decide (0 < length lockKeys)%nat) (Redis.del lockKeys) ;;;
     confirmedSeatsResult <-
       Pg.query (Pg.select_seat_details_of_booking booking_id) ;;
     let confirmedSeats := seat_detail <$> confirmedSeatsResult in
     Pg.COMMIT ;;;
     ret (Json 200
       (BookingConfirmed "Booking confirmed successfully" booking_id
          confirmedSeats))
     end)
    (Pg.ROLLBACK ;;;
     ret (Json 500 (Message "Failed to confirm booking"))).

Definition cancelBooking (booking_id userId : Z) : M Response :=
  try_catch
    (Pg.BEGIN ;;;
     bookingResult <- Pg.query (Pg.select_booking booking_id userId) ;;
     match bookingResult with
     | [] =>
         Pg.ROLLBACK ;;;
         ret (Json 404 (Message "Booking not found"))
     | booking :: _ =>
     if decide (b_status booking = CANCELLED) then
       Pg.ROLLBACK ;;;
       ret (Json 400 (Message "Booking is already cancelled"))
     else
     seatsResult <-
       Pg.query (Pg.select_seat_details_of_booking booking_id) ;;
     Pg.exec (Pg.update_booking_status CANCELLED booking_id) ;;;
     Pg.exec (Pg.release_seats booking_id) ;;;
     let lockKeys :=
       (fun seat => seat_lock_key (b_show_id booking) (seat_id seat))
         <$> seatsResult in
     when (bool_decide (0 < length lockKeys)%nat) (Redis.del lockKeys) ;;;
     let cancelledSeats := seat_detail <$> seatsResult in
     Pg.COMMIT ;;;
     ret (Json 200
       (BookingCancelled "Booking cancelled successfully" booking_id
          cancelledSeats))
     end)
    (Pg.ROLLBACK ;;;
     ret (Json 500 (Message "Failed to cancel booking"))).

(** ** Cleanup worker *)

(** [for (const seat of seatsResult.rows) await redisClient.del(lockKey)] *)
Fixpoint release_seat_locks (show_id : Z) (seatsResult : list ShowSeat)
  : M unit :=
  match seatsResult with
  | [] => ret tt
  | seat :: rest =>
      Redis.del [seat_lock_key show_id (ss_seat_id seat)] ;;;
      release_seat_locks show_id rest
  end.

(** The body of [for (const booking of expiredBookings.rows)]. *)
Fixpoint cleanup_each (expiredBookings : list Booking) : M unit :=
  match expiredBookings with
  | [] => ret tt
  | booking :: rest =>
      seatsResult <- Pg.query (Pg.select_seats_of_booking (booking_id booking)) ;;
      Pg.exec (Pg.release_seats (booking_id booking)) ;;;
      Pg.exec (Pg.update_booking_status CANCELLED (booking_id booking)) ;;;
      release_seat_locks (b_show_id booking) seatsResult ;;;
      cleanup_each rest
  end.

Definition cleanupExpiredBookings : M unit :=
  let timeoutMinutes := 10 in
  try_catch
    (Pg.BEGIN ;;;
     w <- get_world ;;
     expiredBookings <-
       Pg.query (Pg.select_expired_bookings timeoutMinutes (clock w)) ;;
     cleanup_each expiredBookings ;;;
     Pg.COMMIT)
    (Pg.ROLLBACK ;;;
     rethrow).

(** ** Admission middlewares *)

Record Request := mkRequest {
  path : string;                (* req.path *)
  ip : option string;           (* req.ip *)
  (* req.params.show_id || req.body.show_id || req.query.show_id, as the
     key template renders it *)
  req_show_id : option string }.

Record Env := mkEnv {
  RATE_LIMIT_PER_MINUTE : option string;
  MAX_CONCURRENT_USERS : option string }.

(** The draws of [Math.random()] one request makes: the token suffix
    [Math.random().toString(36).substr(2, 9)], the delay term
    [Math.random() * 15000] in whole milliseconds and the priority
    [Math.floor(Math.random() * 10)]. *)
Record Random := mkRandom {
  random_suffix : string;
  random_delay : Z;
  random_priority : Z }.

(** What a middleware does with the request: [next()], possibly after
    setting [req.waitingRoomToken], or a response of its own. *)
Inductive Handled :=
| next (waitingRoomToken : option string)
| respond (r : Response).

Definition rateLimiter (env : Env) (req : Request) : M Handled :=
  let clientId := JS.or_else (ip req) "unknown" in
  let rateLimitKey := "rate_limit:" +:+ clientId in
  try_catch
    (current <- Redis.incr rateLimitKey ;;
     when (bool_decide (current = 1)) (Redis.expire rateLimitKey 60) ;;;
     let maxRequests :=
       JS.parseInt (JS.or_else (RATE_LIMIT_PER_MINUTE env) "60") in
     let maxRequests :=
       if JS.includes "/booking/" (path req) || JS.includes "/lock" (path req)
          || JS.includes "/confirm" (path req)
       then Some 30
       else maxRequests in
     if JS.gt (Some current) maxRequests then
       ret (respond (Json 429
         (RetryAfter "Too many requests. Please slow down." 60)))
     else ret (next None))
    (ret (next None)).

Definition checkHighDemandShow (showId : string) : M bool :=
  try_catch
    (let demandKey := "show_demand:" +:+ showId in
     stored <- Redis.get demandKey ;;
     let currentDemand := JS.or_else stored "0" in
     let demandCount := JS.parseInt currentDemand in
     if JS.gt demandCount (Some 50) then ret true
     else
       Redis.multi_incr_expire demandKey 300 ;;;
       ret false)
    (ret false).

Definition checkSystemLoad : M bool :=
  try_catch
    (let systemLoadKey := "system_load" in
     stored <- Redis.get systemLoadKey ;;
     let currentLoad := JS.or_else stored "0" in
     let loadCount := JS.parseInt currentLoad in
     if JS.gt loadCount (Some 200) then ret true
     else
       Redis.multi_incr_expire systemLoadKey 120 ;;;
       ret false)
    (ret false).

Definition smartWaitingRoom (env : Env) (rnd : Random) (req : Request)
  : M Handled :=
  if String.eqb (path req) "/health" || JS.startsWith "/api/v1/admin" (path req)
  then ret (next None)
  else
  let isBookingRoute :=
    JS.includes "/booking/" (path req) || JS.includes "/shows/" (path req)
    || JS.includes "/lock" (path req) || JS.includes "/confirm" (path req) in
  if negb isBookingRoute then ret (next None)
  else
  try_catch
    (let clientId := JS.or_else (ip req) "unknown" in
     shouldActivateWaitingRoom <-
       (if JS.truthy (req_show_id req)
        then checkHighDemandShow (default "" (req_show_id req))
        else checkSystemLoad) ;;
     if negb shouldActivateWaitingRoom then ret (next None)
     else
     let waitingRoomKey := "waiting_room:" +:+ clientId in
     existingToken <- Redis.get waitingRoomKey ;;
     if JS.truthy existingToken then
       let existingToken := default "" existingToken in
       canProceed <- Redis.get ("can_proceed:" +:+ existingToken) ;;
       if JS.truthy canProceed then
         Redis.del [waitingRoomKey] ;;;
         Redis.del ["can_proceed:" +:+ existingToken] ;;;
         ret (next (Some existingToken))
       else
         ret (respond (Json 429
           (InQueue "Please wait, you are in the virtual waiting room"
              "1-3 minutes" "in_queue" None)))
     else
     queueSize <- Bull.getWaiting ;;
     let maxConcurrentUsers :=
       JS.parseInt (JS.or_else (MAX_CONCURRENT_USERS env) "500") in
     if JS.ge (Some (Z.of_nat (length queueSize))) maxConcurrentUsers then
       w <- get_world ;;
       let token :=
         "token_" +:+ pretty (clock w) +:+ "_" +:+ random_suffix rnd in
       Bull.add (mkJob "process-waiting-user" token clientId (clock w)
                   (random_delay rnd + 5000) (random_priority rnd)) ;;;
       Redis.setex waitingRoomKey 300 token ;;;
       ret (respond (Json 429
         (InQueue
            "High traffic detected. You have been placed in the virtual waiting room."
            "1-3 minutes" "in_queue" (Some token))))
     else ret (next None))
    (ret (next None)).

(** DEPRECATED: kept for backward compatibility. *)
Definition virtualWaitingRoom := smartWaitingRoom.

(** ** Sample data used by the closed examples *)

Module Sample.

(** Show 1 plays in venue 1, whose seats are 1, 2 and 3; seat 9 belongs
    to venue 2. *)
Definition db0 : Db :=
  mkDb [mkShow 1 1]
    [mkSeat 1 1 "A" 1; mkSeat 2 1 "A" 2; mkSeat 3 1 "A" 3; mkSeat 9 2 "Z" 1]
    []
    [mkShowSeat 1 1 AVAILABLE None None; mkShowSeat 1 2 AVAILABLE None None;
     mkShowSeat 1 3 AVAILABLE None None]
    1.

Definition world (d : Db) (r : gmap string Entry) (now : Z)
    (plan : list bool) : World :=
  mkWorld d d r (mkQueue [] []) now plan 0.

(** User 7 holds seats 1 and 2 under the pending booking 1 since t = 1000;
    user 8 holds seat 3 under the pending booking 2 since t = 2000. *)
Definition db_held : Db :=
  mkDb (shows db0) (seats db0)
    [mkBooking 1 7 1 PENDING 1000; mkBooking 2 8 1 PENDING 2000]
    [mkShowSeat 1 1 LOCKED (Some 1) (Some 1000);
     mkShowSeat 1 2 LOCKED (Some 1) (Some 1000);
     mkShowSeat 1 3 LOCKED (Some 2) (Some 2000)]
    3.

Definition locks_held : gmap string Entry :=
  <["seat_lock:1:1" := mkEntry "7" (Some 600)]>
    (<["seat_lock:1:2" := mkEntry "7" (Some 600)]>
       (<["seat_lock:1:3" := mkEntry "8" (Some 600)]> ∅)).

(** Booking 1 is confirmed and its seats are booked. *)
Definition db_confirmed : Db :=
  mkDb (shows db0) (seats db0)
    [mkBooking 1 7 1 CONFIRMED 1000]
    [mkShowSeat 1 1 BOOKED (Some 1) (Some 1000);
     mkShowSeat 1 2 BOOKED (Some 1) (Some 1000);
     mkShowSeat 1 3 AVAILABLE None None]
    2.

End Sample.

(** ** Vocabulary of the properties *)

(** [same_db w w']: the step from [w] to [w'] changed neither the committed
    tables, nor the tables of the open transaction, nor the clock. *)
Definition same_db (w w' : World) : Prop :=
  committed w' = committed w ∧ session w' = session w ∧ clock w' = clock w.

(** The tables a grant commits: the new PENDING booking and, through the
    bulk upsert, one LOCKED row per seat. *)
Definition granted (sid uid : Z) (locked : list Z) (w1 : World) : Db :=
  let d := Pg.insert_booking uid sid PENDING (clock w1) (session w1) in
  if bool_decide (0 < length locked)%nat
  then Pg.upsert_locked sid (bookings_seq (session w1)) locked (clock w1) d
  else d.

(** One booking of the sweep, on the tables. *)
Definition swept (d : Db) (booking : Booking) : Db :=
  Pg.update_booking_status CANCELLED (booking_id booking)
    (Pg.release_seats (booking_id booking) d).

Inductive Op :=
| Lock (show_id : Z) (seat_ids : option (list Z)) (userId : Z)
| Confirm (booking_id userId : Z)
| Cancel (booking_id userId : Z)
| Sweep.

Definition run (op : Op) (w : World) : World :=
  match op with
  | Lock sid ids uid => (lockSeats sid ids uid w).2
  | Confirm bid uid => (confirmBooking bid uid w).2
  | Cancel bid uid => (cancelBooking bid uid w).2
  | Sweep => (cleanupExpiredBookings w).2
  end.

(** The values of an [integer] column (the ids of shows, seats, bookings
    and users). *)
Definition int4 (n : Z) : Prop := - 2 ^ 31 <= n < 2 ^ 31.

(** A row carries a lock timestamp exactly when it is LOCKED or BOOKED, and
    an AVAILABLE row has no owning booking. *)
Definition lock_stamp_ok (row : ShowSeat) : Prop :=
  (is_Some (locked_at row) ↔ ss_status row = LOCKED ∨ ss_status row = BOOKED) ∧
  (ss_status row = AVAILABLE → ss_booking_id row = None).

(** [booking_id] is the primary key of [bookings]. *)
Definition bookings_pkey (d : Db) : Prop :=
  NoDup (booking_id <$> bookings d).

(** The serial column has handed out only ids below its next value. *)
Definition bookings_serial (d : Db) : Prop :=
  bookings_pkey d ∧ ∀ b, b ∈ bookings d → booking_id b < bookings_seq d.

(** What goes on between two operations of this process: time passes, keys
    expire or are set by other nodes, the queue moves, the fault plan of the
    next call is chosen.  The relational store is only written by the four
    operations. *)
Inductive Event :=
| Do (op : Op)
| Elsewhere (now : Z) (store : gmap string Entry) (queue : Queue)
    (plan : list bool).

Definition happen (w : World) (e : Event) : World :=
  match e with
  | Do op => run op w
  | Elsewhere now store queue plan =>
      mkWorld (committed w) (session w) store queue now plan (raised w)
  end.

Definition history (es : list Event) (w : World) : World :=
  foldl happen w es.

(** The row a status update writes for [b]. *)
Definition with_status (st : booking_status) (b : Booking) : Booking :=
  mkBooking (booking_id b) (user_id b) (b_show_id b) st (created_at b).

(** [counts m]: a run of [m] that returns has thrown nothing, and a run
    that throws has thrown exactly once. *)
Definition counts {A} (m : M A) : Prop :=
  ∀ w, match m w with
       | (Ok _, w') => raised w' = raised w
       | (Thrown, w') => raised w' = S (raised w)
       end.

(** [steady m]: on an empty fault plan [m] returns, and the plan is still
    empty afterwards. *)
Definition steady {A} (m : M A) : Prop :=
  ∀ w, faults w = [] → ∃ a w', m w = (Ok a, w') ∧ faults w' = [].

(** [try { body } catch (error) { next() }]: the middleware always settles,
    and if an error was thrown on the way it settles with [next()]. *)
Definition fails_open (m : M Handled) : Prop :=
  ∀ w, ∃ h w',
    m w = (Ok h, w') ∧ (raised w' ≠ raised w → h = next None).

(** A body that either returns without any error thrown, or returns
    [next()], or throws. *)
Definition opens (m : M Handled) : Prop :=
  ∀ w, match m w with
       | (Ok h, w') => raised w' = raised w ∨ h = next None
       | (Thrown, _) => True
       end.

(** [try { body } catch (error) { return false }]: the check always
    answers, and answers [false] if an error was thrown. *)
Definition quiet_or_false (m : M bool) : Prop :=
  ∀ w, ∃ b w', m w = (Ok b, w') ∧ (raised w' = raised w ∨ b = false).

(** The routes the waiting room applies to. *)
Definition admissible (req : Request) : bool :=
  negb (String.eqb (path req) "/health"
        || JS.startsWith "/api/v1/admin" (path req)) &&
  (JS.includes "/booking/" (path req) || JS.includes "/shows/" (path req)
   || JS.includes "/lock" (path req) || JS.includes "/confirm" (path req)).

(** The counter that is relevant for a request, its threshold and its
    current reading. *)
Definition demand_key (req : Request) : string :=
  if JS.truthy (req_show_id req)
  then "show_demand:" +:+ default "" (req_show_id req)
  else "system_load".

Definition demand_threshold (req : Request) : Z :=
  if JS.truthy (req_show_id req) then 50 else 200.

Definition demand (req : Request) (w : World) : option Z :=
  JS.parseInt (JS.or_else (value <$> redis w !! demand_key req) "0").

(** The queue marker of the caller. *)
Definition marker_key (req : Request) : string :=
  "waiting_room:" +:+ JS.or_else (ip req) "unknown".

(** The waiting list has reached MAX_CONCURRENT_USERS (500 by default). *)
Definition queue_full (env : Env) (w : World) : bool :=
  JS.ge (Some (Z.of_nat (length (q_waiting (waitingRoomQueue w)))))
    (JS.parseInt (JS.or_else (MAX_CONCURRENT_USERS env) "500")).

Module AdmissionSample.

Definition env : Env := mkEnv None None.
Definition rnd : Random := mkRandom "k3j9x0a1b" 7000 4.
Definition req : Request :=
  mkRequest "/api/v1/bookings/lock" (Some "10.0.0.1") (Some "1").

(** Show 1 has been asked for 51 times in the current window. *)
Definition hot : gmap string Entry :=
  <["show_demand:1" := mkEntry "51" (Some 300)]> ∅.

Definition world (q : Queue) : World :=
  mkWorld Sample.db0 Sample.db0 hot q 1000 [] 0.

Definition waiting_job : Job :=
  mkJob "process-waiting-user" "token_900_aaaaaaaaa" "10.0.0.9" 900 0 3.

End AdmissionSample.

(** ** Further code: the waiting-room worker and the middleware chain *)

(** The processor of the waiting-room queue (workers/waitingRoom.worker):
    after its simulated delay it looks the client's queue marker up and, if
    the client is still waiting, writes the admitted token of the job. *)
Definition waitingRoomWorker (job : Job) : M unit :=
  try_catch
    (let waitingRoomKey := "waiting_room:" +:+ job_clientId job in
     isStillWaiting <- Redis.get waitingRoomKey ;;
     when (JS.truthy isStillWaiting)
       (Redis.setex ("can_proceed:" +:+ job_token job) 300 "true"))
    rethrow.

(** [app.use(rateLimiter); app.use(virtualWaitingRoom);] in index.ts: the
    waiting room runs only when the rate limiter called [next()]. *)
Definition admission (env : Env) (rnd : Random) (req : Request) : M Handled :=
  limited <- rateLimiter env req ;;
  match limited with
  | next _ => virtualWaitingRoom env rnd req
  | respond r => ret (respond r)
  end.

(** [replay k m]: [k] calls of [m] one after the other, with their
    results. *)
Fixpoint replay {A} (k : nat) (m : M A) : M (list A) :=
  match k with
  | O => ret []
  | S k' => a <- m ;; rest <- replay k' m ;; ret (a :: rest)
  end.

(** ** Further vocabulary *)

(** A string of decimal digits. *)
Fixpoint decimal (s : string) : bool :=
  match s with
  | EmptyString => true
  | String c rest =>
      let n := N_of_ascii c in
      (48 <=? n)%N && (n <=? 57)%N && decimal rest
  end.

(** [(show_id, seat_id)] is the primary key of [show_seats]. *)
Definition show_seats_pkey (d : Db) : Prop :=
  NoDup ((fun row => (ss_show_id row, ss_seat_id row)) <$> show_seats d).

(** The foreign key of [show_seats] into [seats]: the seat of every row is a
    row of [seats]. *)
Definition seat_refs_ok (d : Db) : Prop :=
  ∀ row, row ∈ show_seats d →
    ∃ seat, seat ∈ seats d ∧ seat_id seat = ss_seat_id row.

(** The integer [INCR] finds under a key: a missing key counts as 0, a
    value that is no integer has no reading. *)
Definition reading (r : gmap string Entry) (k : string) : option Z :=
  match r !! k with
  | None => Some 0
  | Some e => Redis.integer_of (value e)
  end.

(** The key and the limit the rate limiter uses for a request. *)
Definition rate_key (req : Request) : string :=
  "rate_limit:" +:+ JS.or_else (ip req) "unknown".

Definition rate_limit (env : Env) (req : Request) : option Z :=
  if JS.includes "/booking/" (path req) || JS.includes "/lock" (path req)
     || JS.includes "/confirm" (path req)
  then Some 30
  else JS.parseInt (JS.or_else (RATE_LIMIT_PER_MINUTE env) "60").

Definition too_many_requests : Handled :=
  respond (Json 429 (RetryAfter "Too many requests. Please slow down." 60)).

(** The common shape of [checkHighDemandShow] and [checkSystemLoad]. *)
Definition demand_check (key : string) (threshold seconds : Z) : M bool :=
  try_catch
    (stored <- Redis.get key ;;
     let current := JS.or_else stored "0" in
     let count := JS.parseInt current in
     if JS.gt count (Some threshold) then ret true
     else
       Redis.multi_incr_expire key seconds ;;;
       ret false)
    (ret false).

(** The window of the demand counter of a request, in seconds. *)
Definition demand_window (req : Request) : Z :=
  if JS.truthy (req_show_id req) then 300 else 120.

(** The tables after a confirmation and after a cancellation of booking
    [bid]. *)
Definition confirmed (bid : Z) (d : Db) : Db :=
  Pg.update_seat_status BOOKED bid (Pg.update_booking_status CONFIRMED bid d).

Definition cancelled (bid : Z) (d : Db) : Db :=
  Pg.release_seats bid (Pg.update_booking_status CANCELLED bid d).

(** The seats confirm finds locked for a booking, and those of them whose
    lock is older than the hold window at time [now]. *)
Definition locked_seats (bid : Z) (d : Db) : list ShowSeat :=
  Pg.select_seats_of_booking_with_status bid LOCKED d.

Definition expired_seats_at (now : Z) (seats : list ShowSeat) : list ShowSeat :=
  filter (fun seat => now > lockedAt seat + 10 * 60 * 1000) seats.

(** A row is owned by a booking of the given status. *)
Definition owned_by (d : Db) (row : ShowSeat) (st : booking_status) : Prop :=
  ∃ b, b ∈ bookings d ∧ ss_booking_id row = Some (booking_id b) ∧
       b_status b = st.

(** Seats and bookings agree: an AVAILABLE seat has no owner, a LOCKED seat
    is owned by a PENDING booking, a BOOKED seat by a CONFIRMED one. *)
Definition ownership_ok (d : Db) : Prop :=
  ∀ row, row ∈ show_seats d →
    match ss_status row with
    | AVAILABLE => ss_booking_id row = None
    | LOCKED => owned_by d row PENDING
    | BOOKED => owned_by d row CONFIRMED
    end.

(** The lock keys the sweep deletes: for each expired booking in turn, the
    keys of the seat rows it owns when its turn comes. *)
Fixpoint sweep_keys (d : Db) (expired : list Booking) : list string :=
  match expired with
  | [] => []
  | e :: rest =>
      (((fun row => seat_lock_key (b_show_id e) (ss_seat_id row))
          <$> Pg.select_seats_of_booking (booking_id e) d)
         ++ sweep_keys (swept d e) rest)%list
  end.

(** * Properties *)

(** ** Proof tools *)

(** Reading a field of an updated world. *)
Ltac wsimpl :=
  cbn [committed session redis waitingRoomQueue clock faults raised
       set_committed set_session set_redis set_queue set_faults set_raised
       fst snd] in *.

(** Unfolding the monad and the transaction statements. *)
Ltac munfold :=
  unfold Pg.BEGIN, Pg.COMMIT, Pg.ROLLBACK, Pg.query, Pg.exec in *;
  unfold try_catch, bind, ret, rethrow, get_world, modify in *;
  wsimpl.

(** ** Validation of the seat list *)

(** C8: a lock request whose seat id list is missing or empty is answered
    with the 400 validation error and the world is left exactly as it was:
    no statement was sent to the relational store, no round trip made to
    the lock store, nothing changed in either. *)
Theorem lockSeats_rejects_empty_seat_list (show_id userId : Z) (w : World) :
  lockSeats show_id None userId w =
    (Ok (Json 400 (Message "At least one seat must be selected")), w) ∧
  lockSeats show_id (Some []) userId w =
    (Ok (Json 400 (Message "At least one seat must be selected")), w).
Proof. split; reflexivity. Qed.

(** ** Confirming a booking that holds no locked seat *)

(** C10: when the booking found for the requester is PENDING and no ShowSeat
    row of that booking is LOCKED, confirm answers 400 "No locked seats
    found for this booking", rolls the transaction back and leaves the
    committed tables, the lock store and the queue untouched. *)
Theorem confirmBooking_without_locked_seats
    (bid uid : Z) (w : World) (booking : Booking) (others : list Booking) :
  Pg.select_booking bid uid (committed w) = booking :: others →
  b_status booking = PENDING →
  Pg.select_seats_of_booking_with_status bid LOCKED (committed w) = [] →
  confirmBooking bid uid w =
    (Ok (Json 400 (Message "No locked seats found for this booking")),
     set_session (committed w) w).
Proof.
  intros Hb Hp Hs.
  unfold confirmBooking. munfold.
  rewrite Hb.
  destruct (decide (b_status booking ≠ PENDING)) as [Hne|_]; [congruence|].
  wsimpl. rewrite Hs. reflexivity.
Qed.

Lemma confirmBooking_without_locked_seats_witness :
  let w :=
    Sample.world (Pg.set_show_seats (show_seats Sample.db0) Sample.db_held)
      ∅ 5000 [] in
  confirmBooking 1 7 w =
    (Ok (Json 400 (Message "No locked seats found for this booking")),
     set_session (committed w) w).
Proof.
  intros w.
  apply (confirmBooking_without_locked_seats 1 7 w
           (mkBooking 1 7 1 PENDING 1000) []); reflexivity.
Defined.

(** ** Confirming after the hold window *)

(** C2, evaluated on the code: booking 1 (seats 1 and 2, locked at t = 1000)
    is confirmed by its owner at t = 700000, long after the ten minute
    window.  The answer is 410 "Booking has been cancelled" and the lock
    entries of both seats are deleted, but the transaction ends in ROLLBACK:
    the committed tables are unchanged, booking 1 is still PENDING and its
    seats are still LOCKED.  The sweeper run on the same world commits
    booking 1 as CANCELLED with seats 1 and 2 AVAILABLE. *)
Theorem confirmBooking_expired_is_rolled_back :
  let w := Sample.world Sample.db_held Sample.locks_held 700000 [] in
  (∃ w',
     confirmBooking 1 7 w =
       (Ok (Json 410
          (ExpiredSeats "Seat locks have expired. Booking has been cancelled."
             [1; 2])), w') ∧
     committed w' = Sample.db_held ∧
     mkBooking 1 7 1 PENDING 1000 ∈ bookings (committed w') ∧
     mkShowSeat 1 1 LOCKED (Some 1) (Some 1000) ∈ show_seats (committed w') ∧
     mkShowSeat 1 2 LOCKED (Some 1) (Some 1000) ∈ show_seats (committed w') ∧
     redis w' !! "seat_lock:1:1" = None ∧
     redis w' !! "seat_lock:1:2" = None) ∧
  (∃ w'',
     cleanupExpiredBookings w = (Ok tt, w'') ∧
     mkBooking 1 7 1 CANCELLED 1000 ∈ bookings (committed w'') ∧
     mkShowSeat 1 1 AVAILABLE None None ∈ show_seats (committed w'') ∧
     mkShowSeat 1 2 AVAILABLE None None ∈ show_seats (committed w'')).
Proof.
  split.
  - eexists. split; [vm_compute; reflexivity|].
    split; [reflexivity|].
    repeat split; try (vm_compute; reflexivity);
      apply list_elem_of_In; cbn; tauto.
  - eexists. split; [vm_compute; reflexivity|].
    repeat split; apply list_elem_of_In; cbn; tauto.
Qed.

(** ** Round trips leave the relational store alone *)

Lemma same_db_refl w : same_db w w.
Proof. by unfold same_db. Qed.

Lemma same_db_trans w1 w2 w3 : same_db w1 w2 → same_db w2 w3 → same_db w1 w3.
Proof. unfold same_db. intros (?&?&?) (?&?&?). split_and!; congruence. Qed.

Lemma round_trip_same_db {A} (op : M A) w :
  (∀ w0, same_db w0 (op w0).2) → same_db w (round_trip op w).2.
Proof.
  intros Hop. unfold round_trip.
  destruct (faults w) as [|[] fs]; [apply Hop|by unfold same_db|].
  eapply same_db_trans; [|apply Hop]. by unfold same_db.
Qed.

Lemma round_trip_no_fault {A} (op : M A) w :
  faults w = [] → round_trip op w = op w.
Proof. intros H. unfold round_trip. by rewrite H. Qed.

Lemma Redis_get_same_db k w : same_db w (Redis.get k w).2.
Proof. apply round_trip_same_db. intros. apply same_db_refl. Qed.

Lemma Redis_set_ex_nx_same_db k v s w : same_db w (Redis.set_ex_nx k v s w).2.
Proof.
  apply round_trip_same_db. intros w0.
  destruct (redis w0 !! k); by unfold same_db.
Qed.

Lemma Redis_setex_same_db k s v w : same_db w (Redis.setex k s v w).2.
Proof. apply round_trip_same_db. intros. by unfold same_db. Qed.

Lemma Redis_del_same_db ks w : same_db w (Redis.del ks w).2.
Proof. apply round_trip_same_db. intros. by unfold same_db. Qed.

Lemma release_locks_same_db ks w : same_db w (release_locks ks w).2.
Proof.
  revert w. induction ks as [|k ks IH]; intros w; [apply same_db_refl|].
  cbn [release_locks]. unfold bind.
  pose proof (Redis_del_same_db [k] w) as Hd.
  destruct (Redis.del [k] w) as [[[]|] w1]; cbn [snd] in *; [|done].
  eapply same_db_trans; [exact Hd|apply IH].
Qed.

Lemma release_seat_locks_same_db sid rows w :
  same_db w (release_seat_locks sid rows w).2.
Proof.
  revert w. induction rows as [|r rows IH]; intros w; [apply same_db_refl|].
  cbn [release_seat_locks]. unfold bind.
  pose proof (Redis_del_same_db [seat_lock_key sid (ss_seat_id r)] w) as Hd.
  destruct (Redis.del _ w) as [[[]|] w1]; cbn [snd] in *; [|done].
  eapply same_db_trans; [exact Hd|apply IH].
Qed.

(** ** The acquisition loop *)

(** Whatever the lock store does, the loop returns every seat it was given
    (after those already locked), or has rolled the transaction back and
    built the 409 response, or has thrown; it never touches the committed
    tables. *)
Lemma acquire_locks_outcome sid uid t all todo locked keys w :
  let '(r, w') := acquire_locks sid uid t all todo locked keys w in
  committed w' = committed w ∧ clock w' = clock w ∧
  match r with
  | Ok (inl l) => l = (locked ++ todo)%list ∧ session w' = session w
  | Ok (inr resp) =>
      (∃ failed,
         resp = Json 409
           (FailedSeats "Some seats are no longer available" failed)) ∧
      session w' = committed w
  | Thrown => session w' = session w
  end.
Proof.
  revert locked keys w. induction todo as [|s todo IH]; intros locked keys w.
  - cbn. rewrite app_nil_r. done.
  - cbn [acquire_locks]. unfold bind at 1.
    pose proof (Redis_set_ex_nx_same_db (seat_lock_key sid s) (pretty uid) t w)
      as (Hc & Hs & Hk).
    destruct (Redis.set_ex_nx _ _ _ w) as [[[]|] w1]; cbn [snd] in *.
    + specialize (IH (locked ++ [s])%list
                     (keys ++ [seat_lock_key sid s])%list w1).
      destruct (acquire_locks _ _ _ _ _ _ _ w1) as [[[l|resp]|] w2].
      * destruct IH as (?&?&?&?). rewrite <- app_assoc in *.
        cbn [app] in *. split_and!; congruence.
      * destruct IH as (?&?&?&?). split_and!; congruence.
      * destruct IH as (?&?&?). split_and!; congruence.
    + unfold bind.
      pose proof (release_locks_same_db keys w1) as (Hc' & Hs' & Hk').
      destruct (release_locks keys w1) as [[[]|] w2]; cbn [snd] in *.
      * munfold. split_and!; [congruence..|by eexists|congruence].
      * split_and!; congruence.
    + done.
Qed.

Lemma set_redis_set_redis r r' w : set_redis r (set_redis r' w) = set_redis r w.
Proof. reflexivity. Qed.

Lemma lookup_foldl_delete (ks : list string) (r : gmap string Entry) key :
  foldl (fun r k => delete k r) r ks !! key =
    if decide (key ∈ ks) then None else r !! key.
Proof.
  revert r. induction ks as [|k ks IH]; intros r; cbn [foldl].
  - by rewrite decide_False by apply not_elem_of_nil.
  - rewrite IH. destruct (decide (key ∈ ks)) as [Hin|Hout].
    + by rewrite decide_True by (by right).
    + destruct (decide (key = k)) as [->|Hne].
      * rewrite decide_True by left. apply lookup_delete_eq.
      * rewrite decide_False by (rewrite elem_of_cons; tauto).
        by apply lookup_delete_ne.
Qed.

(** Without a fault the release loop deletes every key it is given. *)
Lemma release_locks_no_fault ks w :
  faults w = [] →
  release_locks ks w =
    (Ok tt, set_redis (foldl (fun r k => delete k r) (redis w) ks) w).
Proof.
  revert w. induction ks as [|k ks IH]; intros w Hf.
  - by destruct w.
  - cbn [release_locks foldl]. unfold bind, Redis.del.
    rewrite round_trip_no_fault by done. unfold modify.
    rewrite IH by done. reflexivity.
Qed.

(** Without a fault, a failed acquisition leaves the lock store as it was
    before the first key was set: [r0] is that store, [keys] are the keys
    set so far. *)
Lemma acquire_locks_no_fault sid uid t all todo locked keys w
    (r0 : gmap string Entry) :
  faults w = [] →
  (∀ key, key ∉ keys → redis w !! key = r0 !! key) →
  (∀ key, key ∈ keys → r0 !! key = None) →
  let '(r, w') := acquire_locks sid uid t all todo locked keys w in
  faults w' = [] ∧ waitingRoomQueue w' = waitingRoomQueue w ∧
  raised w' = raised w ∧
  match r with
  | Ok (inl _) => True
  | Ok (inr _) => redis w' = r0
  | Thrown => False
  end ∧
  (Exists (fun s => is_Some (redis w !! seat_lock_key sid s)) todo →
   ∃ resp, r = Ok (inr resp)).
Proof.
  revert locked keys w. induction todo as [|s todo IH];
    intros locked keys w Hf Hout Hin.
  - cbn. split_and!; try done. by intros ?%Exists_nil.
  - cbn [acquire_locks]. unfold bind at 1, Redis.set_ex_nx.
    rewrite round_trip_no_fault by done.
    destruct (redis w !! seat_lock_key sid s) as [e|] eqn:Hk.
    + unfold bind. rewrite release_locks_no_fault by done. munfold.
      split_and!; try done; [|by eexists].
      apply map_eq. intros key. rewrite lookup_foldl_delete.
      destruct (decide (key ∈ keys)); [symmetry; auto|auto].
    + specialize (IH (locked ++ [s])%list
                     (keys ++ [seat_lock_key sid s])%list
                     (set_redis (<[seat_lock_key sid s :=
                                    mkEntry (pretty uid) (Some t)]> (redis w)) w)).
      destruct (acquire_locks _ _ _ _ _ _ _ _) as [r w'].
      destruct IH as (Hf' & Hq & Hr & Hres & Hheld); [done|..].
      * intros key Hn. wsimpl. rewrite elem_of_app, list_elem_of_singleton in Hn.
        rewrite lookup_insert_ne by (intros Heq; subst key; tauto).
        apply Hout. tauto.
      * intros key [Hi| ->%list_elem_of_singleton]%elem_of_app; [by auto|].
        destruct (decide (seat_lock_key sid s ∈ keys)); [by auto|].
        rewrite <- Hout by done. done.
      * split_and!; try done. intros Hex.
        apply Exists_cons in Hex as [Hex|Hex].
        { rewrite Hk in Hex. by destruct Hex. }
        apply Hheld. wsimpl. eapply Exists_impl; [exact Hex|].
        intros s' Hs'. cbn beta in *. rewrite lookup_insert_is_Some'. tauto.
Qed.

(** ** The bulk upsert of [lockSeats] *)

Lemma upsert_locked_row_new sid bid now rows seat :
  mkShowSeat sid seat LOCKED (Some bid) (Some now)
    ∈ Pg.upsert_locked_row sid bid now rows seat.
Proof.
  unfold Pg.upsert_locked_row.
  destruct (decide (Exists _ rows)) as [Hex|_].
  - apply Exists_exists in Hex as (r & Hr & Hs & Hi).
    apply list_elem_of_fmap. exists r. split; [|done].
    rewrite decide_True by done. by rewrite Hs, Hi.
  - apply elem_of_app. right. by left.
Qed.

Lemma upsert_locked_row_keeps sid bid now rows seat x :
  mkShowSeat sid x LOCKED (Some bid) (Some now) ∈ rows →
  mkShowSeat sid x LOCKED (Some bid) (Some now)
    ∈ Pg.upsert_locked_row sid bid now rows seat.
Proof.
  intros Hin. unfold Pg.upsert_locked_row.
  destruct (decide (Exists _ rows)) as [_|_].
  - apply list_elem_of_fmap. eexists. split; [|exact Hin].
    case_decide as Hc; [|done]. cbn in *. destruct Hc as [_ ->]. done.
  - apply elem_of_app. by left.
Qed.

Lemma upsert_locked_all sid bid now ids rows s :
  s ∈ ids ∨ mkShowSeat sid s LOCKED (Some bid) (Some now) ∈ rows →
  mkShowSeat sid s LOCKED (Some bid) (Some now)
    ∈ foldl (Pg.upsert_locked_row sid bid now) rows ids.
Proof.
  revert rows. induction ids as [|i ids IH]; intros rows [Hin|Hin];
    cbn [foldl].
  - by apply elem_of_nil in Hin.
  - done.
  - apply elem_of_cons in Hin as [->|Hin].
    + apply IH. right. apply upsert_locked_row_new.
    + apply IH. by left.
  - apply IH. right. by apply upsert_locked_row_keeps.
Qed.

(** ** [lockSeats], branch by branch *)

Lemma length_zero_nil {A} (l : list A) : length l = 0%nat ↔ l = [].
Proof. destruct l; cbn; split; (done || lia). Qed.

Lemma length_pos_nil {A} (l : list A) : (0 < length l)%nat ↔ l ≠ [].
Proof. destruct l; cbn; split; (done || lia). Qed.

Section LockSeats.

Variables (sid uid : Z) (ids : list Z) (w : World).

Lemma lockSeats_cases :
  ids ≠ [] →
  let w0 := set_session (committed w) w in
  let rows := Pg.select_show_seats_for_update sid ids (committed w) in
  let unavailable := filter (fun row => ss_status row ≠ AVAILABLE) rows in
  let newSeats : list Z :=
    filter (fun seatId => seatId ∉ ss_seat_id <$> rows) ids in
  let invalid : list Z :=
    filter
      (fun id => id ∉ seat_id <$> Pg.select_seats newSeats (committed w))
      newSeats in
  let all : list Z := ((ss_seat_id <$> rows) ++ newSeats)%list in
  lockSeats sid (Some ids) uid w =
    if decide (Pg.select_show sid (committed w) = []) then
      (Ok (Json 404 (Message "Show not found")), w0)
    else if decide (unavailable = []) then
      if decide (invalid = []) then
        match acquire_locks sid uid 600 all all [] [] w0 with
        | (Ok (inl locked), w1) =>
            (Ok (Json 200
               (SeatsLocked "Seats locked successfully"
                  (bookings_seq (session w1))
                  (seat_detail <$> Pg.select_seats locked (granted sid uid locked w1))
                  600)),
             set_committed (granted sid uid locked w1)
               (set_session (granted sid uid locked w1) w1))
        | (Ok (inr response), w1) => (Ok response, w1)
        | (Thrown, w1) =>
            (Ok (Json 500 (Message "Failed to lock seats")),
             set_session (committed w1) w1)
        end
      else (Ok (Json 400 (InvalidSeats "Invalid seat IDs" invalid)), w0)
    else
      (Ok (Json 409
         (FailedSeats "Some seats are no longer available"
            (ss_seat_id <$> unavailable))), w0).
Proof.
  intros Hne w0 rows unavailable newSeats invalid all. unfold lockSeats.
  destruct ids as [|i0 ids0]; [done|].
  clear Hne. unfold when. munfold.
  destruct (decide (length (Pg.select_show sid (committed w)) = 0%nat))
    as [H1|H1]; destruct (decide (Pg.select_show sid (committed w) = []))
    as [H1'|H1']; try (exfalso; apply length_zero_nil in H1; done);
    try (exfalso; apply length_zero_nil in H1'; done); [done|].
  wsimpl. fold rows unavailable.
  destruct (decide (0 < length unavailable)%nat) as [H2|H2];
    destruct (decide (unavailable = [])) as [H2'|H2'];
    try (exfalso; apply length_pos_nil in H2; done);
    try (exfalso; apply length_pos_nil in H2'; done); [done|].
  wsimpl. fold newSeats.
  destruct (decide (0 < length newSeats)%nat) as [H3|H3]; wsimpl.
  - fold invalid.
    destruct (decide (0 < length invalid)%nat) as [H4|H4];
      destruct (decide (invalid = [])) as [H4'|H4'];
      try (exfalso; apply length_pos_nil in H4; done);
      try (exfalso; apply length_pos_nil in H4'; done); [done|].
    wsimpl. fold all w0.
    destruct (acquire_locks sid uid _ all all [] [] w0) as [[[l|resp]|] w1];
      wsimpl; [|done..].
    unfold granted. destruct (bool_decide (0 < length l)%nat); wsimpl; done.
  - assert (invalid = []) as Hinv.
    { unfold invalid. destruct newSeats; [done|cbn in H3; lia]. }
    rewrite decide_True by done.
    fold all w0.
    destruct (acquire_locks sid uid _ all all [] [] w0) as [[[l|resp]|] w1];
      wsimpl; [|done..].
    unfold granted. destruct (bool_decide (0 < length l)%nat); wsimpl; done.
Qed.

End LockSeats.

(** Every requested seat is among the seats the loop visits. *)
Lemma requested_seat_is_visited (ids : list Z) (rows : list ShowSeat) s :
  s ∈ ids →
  s ∈ ((ss_seat_id <$> rows) ++
       filter (fun seatId => seatId ∉ ss_seat_id <$> rows) ids)%list.
Proof.
  intros Hin. apply elem_of_app.
  destruct (decide (s ∈ ss_seat_id <$> rows)); [by left|right].
  by apply list_elem_of_filter.
Qed.

(** A seat without a ShowSeat row for the show is accepted only if the
    seats table has it. *)
Lemma no_invalid_seat sid (ids : list Z) (d : Db) :
  (∀ s, s ∈ ids →
     (∃ row, row ∈ show_seats d ∧ ss_show_id row = sid ∧ ss_seat_id row = s) ∨
     (∃ seat, seat ∈ seats d ∧ seat_id seat = s)) →
  let rows := Pg.select_show_seats_for_update sid ids d in
  let newSeats := filter (fun seatId => seatId ∉ ss_seat_id <$> rows) ids in
  filter (fun id => id ∉ seat_id <$> Pg.select_seats newSeats d) newSeats = [].
Proof.
  intros Hknown rows newSeats.
  destruct (filter _ newSeats) as [|x l] eqn:Hf; [done|exfalso].
  assert (x ∈ filter (fun id => id ∉ seat_id <$> Pg.select_seats newSeats d)
                newSeats) as Hx by (rewrite Hf; left).
  apply list_elem_of_filter in Hx as [Hnv Hx].
  pose proof Hx as Hx'. apply list_elem_of_filter in Hx' as [Hnr Hid].
  destruct (Hknown x Hid) as [(row & Hrow & Hs & Hi)|(seat & Hseat & Hi)].
  - apply Hnr. apply list_elem_of_fmap. exists row. split; [done|].
    apply list_elem_of_filter. by rewrite Hi.
  - apply Hnv. apply list_elem_of_fmap. exists seat. split; [done|].
    apply list_elem_of_filter. by rewrite Hi.
Qed.

Lemma select_show_seats_no_ids sid d :
  Pg.select_show_seats_for_update sid [] d = [].
Proof.
  unfold Pg.select_show_seats_for_update.
  induction (show_seats d) as [|r l IH]; [done|].
  rewrite filter_cons_False; [done|].
  intros [_ Hin]. by apply elem_of_nil in Hin.
Qed.

(** ** Atomic grant *)

(** The lock store after a [SET ... NX], whatever the fault plan. *)
Lemma Redis_set_ex_nx_store k v t w :
  let '(r, w') := Redis.set_ex_nx k v t w in
  match r with
  | Ok true =>
      redis w !! k = None ∧ redis w' = <[k := mkEntry v (Some t)]> (redis w)
  | Ok false => is_Some (redis w !! k) ∧ redis w' = redis w
  | Thrown => redis w' = redis w
  end.
Proof.
  unfold Redis.set_ex_nx, round_trip, throw.
  destruct (faults w) as [|[] fs]; wsimpl; [|done|];
    (destruct (redis w !! k) eqn:Hk; wsimpl; [by eauto|done]).
Qed.

(** The release loop of [lockSeats], whatever the fault plan: all its keys
    are deleted if it returns, some of them if it throws. *)
Lemma release_locks_store ks w :
  let '(r, w') := release_locks ks w in
  match r with
  | Ok _ => redis w' = foldl (fun r k => delete k r) (redis w) ks
  | Thrown =>
      ∀ key, redis w' !! key = redis w !! key ∨
             redis w' !! key = None ∧ key ∈ ks
  end.
Proof.
  revert w. induction ks as [|k ks IH]; intros w; [done|].
  cbn [release_locks foldl]. unfold bind, Redis.del, round_trip, throw, modify.
  assert (∀ w0 : World, redis w0 = redis w →
    let '(r, w') := release_locks ks (set_redis (delete k (redis w0)) w0) in
    match r with
    | Ok _ =>
        redis w' = foldl (fun r k => delete k r) (delete k (redis w)) ks
    | Thrown =>
        ∀ key, redis w' !! key = redis w !! key ∨
               redis w' !! key = None ∧ key ∈ k :: ks
    end) as Hstep.
  { intros w0 Hr. specialize (IH (set_redis (delete k (redis w0)) w0)).
    destruct (release_locks ks _) as [[[]|] w2]; wsimpl.
    - by rewrite IH, Hr.
    - intros key. destruct (IH key) as [Hsame|[Hnone Hin]].
      + rewrite Hsame, Hr. destruct (decide (key = k)) as [->|Hne].
        * right. split; [apply lookup_delete_eq|left].
        * left. by apply lookup_delete_ne.
      + right. split; [done|by right]. }
  destruct (faults w) as [|[] fs]; cbn [foldr].
  - by apply Hstep.
  - wsimpl. intros key. by left.
  - by apply (Hstep (set_faults fs w)).
Qed.

(** The acquisition loop and the lock store, whatever the fault plan.  [r0]
    is the store before the first key was set, [keys] are the keys set so
    far and [P] holds of every key the loop may set.  A loop that ends with
    the conflict has put the store back as it was; a loop that throws
    leaves each key either as it was or set by this call. *)
Lemma acquire_locks_store sid uid t all todo locked keys w
    (r0 : gmap string Entry) (P : string → Prop) :
  (∀ key, key ∉ keys → redis w !! key = r0 !! key) →
  (∀ key, key ∈ keys →
     r0 !! key = None ∧
     redis w !! key = Some (mkEntry (pretty uid) (Some t)) ∧ P key) →
  (∀ s, s ∈ todo → P (seat_lock_key sid s)) →
  let '(r, w') := acquire_locks sid uid t all todo locked keys w in
  match r with
  | Ok (inl _) => True
  | Ok (inr _) => redis w' = r0
  | Thrown =>
      ∀ key,
        redis w' !! key = r0 !! key ∨
        r0 !! key = None ∧
        redis w' !! key = Some (mkEntry (pretty uid) (Some t)) ∧ P key
  end.
Proof.
  revert locked keys w. induction todo as [|s todo IH];
    intros locked keys w Hout Hin HP; [done|].
  cbn [acquire_locks]. unfold bind at 1.
  pose proof (Redis_set_ex_nx_store (seat_lock_key sid s) (pretty uid) t w)
    as Hset.
  destruct (Redis.set_ex_nx _ _ _ w) as [[[]|] w1].
  - destruct Hset as [Hfree Hr1].
    specialize (IH (locked ++ [s])%list (keys ++ [seat_lock_key sid s])%list
                  w1).
    destruct (acquire_locks _ _ _ _ _ _ _ w1) as [r w']. apply IH.
    + intros key Hn. rewrite elem_of_app, list_elem_of_singleton in Hn.
      rewrite Hr1, lookup_insert_ne by (intros Heq; subst key; tauto).
      apply Hout. tauto.
    + intros key Hk. rewrite Hr1.
      destruct (decide (key = seat_lock_key sid s)) as [->|Hne].
      * rewrite lookup_insert_eq. split_and!; [|done|apply HP; left].
        destruct (decide (seat_lock_key sid s ∈ keys)) as [Hi|Hi];
          [by apply Hin|].
        by rewrite <- Hout.
      * rewrite lookup_insert_ne by done. apply Hin.
        apply elem_of_app in Hk as [Hk|Hk]; [done|].
        by apply list_elem_of_singleton in Hk.
    + intros s' Hs'. apply HP. by right.
  - destruct Hset as [_ Hr1]. unfold bind.
    pose proof (release_locks_store keys w1) as Hrel.
    destruct (release_locks keys w1) as [[[]|] w2]; munfold.
    + rewrite Hrel, Hr1. apply map_eq. intros key.
      rewrite lookup_foldl_delete.
      destruct (decide (key ∈ keys)) as [Hk|Hk];
        [symmetry; by apply Hin|by apply Hout].
    + intros key. rewrite Hr1 in Hrel.
      destruct (Hrel key) as [Hsame|[Hnone Hk]].
      * rewrite Hsame. destruct (decide (key ∈ keys)) as [Hk|Hk].
        -- right. by apply Hin.
        -- left. by apply Hout.
      * left. rewrite Hnone. symmetry. by apply Hin.
  - intros key. rewrite Hset. destruct (decide (key ∈ keys)) as [Hk|Hk].
    + right. by apply Hin.
    + left. by apply Hout.
Qed.

(** C1, evaluated on the code.  Seats 1 and 2 of show 1 are AVAILABLE and
    their lock keys are free; user 7 asks for both.  The lock store answers
    the first [SET ... NX] and fails on the second.  The handler's catch
    block rolls the transaction back and answers 500, and it does not
    delete the key it has set: no Booking row and no ShowSeat change is
    committed, but the lock entry of seat 1 stays, held in the name of
    user 7.  Seat 1 is AVAILABLE in the tables and still user 8, asking for
    it right afterwards with the store answering, is refused with the
    conflict on seat 1.  The sibling path does release: when the second
    [SET ... NX] comes back empty because another node holds seat 2, the
    key of seat 1 is deleted again and the world is as before the call. *)
Theorem lockSeats_store_error_keeps_acquired_lock :
  (let w := Sample.world Sample.db0 ∅ 1000 [false; true] in
   ∃ w',
     lockSeats 1 (Some [1; 2]) 7 w =
       (Ok (Json 500 (Message "Failed to lock seats")), w') ∧
     committed w' = committed w ∧
     redis w !! "seat_lock:1:1" = None ∧
     redis w' !! "seat_lock:1:1" = Some (mkEntry "7" (Some 600)) ∧
     mkShowSeat 1 1 AVAILABLE None None ∈ show_seats (committed w') ∧
     faults w' = [] ∧
     ∃ w'',
       lockSeats 1 (Some [1]) 8 w' =
         (Ok (Json 409
            (FailedSeats "Some seats are no longer available" [1])), w'') ∧
       committed w'' = committed w) ∧
  (let held : gmap string Entry :=
     <["seat_lock:1:2" := mkEntry "8" (Some 600)]> ∅ in
   let w := Sample.world Sample.db0 held 1000 [] in
   lockSeats 1 (Some [1; 2]) 7 w =
     (Ok (Json 409
        (FailedSeats "Some seats are no longer available" [2])), w)).
Proof.
  split.
  - intros w. eexists. split_and!; try (vm_compute; reflexivity).
    + apply list_elem_of_In. vm_compute. tauto.
    + eexists. split; vm_compute; reflexivity.
  - vm_compute. reflexivity.
Qed.

(** The cross-node race on a concrete world: every row is AVAILABLE, but
    another node already holds the lock key of seat 2.  The key of seat 1
    is set and then deleted again, the answer is the conflict on seat 2, and
    neither store has changed. *)
Example lockSeats_loses_the_race :
  let held : gmap string Entry :=
    <["seat_lock:1:2" := mkEntry "8" (Some 600)]> ∅ in
  let w := Sample.world Sample.db0 held 1000 [] in
  lockSeats 1 (Some [1; 2]) 7 w =
    (Ok (Json 409
       (FailedSeats "Some seats are no longer available" [2])), w).
Proof. vm_compute. reflexivity. Qed.

(** The scenario of the design document: A locks seats 1 and 2, C is
    refused seats 2 and 3 because of seat 2, A confirms in time, C is
    refused again and then gets seat 3 alone. *)
Example reservation_scenario :
  let w0 := Sample.world Sample.db0 ∅ 1000 [] in
  let '(r1, w1) := lockSeats 1 (Some [1; 2]) 7 w0 in
  let '(r2, w2) := lockSeats 1 (Some [2; 3]) 8 w1 in
  let '(r3, w3) := confirmBooking 1 7 w2 in
  let '(r4, w4) := lockSeats 1 (Some [2; 3]) 8 w3 in
  let '(r5, w5) := lockSeats 1 (Some [3]) 8 w4 in
  (fun r => match r with Ok resp => status resp | Thrown => 0 end)
    <$> [r1; r2; r3; r4; r5] = [200; 409; 200; 409; 200] ∧
  r2 = Ok (Json 409
         (FailedSeats "Some seats are no longer available" [2])) ∧
  committed w2 = committed w1 ∧
  (b_status <$> bookings (committed w5)) = [CONFIRMED; PENDING] ∧
  (ss_status <$> show_seats (committed w5)) = [BOOKED; BOOKED; LOCKED].
Proof. vm_compute. repeat split. Qed.

(** ** Seats that are not in the seats table *)

(** C7 as the code has it: for a request whose show id and seat ids are
    values of the integer id columns, on an existing show, when every
    targeted ShowSeat row is AVAILABLE, a requested seat id that has no
    ShowSeat row for the show and no row in the seats table makes the lock
    roll back and answer 400 with that id among [invalid_seats]; the
    committed tables, the lock store and the queue are untouched, so no seat
    is granted. *)
Theorem lockSeats_rejects_unknown_seat
    (sid uid : Z) (ids : list Z) (w : World) (x : Z) :
  int4 sid →
  Forall int4 ids →
  Pg.select_show sid (committed w) ≠ [] →
  filter (fun row => ss_status row ≠ AVAILABLE)
    (Pg.select_show_seats_for_update sid ids (committed w)) = [] →
  x ∈ ids →
  (∀ row, row ∈ show_seats (committed w) →
     ¬ (ss_show_id row = sid ∧ ss_seat_id row = x)) →
  (∀ seat, seat ∈ seats (committed w) → seat_id seat ≠ x) →
  ∃ invalid,
    lockSeats sid (Some ids) uid w =
      (Ok (Json 400 (InvalidSeats "Invalid seat IDs" invalid)),
       set_session (committed w) w) ∧
    x ∈ invalid.
Proof.
  intros _ _ Hshow Hav Hx Hrow Hseat.
  assert (ids ≠ []) as Hne by (intros ->; by apply elem_of_nil in Hx).
  rewrite lockSeats_cases by done.
  rewrite decide_False by done. rewrite decide_True by done.
  set (rows := Pg.select_show_seats_for_update sid ids (committed w)).
  set (newSeats := filter (fun seatId => seatId ∉ ss_seat_id <$> rows) ids).
  set (invalid := filter _ newSeats).
  assert (x ∈ invalid) as Hinv.
  { apply list_elem_of_filter. split.
    - intros (seat & Hi & Hin%list_elem_of_filter)%list_elem_of_fmap.
      destruct Hin as [_ Hin]. by apply (Hseat seat).
    - apply list_elem_of_filter. split; [|done].
      intros (row & Hi & Hin%list_elem_of_filter)%list_elem_of_fmap.
      destruct Hin as [[Hs _] Hin]. by apply (Hrow row). }
  rewrite decide_False
    by (intros E; rewrite E in Hinv; by apply elem_of_nil in Hinv).
  by exists invalid.
Qed.

Lemma lockSeats_rejects_unknown_seat_witness :
  let w := Sample.world Sample.db0 ∅ 1000 [] in
  ∃ invalid,
    lockSeats 1 (Some [1; 99]) 7 w =
      (Ok (Json 400 (InvalidSeats "Invalid seat IDs" invalid)),
       set_session (committed w) w) ∧
    99 ∈ invalid.
Proof.
  intros w.
  apply (lockSeats_rejects_unknown_seat 1 7 [1; 99] w 99).
  - unfold int4. lia.
  - repeat constructor; unfold int4; lia.
  - vm_compute. discriminate.
  - vm_compute. reflexivity.
  - apply list_elem_of_In. cbn. tauto.
  - intros row Hin. apply list_elem_of_In in Hin. cbn in Hin.
    intros [_ H99].
    destruct Hin as [<-|[<-|[<-|[]]]]; cbn in H99; discriminate.
  - intros seat Hin. apply list_elem_of_In in Hin. cbn in Hin.
    destruct Hin as [<-|[<-|[<-|[<-|[]]]]]; cbn; discriminate.
Defined.

(** C7 as the specification words it fails twice on the code.  Seat 9 belongs to
    venue 2, show 1 plays in venue 1 and has no ShowSeat row for seat 9, and
    still a lock of seat 9 for show 1 is granted: the check looks the id up
    in the whole seats table.  And when a request names the booked seat 2
    next to the unknown seat 99, the conflict on seat 2 is answered first
    and seat 99 is not reported at all. *)
Lemma lockSeats_unknown_seat_counterexample :
  (let w := Sample.world Sample.db0 ∅ 1000 [] in
   (∀ row, row ∈ show_seats (committed w) →
      ¬ (ss_show_id row = 1 ∧ ss_seat_id row = 9)) ∧
   (∀ sh seat, sh ∈ shows (committed w) → show_id sh = 1 →
      seat ∈ seats (committed w) → seat_id seat = 9 →
      venue_id seat ≠ show_venue_id sh) ∧
   ∃ w',
     lockSeats 1 (Some [9]) 7 w =
       (Ok (Json 200
          (SeatsLocked "Seats locked successfully" 1 [mkSeatDetail 9 "Z" 1]
             600)), w') ∧
     mkShowSeat 1 9 LOCKED (Some 1) (Some 1000) ∈ show_seats (committed w')) ∧
  (let w := Sample.world Sample.db_confirmed ∅ 1000 [] in
   (∀ row, row ∈ show_seats (committed w) →
      ¬ (ss_show_id row = 1 ∧ ss_seat_id row = 99)) ∧
   (∀ seat, seat ∈ seats (committed w) → seat_id seat ≠ 99) ∧
   lockSeats 1 (Some [2; 99]) 7 w =
     (Ok (Json 409
        (FailedSeats "Some seats are no longer available" [2])),
      w)).
Proof.
  split; intros w.
  - split_and!.
    + intros row Hin. apply list_elem_of_In in Hin. cbn in Hin.
      intros [_ H9].
      destruct Hin as [<-|[<-|[<-|[]]]]; cbn in H9; discriminate.
    + intros sh seat Hsh _ Hin Hid.
      apply list_elem_of_In in Hsh, Hin. cbn in Hsh, Hin.
      destruct Hsh as [<-|[]].
      destruct Hin as [<-|[<-|[<-|[<-|[]]]]]; cbn in *; discriminate.
    + eexists. split; [vm_compute; reflexivity|].
      apply list_elem_of_In. cbn. tauto.
  - split_and!.
    + intros row Hin. apply list_elem_of_In in Hin. cbn in Hin.
      intros [_ H99].
      destruct Hin as [<-|[<-|[<-|[]]]]; cbn in H99; discriminate.
    + intros seat Hin. apply list_elem_of_In in Hin. cbn in Hin.
      destruct Hin as [<-|[<-|[<-|[<-|[]]]]]; cbn; discriminate.
    + vm_compute. reflexivity.
Qed.

(** ** What each operation commits *)

Lemma when_del_same_db (c : bool) ks w :
  same_db w (when c (Redis.del ks) w).2.
Proof. destruct c; [apply Redis_del_same_db|apply same_db_refl]. Qed.

Lemma confirmBooking_effect bid uid w :
  let '(r, w') := confirmBooking bid uid w in
  ∃ resp, r = Ok resp ∧
    (committed w' = committed w ∨
     ∃ booking others,
       Pg.select_booking bid uid (committed w) = booking :: others ∧
       b_status booking = PENDING ∧
       status resp = 200 ∧
       committed w' =
         Pg.update_seat_status BOOKED bid
           (Pg.update_booking_status CONFIRMED bid (committed w))).
Proof.
  unfold confirmBooking. munfold.
  destruct (Pg.select_booking bid uid (committed w)) as [|booking others]
    eqn:Hb; wsimpl; [by eauto|].
  destruct (decide (b_status booking ≠ PENDING)) as [Hp|Hp]; wsimpl;
    [by eauto|].
  apply dec_stable in Hp.
  destruct (decide (length _ = 0%nat)) as [Hl|Hl]; wsimpl; [by eauto|].
  destruct (decide (0 < length _)%nat) as [He|He]; wsimpl.
  - match goal with |- context [when ?c (Redis.del ?ks) ?w1] =>
      pose proof (when_del_same_db c ks w1) as (Hc & Hs & Hk);
      destruct (when c (Redis.del ks) w1) as [[[]|] w2]
    end; wsimpl; eexists; (split; [done|]); left; congruence.
  - match goal with |- context [when ?c (Redis.del ?ks) ?w1] =>
      pose proof (when_del_same_db c ks w1) as (Hc & Hs & Hk);
      destruct (when c (Redis.del ks) w1) as [[[]|] w2]
    end; wsimpl; eexists; (split; [done|]).
    + right. exists booking, others. split_and!; [done..|congruence].
    + left. congruence.
Qed.

(** Whenever confirm answers 410, nothing of what it did to the tables is
    committed. *)
Lemma confirmBooking_expired_commits_nothing bid uid w resp w' :
  confirmBooking bid uid w = (Ok resp, w') → status resp = 410 →
  committed w' = committed w.
Proof.
  intros Hrun H410. pose proof (confirmBooking_effect bid uid w) as He.
  rewrite Hrun in He.
  destruct He as (resp' & [= <-] & [->|(_ & _ & _ & _ & H200 & _)]); [done|].
  congruence.
Qed.

Lemma cancelBooking_effect bid uid w :
  let '(r, w') := cancelBooking bid uid w in
  ∃ resp, r = Ok resp ∧
    (committed w' = committed w ∨
     ∃ booking others,
       Pg.select_booking bid uid (committed w) = booking :: others ∧
       b_status booking ≠ CANCELLED ∧
       committed w' =
         Pg.release_seats bid
           (Pg.update_booking_status CANCELLED bid (committed w))).
Proof.
  unfold cancelBooking. munfold.
  destruct (Pg.select_booking bid uid (committed w)) as [|booking others]
    eqn:Hb; wsimpl; [by eauto|].
  destruct (decide (b_status booking = CANCELLED)) as [Hp|Hp]; wsimpl;
    [by eauto|].
  match goal with |- context [when ?c (Redis.del ?ks) ?w1] =>
    pose proof (when_del_same_db c ks w1) as (Hc & Hs & Hk);
    destruct (when c (Redis.del ks) w1) as [[[]|] w2]
  end; wsimpl; eexists; (split; [done|]).
  - right. exists booking, others. split_and!; [done..|congruence].
  - left. congruence.
Qed.

Lemma cleanup_each_outcome expired w :
  let '(r, w') := cleanup_each expired w in
  committed w' = committed w ∧ clock w' = clock w ∧
  match r with
  | Ok _ => session w' = foldl swept (session w) expired
  | Thrown => True
  end.
Proof.
  revert w. induction expired as [|b expired IH]; intros w; [done|].
  cbn [cleanup_each foldl]. munfold.
  match goal with |- context [release_seat_locks ?s ?rows ?w1] =>
    pose proof (release_seat_locks_same_db s rows w1) as (Hc & Hs & Hk);
    destruct (release_seat_locks s rows w1) as [[[]|] w2]
  end; wsimpl; [|done].
  specialize (IH w2). destruct (cleanup_each expired w2) as [[[]|] w3].
  - destruct IH as (?&?&?). split_and!; [congruence..|].
    unfold swept at 2. congruence.
  - destruct IH as (?&?&?). split_and!; [congruence..|done].
Qed.

Lemma cleanupExpiredBookings_effect w :
  let '(r, w') := cleanupExpiredBookings w in
  match r with
  | Ok _ =>
      committed w' =
        foldl swept (committed w)
          (Pg.select_expired_bookings 10 (clock w) (committed w))
  | Thrown => committed w' = committed w
  end.
Proof.
  unfold cleanupExpiredBookings. munfold.
  match goal with |- context [cleanup_each ?bs ?w1] =>
    pose proof (cleanup_each_outcome bs w1) as Hout;
    destruct (cleanup_each bs w1) as [[[]|] w2]
  end; wsimpl; destruct Hout as (?&?&?); wsimpl; congruence.
Qed.

Lemma lockSeats_effect sid ids uid w :
  let '(r, w') := lockSeats sid ids uid w in
  ∃ resp, r = Ok resp ∧
    (committed w' = committed w ∨
     ∃ locked,
       committed w' =
         granted sid uid locked (set_session (committed w) w)).
Proof.
  destruct ids as [ids|]; [|cbn; by eauto].
  destruct (decide (ids = [])) as [->|Hne]; [cbn; by eauto|].
  rewrite lockSeats_cases by done.
  repeat case_decide; try by eauto.
  match goal with |- context [acquire_locks ?s ?u ?t ?a ?a ?l ?k ?w1] =>
    pose proof (acquire_locks_outcome s u t a a l k w1) as Hout;
    destruct (acquire_locks s u t a a l k w1) as [[[locked|resp]|] w2]
  end; wsimpl.
  - destruct Hout as (Hc & Hk & _ & Hs). eexists. split; [done|].
    right. exists locked. unfold granted. wsimpl. by rewrite Hs, Hk.
  - destruct Hout as (Hc & Hk & _ & Hs). eauto.
  - destruct Hout as (Hc & Hk & Hs). eauto.
Qed.

(** ** The four operations as steps on the world *)

(** ** The lock timestamp *)

Lemma lock_stamp_ok_locked sid seat bid now :
  lock_stamp_ok (mkShowSeat sid seat LOCKED (Some bid) (Some now)).
Proof. split; [|done]. cbn. split; [by left|by eexists]. Qed.

Lemma lock_stamp_ok_released row : lock_stamp_ok (Pg.released row).
Proof.
  split; [|done]. cbn. split; [by intros []|by intros []].
Qed.

Lemma update_seat_status_booked_ok bid d :
  Forall lock_stamp_ok (show_seats d) →
  Forall lock_stamp_ok (show_seats (Pg.update_seat_status BOOKED bid d)).
Proof.
  intros H. cbn. apply Forall_fmap. eapply Forall_impl; [exact H|].
  intros row [Hst Hav]. cbn. case_decide as Hb; [|done].
  split; [|done]. cbn. split; [by right|]. intros _. apply Hst.
  destruct (ss_status row); [|by left|by right].
  rewrite Hav in Hb by done. done.
Qed.

Lemma release_seats_ok bid d :
  Forall lock_stamp_ok (show_seats d) →
  Forall lock_stamp_ok (show_seats (Pg.release_seats bid d)).
Proof.
  intros H. cbn. apply Forall_fmap. eapply Forall_impl; [exact H|].
  intros row Hrow. cbn. case_decide; [apply lock_stamp_ok_released|done].
Qed.

Lemma upsert_locked_row_ok sid bid now rows seat :
  Forall lock_stamp_ok rows →
  Forall lock_stamp_ok (Pg.upsert_locked_row sid bid now rows seat).
Proof.
  intros H. unfold Pg.upsert_locked_row. case_decide.
  - apply Forall_fmap. eapply Forall_impl; [exact H|].
    intros row Hrow. cbn. case_decide; [apply lock_stamp_ok_locked|done].
  - apply Forall_app. split; [done|].
    apply Forall_singleton, lock_stamp_ok_locked.
Qed.

Lemma granted_ok sid uid locked w :
  Forall lock_stamp_ok (show_seats (session w)) →
  Forall lock_stamp_ok (show_seats (granted sid uid locked w)).
Proof.
  intros H. unfold granted. case_bool_decide as Hlen; [|done]. cbn.
  clear Hlen. generalize dependent (show_seats (session w)).
  induction locked as [|s locked IH]; intros rows Hrows; [done|].
  cbn [foldl]. apply IH. by apply upsert_locked_row_ok.
Qed.

Lemma swept_ok expired d :
  Forall lock_stamp_ok (show_seats d) →
  Forall lock_stamp_ok (show_seats (foldl swept d expired)).
Proof.
  revert d. induction expired as [|b expired IH]; intros d H; [done|].
  cbn [foldl]. apply IH. unfold swept.
  apply (release_seats_ok (booking_id b)) in H. exact H.
Qed.

(** C3 as the code has it: after every operation (lock, confirm, cancel,
    sweep), whatever the lock store does, every committed ShowSeat row
    carries a lock timestamp exactly when its status is LOCKED or BOOKED, so
    a row that has become AVAILABLE has lost its timestamp.  A confirm,
    whatever its outcome, changes no timestamp: row by row, the committed
    seat rows after it have the show, seat, owner and [locked_at] they had
    before it, so a seat that confirm turned from LOCKED to BOOKED still
    carries the timestamp of its lock. *)
Theorem locked_at_set_iff_locked_or_booked
    (op : Op) (bid uid : Z) (w : World) :
  Forall lock_stamp_ok (show_seats (committed w)) →
  Forall lock_stamp_ok (show_seats (committed (run op w))) ∧
  (fun row =>
     (ss_show_id row, ss_seat_id row, ss_booking_id row, locked_at row))
    <$> show_seats (committed (run (Confirm bid uid) w)) =
  (fun row =>
     (ss_show_id row, ss_seat_id row, ss_booking_id row, locked_at row))
    <$> show_seats (committed w).
Proof.
  intros H. split.
  - destruct op as [sid ids uid0|bid0 uid0|bid0 uid0|]; cbn [run].
    + pose proof (lockSeats_effect sid ids uid0 w) as He.
      destruct (lockSeats sid ids uid0 w) as [r w']; cbn [snd].
      destruct He as (resp & _ & [->|(locked & ->)]); [done|].
      by apply granted_ok.
    + pose proof (confirmBooking_effect bid0 uid0 w) as He.
      destruct (confirmBooking bid0 uid0 w) as [r w']; cbn [snd].
      destruct He as (resp & _ & [->|(b & bs & _ & _ & _ & ->)]); [done|].
      by apply update_seat_status_booked_ok.
    + pose proof (cancelBooking_effect bid0 uid0 w) as He.
      destruct (cancelBooking bid0 uid0 w) as [r w']; cbn [snd].
      destruct He as (resp & _ & [->|(b & bs & _ & _ & ->)]); [done|].
      by apply release_seats_ok.
    + pose proof (cleanupExpiredBookings_effect w) as He.
      destruct (cleanupExpiredBookings w) as [[[]|] w']; cbn [snd];
        rewrite He; [|done].
      by apply swept_ok.
  - cbn [run]. pose proof (confirmBooking_effect bid uid w) as He.
    destruct (confirmBooking bid uid w) as [r w']; cbn [snd].
    destruct He as (resp & _ & [->|(b & bs & _ & _ & _ & ->)]); [done|].
    cbn. rewrite <- list_fmap_compose. apply list_fmap_ext.
    intros _ row _. cbn. by case_decide.
Qed.

Lemma locked_at_set_iff_locked_or_booked_witness :
  let w := Sample.world Sample.db_held Sample.locks_held 5000 [] in
  Forall lock_stamp_ok (show_seats (committed (run (Confirm 1 7) w))) ∧
  locked_at <$> show_seats (committed (run (Confirm 1 7) w)) =
    [Some 1000; Some 1000; Some 2000].
Proof.
  intros w.
  destruct (locked_at_set_iff_locked_or_booked (Confirm 1 7) 1 7 w)
    as [Hok Hstamp].
  { repeat constructor; cbn; (by eexists || by left || done). }
  split; [exact Hok|].
  apply (f_equal (fmap (fun t : Z * Z * option Z * option Z => t.2)))
    in Hstamp.
  rewrite <- !list_fmap_compose in Hstamp. exact Hstamp.
Defined.

(** C3 as the specification words it fails on confirm: in a state where every row with
    a lock timestamp is LOCKED and conversely, the owner confirms booking 1
    in time; seat 1 is then BOOKED and still carries [locked_at = 1000]. *)
Lemma locked_at_survives_confirm :
  let w := Sample.world Sample.db_held Sample.locks_held 5000 [] in
  Forall (fun row => is_Some (locked_at row) ↔ ss_status row = LOCKED)
    (show_seats (committed w)) ∧
  ∃ row,
    row ∈ show_seats (committed (run (Confirm 1 7) w)) ∧
    ss_status row = BOOKED ∧ locked_at row = Some 1000 ∧
    ¬ (is_Some (locked_at row) ↔ ss_status row = LOCKED).
Proof.
  intros w. split.
  - repeat constructor; cbn; by eexists.
  - exists (mkShowSeat 1 1 BOOKED (Some 1) (Some 1000)).
    split_and!; [|done..|].
    + apply list_elem_of_In. vm_compute. tauto.
    + cbn. intros [Hl _]. by specialize (Hl (mk_is_Some _ _ eq_refl)).
Qed.

(** ** Terminal booking statuses *)

Lemma bookings_pkey_inj (l : list Booking) b1 b2 :
  NoDup (booking_id <$> l) → b1 ∈ l → b2 ∈ l →
  booking_id b1 = booking_id b2 → b1 = b2.
Proof.
  induction l as [|b l IH]; intros Hnd H1 H2 Heq.
  - by apply elem_of_nil in H1.
  - cbn in Hnd. apply NoDup_cons in Hnd as [Hnotin Hnd].
    apply elem_of_cons in H1 as [->|H1], H2 as [->|H2]; [done|..|by apply IH].
    + exfalso. apply Hnotin. rewrite Heq. by apply list_elem_of_fmap_2.
    + exfalso. apply Hnotin. rewrite <- Heq. by apply list_elem_of_fmap_2.
Qed.

Lemma select_booking_head bid uid d booking others :
  Pg.select_booking bid uid d = booking :: others →
  booking ∈ bookings d ∧ booking_id booking = bid ∧ user_id booking = uid.
Proof.
  intros Hsel.
  assert (booking ∈ Pg.select_booking bid uid d) as Hin
    by (rewrite Hsel; left).
  apply list_elem_of_filter in Hin. tauto.
Qed.

Lemma with_status_same b : with_status (b_status b) b = b.
Proof. by destruct b. Qed.

Lemma update_booking_status_keeps st bid d b :
  b ∈ bookings d → booking_id b ≠ bid ∨ b_status b = st →
  b ∈ bookings (Pg.update_booking_status st bid d).
Proof.
  intros Hin Hc. cbn. apply list_elem_of_fmap. exists b. split; [|done].
  case_decide; [|done]. destruct Hc as [|<-]; [done|].
  symmetry. apply with_status_same.
Qed.

Lemma update_booking_status_moves st bid d b :
  b ∈ bookings d → booking_id b = bid →
  with_status st b ∈ bookings (Pg.update_booking_status st bid d).
Proof.
  intros Hin Hid. cbn. apply list_elem_of_fmap. exists b. split; [|done].
  by rewrite decide_True.
Qed.

Lemma granted_keeps_bookings sid uid locked w b :
  b ∈ bookings (session w) → b ∈ bookings (granted sid uid locked w).
Proof.
  intros Hin. unfold granted. case_bool_decide; cbn;
    apply elem_of_app; by left.
Qed.

Lemma swept_keeps_booking expired d b :
  b ∈ bookings d →
  b_status b = CANCELLED ∨ (∀ e, e ∈ expired → booking_id e ≠ booking_id b) →
  b ∈ bookings (foldl swept d expired).
Proof.
  revert d. induction expired as [|e expired IH]; intros d Hin Hc; [done|].
  cbn [foldl]. apply IH.
  - unfold swept. apply update_booking_status_keeps; [done|].
    destruct Hc as [Hc|Hc]; [by right|left].
    intros Heq. apply (Hc e); [left|done].
  - destruct Hc as [Hc|Hc]; [by left|right].
    intros e' He'. apply Hc. by right.
Qed.

(** C4 as the code has it: CANCELLED is terminal, no operation changes a
    CANCELLED booking.  A CONFIRMED booking is never changed by lock,
    confirm or sweep; the one transition out of CONFIRMED is a cancel of
    that booking by its owner, which commits it as CANCELLED. *)
Theorem cancelled_is_terminal_confirmed_only_cancellable
    (op : Op) (w : World) (b : Booking) :
  bookings_pkey (committed w) →
  b ∈ bookings (committed w) →
  (b_status b = CANCELLED → b ∈ bookings (committed (run op w))) ∧
  (b_status b = CONFIRMED →
   b ∈ bookings (committed (run op w)) ∨
   op = Cancel (booking_id b) (user_id b) ∧
   with_status CANCELLED b ∈ bookings (committed (run op w))).
Proof.
  intros Hpk Hin. unfold bookings_pkey in Hpk.
  destruct op as [sid ids uid|bid uid|bid uid|]; cbn [run].
  - pose proof (lockSeats_effect sid ids uid w) as He.
    destruct (lockSeats sid ids uid w) as [r w']; cbn [snd].
    assert (b ∈ bookings (committed w')) as Hkeep.
    { destruct He as (resp & _ & [->|(locked & ->)]); [done|].
      by apply granted_keeps_bookings. }
    split; intros _; [done|by left].
  - pose proof (confirmBooking_effect bid uid w) as He.
    destruct (confirmBooking bid uid w) as [r w']; cbn [snd].
    assert (b_status b ≠ PENDING → b ∈ bookings (committed w')) as Hkeep.
    { intros Hst.
      destruct He as (resp & _ & [->|(b0 & bs & Hsel & Hp & _ & ->)]);
        [done|].
      apply select_booking_head in Hsel as (Hin0 & Hid0 & _).
      cbn [Pg.update_seat_status Pg.set_show_seats bookings].
      apply update_booking_status_keeps; [done|left].
      intros Heq. apply Hst. rewrite <- Hp. f_equal.
      apply (bookings_pkey_inj (bookings (committed w))); congruence. }
    split; intros Hst; [|left]; apply Hkeep; congruence.
  - pose proof (cancelBooking_effect bid uid w) as He.
    destruct (cancelBooking bid uid w) as [r w']; cbn [snd].
    destruct He as (resp & _ & [->|(b0 & bs & Hsel & Hp & ->)]).
    { split; intros _; [done|by left]. }
    apply select_booking_head in Hsel as (Hin0 & Hid0 & Huid0).
    cbn [Pg.release_seats Pg.set_show_seats bookings]. split; intros Hst.
    + apply update_booking_status_keeps; [done|by right].
    + destruct (decide (booking_id b = bid)) as [Heq|Hne].
      * right.
        assert (b = b0) as ->
          by (apply (bookings_pkey_inj (bookings (committed w)));
              congruence).
        split; [congruence|]. by apply update_booking_status_moves.
      * left. apply update_booking_status_keeps; [done|by left].
  - pose proof (cleanupExpiredBookings_effect w) as He.
    destruct (cleanupExpiredBookings w) as [[[]|] w']; cbn [snd];
      rewrite He; [|split; intros _; [done|by left]].
    split; intros Hst; [|left]; apply swept_keeps_booking; try done;
      [by left|right].
    intros e [[Hpend _] Hine]%list_elem_of_filter Heq.
    assert (e = b) as -> by
      (apply (bookings_pkey_inj (bookings (committed w))); congruence).
    congruence.
Qed.

Lemma cancelled_is_terminal_confirmed_only_cancellable_witness :
  let w := Sample.world Sample.db_confirmed ∅ 5000 [] in
  let b := mkBooking 1 7 1 CONFIRMED 1000 in
  (b_status b = CANCELLED → b ∈ bookings (committed (run (Cancel 1 7) w))) ∧
  (b_status b = CONFIRMED →
   b ∈ bookings (committed (run (Cancel 1 7) w)) ∨
   Cancel 1 7 = Cancel (booking_id b) (user_id b) ∧
   with_status CANCELLED b ∈ bookings (committed (run (Cancel 1 7) w))).
Proof.
  intros w b.
  apply (cancelled_is_terminal_confirmed_only_cancellable (Cancel 1 7) w b).
  - unfold bookings_pkey. cbn. apply NoDup_singleton.
  - apply list_elem_of_In. cbn. tauto.
Defined.

(** C4 as the specification words it fails on cancel: the owner cancels the CONFIRMED
    booking 1 and it is committed as CANCELLED, its seats AVAILABLE. *)
Lemma confirmed_booking_can_be_cancelled :
  let w := Sample.world Sample.db_confirmed ∅ 5000 [] in
  mkBooking 1 7 1 CONFIRMED 1000 ∈ bookings (committed w) ∧
  ∃ seats w',
    cancelBooking 1 7 w =
      (Ok (Json 200
         (BookingCancelled "Booking cancelled successfully" 1 seats)), w') ∧
    bookings (committed w') = [mkBooking 1 7 1 CANCELLED 1000] ∧
    bookings (committed (run (Cancel 1 7) w)) =
      [mkBooking 1 7 1 CANCELLED 1000].
Proof.
  intros w. split; [apply list_elem_of_In; cbn; tauto|].
  eexists _, _. split_and!; vm_compute; reflexivity.
Qed.

(** ** Histories *)

Lemma update_booking_status_ids st bid d :
  booking_id <$> bookings (Pg.update_booking_status st bid d) =
  booking_id <$> bookings d.
Proof.
  cbn. rewrite <- list_fmap_compose. apply list_fmap_ext.
  intros _ b _. cbn. by case_decide.
Qed.

Lemma update_booking_status_serial st bid d :
  bookings_serial d → bookings_serial (Pg.update_booking_status st bid d).
Proof.
  intros [Hpk Hlt]. split.
  - unfold bookings_pkey. by rewrite update_booking_status_ids.
  - intros b (b0 & -> & Hin)%list_elem_of_fmap. cbn [bookings_seq].
    specialize (Hlt b0 Hin). by case_decide.
Qed.

Lemma bookings_serial_same_bookings d d' :
  bookings d' = bookings d → bookings_seq d' = bookings_seq d →
  bookings_serial d → bookings_serial d'.
Proof.
  unfold bookings_serial, bookings_pkey. intros -> ->. done.
Qed.

Lemma granted_serial sid uid locked w :
  bookings_serial (session w) → bookings_serial (granted sid uid locked w).
Proof.
  intros [Hpk Hlt].
  assert (bookings_serial
            (Pg.insert_booking uid sid PENDING (clock w) (session w))) as Hi.
  { split.
    - unfold bookings_pkey. cbn. rewrite fmap_app. apply NoDup_app.
      split_and!; [done| |apply NoDup_singleton].
      intros x (b & -> & Hin)%list_elem_of_fmap Hx.
      apply list_elem_of_singleton in Hx. cbn in Hx.
      specialize (Hlt b Hin). lia.
    - intros b [Hin|Hin]%elem_of_app; cbn.
      + specialize (Hlt b Hin). lia.
      + apply list_elem_of_singleton in Hin as ->. cbn. lia. }
  unfold granted. case_bool_decide; [|done].
  eapply bookings_serial_same_bookings; [| |exact Hi]; done.
Qed.

Lemma swept_serial expired d :
  bookings_serial d → bookings_serial (foldl swept d expired).
Proof.
  revert d. induction expired as [|e expired IH]; intros d H; [done|].
  cbn [foldl]. apply IH. unfold swept. apply update_booking_status_serial.
  eapply bookings_serial_same_bookings; [| |exact H]; done.
Qed.

Lemma run_serial op w :
  bookings_serial (committed w) → bookings_serial (committed (run op w)).
Proof.
  intros H. destruct op as [sid ids uid|bid uid|bid uid|]; cbn [run].
  - pose proof (lockSeats_effect sid ids uid w) as He.
    destruct (lockSeats sid ids uid w) as [r w']; cbn [snd].
    destruct He as (resp & _ & [->|(locked & ->)]); [done|].
    by apply granted_serial.
  - pose proof (confirmBooking_effect bid uid w) as He.
    destruct (confirmBooking bid uid w) as [r w']; cbn [snd].
    destruct He as (resp & _ & [->|(b & bs & _ & _ & _ & ->)]); [done|].
    eapply bookings_serial_same_bookings;
      [| |apply (update_booking_status_serial CONFIRMED bid), H]; done.
  - pose proof (cancelBooking_effect bid uid w) as He.
    destruct (cancelBooking bid uid w) as [r w']; cbn [snd].
    destruct He as (resp & _ & [->|(b & bs & _ & _ & ->)]); [done|].
    eapply bookings_serial_same_bookings;
      [| |apply (update_booking_status_serial CANCELLED bid), H]; done.
  - pose proof (cleanupExpiredBookings_effect w) as He.
    destruct (cleanupExpiredBookings w) as [[[]|] w']; cbn [snd];
      rewrite He; [|done].
    by apply swept_serial.
Qed.

(** The hypothesis of the terminal-status property holds in every state
    this process reaches: along any history of operations and of events
    elsewhere, [booking_id] stays a key and stays below the serial. *)
Lemma history_serial (es : list Event) (w : World) :
  bookings_serial (committed w) →
  bookings_serial (committed (history es w)).
Proof.
  unfold history. revert w. induction es as [|e es IH]; intros w H; [done|].
  cbn [foldl]. destruct e as [op|now store queue plan]; cbn [happen].
  - by apply IH, run_serial.
  - by apply IH.
Qed.

(** ** Counting thrown errors *)

Lemma counts_ret {A} (a : A) : counts (ret a).
Proof. by intros w. Qed.

Lemma counts_bind {A B} (m : M A) (k : A → M B) :
  counts m → (∀ a, counts (k a)) → counts (bind m k).
Proof.
  intros Hm Hk w. unfold bind. specialize (Hm w).
  destruct (m w) as [[a|] w1]; [|done].
  specialize (Hk a w1). destruct (k a w1) as [[b|] w2]; congruence.
Qed.

Lemma counts_modify (f : World → World) :
  (∀ w, raised (f w) = raised w) → counts (modify f).
Proof. intros Hf w. cbn. apply Hf. Qed.

Lemma counts_round_trip {A} (op : M A) : counts op → counts (round_trip op).
Proof.
  intros Hop w. unfold round_trip.
  destruct (faults w) as [|[] fs]; [apply Hop|done|].
  specialize (Hop (set_faults fs w)).
  by destruct (op (set_faults fs w)) as [[a|] w1].
Qed.

Lemma counts_when c (m : M unit) : counts m → counts (when c m).
Proof. destruct c; [done|intros _; apply counts_ret]. Qed.

Lemma counts_get_world : counts get_world.
Proof. by intros w. Qed.

Lemma counts_query {A} (q : Db → A) : counts (Pg.query q).
Proof. by intros w. Qed.

Lemma counts_exec u : counts (Pg.exec u).
Proof. by apply counts_modify. Qed.

Lemma counts_BEGIN : counts Pg.BEGIN.
Proof. by apply counts_modify. Qed.

Lemma counts_COMMIT : counts Pg.COMMIT.
Proof. by apply counts_modify. Qed.

Lemma counts_get k : counts (Redis.get k).
Proof. apply counts_round_trip. by intros w. Qed.

Lemma counts_del ks : counts (Redis.del ks).
Proof. apply counts_round_trip. by apply counts_modify. Qed.

Lemma counts_setex k s v : counts (Redis.setex k s v).
Proof. apply counts_round_trip. by apply counts_modify. Qed.

Lemma counts_expire k s : counts (Redis.expire k s).
Proof. apply counts_round_trip. by apply counts_modify. Qed.

Lemma counts_incr k : counts (Redis.incr k).
Proof.
  apply counts_round_trip. intros w.
  by destruct (Redis.incr_store k (redis w)) as [[n r]|].
Qed.

Lemma counts_multi_incr_expire k s : counts (Redis.multi_incr_expire k s).
Proof. apply counts_round_trip. by apply counts_modify. Qed.

Lemma counts_getWaiting : counts Bull.getWaiting.
Proof. apply counts_round_trip. by intros w. Qed.

Lemma counts_add j : counts (Bull.add j).
Proof. apply counts_round_trip. by apply counts_modify. Qed.

Create HintDb counts.
#[local] Hint Resolve counts_ret counts_get_world counts_query counts_exec
  counts_BEGIN counts_COMMIT counts_get counts_del counts_setex counts_expire
  counts_incr counts_multi_incr_expire counts_getWaiting counts_add
  counts_when : counts.

(** Takes a monadic term apart along its binds and branches. *)
Ltac counts_step :=
  lazymatch goal with
  | |- counts (bind _ _) => apply counts_bind; [|intros ?]
  | |- counts (if ?c then _ else _) => destruct c
  | |- counts (match ?x with _ => _ end) => destruct x
  | |- counts _ => solve [auto with counts]
  end.

(** ** Runs in which no round trip throws *)

Lemma steady_ret {A} (a : A) : steady (ret a).
Proof. intros w Hf. by eexists _, _. Qed.

Lemma steady_bind {A B} (m : M A) (k : A → M B) :
  steady m → (∀ a, steady (k a)) → steady (bind m k).
Proof.
  intros Hm Hk w Hf. unfold bind.
  destruct (Hm w Hf) as (a & w1 & -> & Hf1). by apply Hk.
Qed.

Lemma steady_modify (f : World → World) :
  (∀ w, faults (f w) = faults w) → steady (modify f).
Proof. intros H w Hf. eexists _, _. split; [done|]. cbn. by rewrite H. Qed.

Lemma steady_round_trip {A} (op : M A) : steady op → steady (round_trip op).
Proof. intros Hop w Hf. rewrite round_trip_no_fault by done. by apply Hop. Qed.

Lemma steady_del ks : steady (Redis.del ks).
Proof. apply steady_round_trip. by apply steady_modify. Qed.

Lemma steady_release_seat_locks sid rows : steady (release_seat_locks sid rows).
Proof.
  induction rows as [|r rows IH]; [apply steady_ret|].
  apply steady_bind; [apply steady_del|done].
Qed.

Lemma steady_cleanup_each expired : steady (cleanup_each expired).
Proof.
  induction expired as [|b expired IH]; [apply steady_ret|].
  cbn [cleanup_each].
  apply steady_bind; [|intros rows].
  { intros w Hf. by eexists _, _. }
  apply steady_bind; [by apply steady_modify|intros _].
  apply steady_bind; [by apply steady_modify|intros _].
  apply steady_bind; [apply steady_release_seat_locks|done].
Qed.

Lemma counts_release_seat_locks sid rows : counts (release_seat_locks sid rows).
Proof.
  induction rows as [|r rows IH]; cbn [release_seat_locks];
    repeat counts_step.
Qed.

Lemma counts_cleanup_each expired : counts (cleanup_each expired).
Proof.
  induction expired as [|b expired IH]; cbn [cleanup_each];
    repeat counts_step.
  apply counts_release_seat_locks.
Qed.

(** ** The sweep *)

Lemma swept_cancels expired d e :
  e ∈ bookings d ∧ e ∈ expired ∨ with_status CANCELLED e ∈ bookings d →
  with_status CANCELLED e ∈ bookings (foldl swept d expired).
Proof.
  revert d. induction expired as [|e' expired IH]; intros d H.
  - destruct H as [[_ H]|H]; [by apply elem_of_nil in H|done].
  - cbn [foldl]. apply IH. unfold swept.
    destruct H as [[Hin Hex]|Hin].
    + destruct (decide (booking_id e = booking_id e')) as [Heq|Hne].
      * right. by apply update_booking_status_moves.
      * left. split; [by apply update_booking_status_keeps; [|left]|].
        apply elem_of_cons in Hex as [->|Hex]; done.
    + right. by apply update_booking_status_keeps; [|right].
Qed.

Lemma swept_releases expired d e row :
  row ∈ show_seats d ∧ ss_booking_id row = Some (booking_id e) ∧ e ∈ expired ∨
  Pg.released row ∈ show_seats d →
  Pg.released row ∈ show_seats (foldl swept d expired).
Proof.
  revert d. induction expired as [|e' expired IH]; intros d H.
  - destruct H as [(_ & _ & H)|H]; [by apply elem_of_nil in H|done].
  - cbn [foldl]. apply IH. unfold swept.
    cbn [Pg.update_booking_status Pg.set_bookings show_seats Pg.release_seats
         Pg.set_show_seats].
    destruct H as [(Hin & Hb & Hex)|Hin].
    + destruct (decide (booking_id e = booking_id e')) as [Heq|Hne].
      * right. apply list_elem_of_fmap. exists row. split; [|done].
        rewrite decide_True; [done|congruence].
      * left. split_and!; [|done|].
        -- apply list_elem_of_fmap. exists row. split; [|done].
           rewrite decide_False; [done|congruence].
        -- apply elem_of_cons in Hex as [->|Hex]; done.
    + right. apply list_elem_of_fmap. exists (Pg.released row).
      split; [|done]. by rewrite decide_False.
Qed.

(** [try { body } catch (error) { ROLLBACK; throw error }] *)
Lemma counts_try_rethrow {A} (body : M A) :
  counts body → counts (try_catch body (Pg.ROLLBACK ;;; rethrow)).
Proof.
  intros Hb w. unfold try_catch. specialize (Hb w).
  destruct (body w) as [[a|] w1]; [done|]. munfold. done.
Qed.

Lemma counts_cleanupExpiredBookings : counts cleanupExpiredBookings.
Proof.
  unfold cleanupExpiredBookings. apply counts_try_rethrow.
  repeat counts_step. apply counts_cleanup_each.
Qed.

(** ** Admission fails open *)

Lemma counts_opens (m : M Handled) : counts m → opens m.
Proof. intros Hm w. specialize (Hm w). destruct (m w) as [[h|] w']; auto. Qed.

Lemma opens_fails_open (body : M Handled) :
  opens body → fails_open (try_catch body (ret (next None))).
Proof.
  intros Hb w. unfold try_catch. specialize (Hb w).
  destruct (body w) as [[h|] w1]; eexists _, _; (split; [done|]);
    [|done].
  intros Hne. by destruct Hb.
Qed.

Lemma counts_quiet_or_false (body : M bool) :
  counts body → quiet_or_false (try_catch body (ret false)).
Proof.
  intros Hb w. unfold try_catch. specialize (Hb w).
  destruct (body w) as [[b|] w1]; eexists _, _; (split; [done|]); auto.
Qed.

Lemma checkHighDemandShow_quiet_or_false showId :
  quiet_or_false (checkHighDemandShow showId).
Proof.
  unfold checkHighDemandShow. apply counts_quiet_or_false.
  repeat counts_step.
Qed.

Lemma checkSystemLoad_quiet_or_false : quiet_or_false checkSystemLoad.
Proof.
  unfold checkSystemLoad. apply counts_quiet_or_false.
  repeat counts_step.
Qed.

Lemma rateLimiter_fails_open env req : fails_open (rateLimiter env req).
Proof.
  unfold rateLimiter. apply opens_fails_open, counts_opens.
  repeat counts_step.
Qed.

Lemma smartWaitingRoom_fails_open env rnd req :
  fails_open (smartWaitingRoom env rnd req).
Proof.
  unfold smartWaitingRoom.
  destruct (_ || _); [intros w; by eexists _, _|].
  destruct (negb _); [intros w; by eexists _, _|].
  apply opens_fails_open. intros w. unfold bind at 1.
  assert (quiet_or_false
            (if JS.truthy (req_show_id req)
             then checkHighDemandShow (default "" (req_show_id req))
             else checkSystemLoad)) as Hcheck.
  { destruct (JS.truthy _);
      [apply checkHighDemandShow_quiet_or_false
      |apply checkSystemLoad_quiet_or_false]. }
  destruct (Hcheck w) as (b & w1 & -> & Hb).
  destruct b; cbn [negb]; [|by right].
  destruct Hb as [Hb|]; [|done].
  match goal with |- match ?m w1 with _ => _ end =>
    assert (counts m) as Hrest by repeat counts_step;
    specialize (Hrest w1); destruct (m w1) as [[h|] w2]
  end; [left; congruence|done].
Qed.

(** When the lock store fails on the rate limiter's call and again on the
    next one, the request goes through the whole chain. *)
Lemma admission_store_down env rnd req w fs :
  faults w = true :: true :: fs →
  ∃ w', admission env rnd req w = (Ok (next None), w').
Proof.
  intros Hf. unfold admission, bind at 1.
  unfold rateLimiter, try_catch at 1, bind at 1, Redis.incr, round_trip at 1.
  rewrite Hf. unfold throw at 1, ret at 1.
  unfold virtualWaitingRoom, smartWaitingRoom.
  destruct (_ || _); [by eexists|].
  destruct (negb _); [by eexists|].
  unfold try_catch at 1, bind at 1.
  destruct (JS.truthy (req_show_id req)).
  - unfold checkHighDemandShow, try_catch at 1, bind at 1, Redis.get,
      round_trip at 1.
    wsimpl. unfold throw, ret. cbn [negb]. by eexists.
  - unfold checkSystemLoad, try_catch at 1, bind at 1, Redis.get,
      round_trip at 1.
    wsimpl. unfold throw, ret. cbn [negb]. by eexists.
Qed.

(** C9 as the code has it: the chain always answers, and each of the two
    middlewares fails open on its own errors.  If an error is thrown inside
    the rate limiter, the rate limiter calls [next()] and the request goes
    on to the waiting-room middleware, whose answer is then the answer of
    the chain; if an error is thrown inside the waiting-room middleware, the
    request goes on to the reservation path; and when the lock store fails
    on the rate limiter's call and again on the next one, the request goes
    through to the reservation path.  [raised] counts the errors thrown, so
    [raised w1 ≠ raised w] says that one was thrown in between. *)
Theorem admission_fails_open_on_store_error
    (env : Env) (rnd : Random) (req : Request) (w : World) :
  ∃ h1 w1 h w',
    rateLimiter env req w = (Ok h1, w1) ∧
    admission env rnd req w = (Ok h, w') ∧
    (raised w1 ≠ raised w →
     h1 = next None ∧ smartWaitingRoom env rnd req w1 = (Ok h, w')) ∧
    (raised w' ≠ raised w1 → h = next None) ∧
    (∀ fs, faults w = true :: true :: fs → h = next None).
Proof.
  destruct (rateLimiter_fails_open env req w) as (h1 & w1 & Hrun1 & Hopen1).
  assert (∃ h w',
            admission env rnd req w = (Ok h, w') ∧
            (raised w1 ≠ raised w →
             smartWaitingRoom env rnd req w1 = (Ok h, w')) ∧
            (raised w' ≠ raised w1 → h = next None)) as (h & w' & Hrun & Hwr & Hopen).
  { unfold admission, bind. rewrite Hrun1. destruct h1 as [t|resp].
    - destruct (smartWaitingRoom_fails_open env rnd req w1)
        as (h & w' & Hrun2 & Hopen2).
      exists h, w'. unfold virtualWaitingRoom. by rewrite Hrun2.
    - exists (respond resp), w1. split_and!; [done| |done].
      intros Hne. by specialize (Hopen1 Hne). }
  exists h1, w1, h, w'. split_and!; [done..| | |].
  - intros Hne. split; [by apply Hopen1|by apply Hwr].
  - done.
  - intros fs Hf.
    destruct (admission_store_down env rnd req w fs Hf) as (w2 & Hdown).
    congruence.
Qed.

(** C9 as the claim words it fails on the chain.  Show 1 is in high demand, one
    job is waiting and MAX_CONCURRENT_USERS is 1; the lock store fails on
    the rate limiter's INCR and answers from then on.  An error was thrown
    inside the rate limiter, which lets the request pass, and the request is
    then deferred by the waiting room: it is queued and answered 429. *)
Lemma admission_defers_after_rate_limiter_error :
  let env := mkEnv None (Some "1") in
  let w :=
    set_faults [true]
      (AdmissionSample.world (mkQueue [AdmissionSample.waiting_job] [])) in
  (∃ w1,
     rateLimiter env AdmissionSample.req w = (Ok (next None), w1) ∧
     raised w = 0%nat ∧ raised w1 = 1%nat) ∧
  ∃ w',
    admission env AdmissionSample.rnd AdmissionSample.req w =
      (Ok (respond (Json 429
         (InQueue
            "High traffic detected. You have been placed in the virtual waiting room."
            "1-3 minutes" "in_queue" (Some "token_1000_k3j9x0a1b")))), w') ∧
    length (q_delayed (waitingRoomQueue w')) = 1%nat ∧
    redis w' !! "waiting_room:10.0.0.1" =
      Some (mkEntry "token_1000_k3j9x0a1b" (Some 300)).
Proof.
  intros env w. split.
  - eexists. split_and!; [vm_compute; reflexivity|reflexivity|reflexivity].
  - eexists. split_and!; vm_compute; reflexivity.
Qed.

(** ** Deferral under high demand *)

Lemma get_no_fault k w :
  faults w = [] → Redis.get k w = (Ok (value <$> redis w !! k), w).
Proof. intros Hf. unfold Redis.get. by rewrite round_trip_no_fault. Qed.

Lemma check_over_threshold req w :
  faults w = [] →
  JS.gt (demand req w) (Some (demand_threshold req)) = true →
  (if JS.truthy (req_show_id req)
   then checkHighDemandShow (default "" (req_show_id req))
   else checkSystemLoad) w = (Ok true, w).
Proof.
  unfold demand, demand_key, demand_threshold. intros Hf Hgt.
  destruct (JS.truthy (req_show_id req));
    unfold checkHighDemandShow, checkSystemLoad; munfold;
    rewrite get_no_fault by done; by rewrite Hgt.
Qed.

Lemma marker_is_not_a_counter req : marker_key req ≠ demand_key req.
Proof.
  unfold marker_key, demand_key. by destruct (JS.truthy (req_show_id req)).
Qed.

(** C6 as the code has it: take an admissible request, no round trip
    throwing, whose relevant demand counter exceeds its threshold (per show
    50, system-wide 200).  The counter is never incremented further.  If the
    caller has a queue marker but no admitted token, the answer is the 429
    deferred signal and nothing changes.  If the caller has no queue marker,
    the deferral depends on the queue: when the waiting list has reached
    MAX_CONCURRENT_USERS (default 500) the caller is enqueued, a queue
    marker with a 300 second TTL is recorded and the answer is the 429
    deferred signal carrying the token; below that size the request passes
    through and nothing changes. *)
Theorem over_threshold_defers_only_when_queue_full
    (env : Env) (rnd : Random) (req : Request) (w : World) :
  faults w = [] →
  admissible req = true →
  JS.gt (demand req w) (Some (demand_threshold req)) = true →
  0 <= random_delay rnd →
  let clientId := JS.or_else (ip req) "unknown" in
  let marker := value <$> redis w !! marker_key req in
  let token := "token_" +:+ pretty (clock w) +:+ "_" +:+ random_suffix rnd in
  let job :=
    mkJob "process-waiting-user" token clientId (clock w)
      (random_delay rnd + 5000) (random_priority rnd) in
  (redis (smartWaitingRoom env rnd req w).2 !! demand_key req =
     redis w !! demand_key req) ∧
  (JS.truthy marker = true →
   JS.truthy (value <$> redis w !! ("can_proceed:" +:+ default "" marker))
     = false →
   smartWaitingRoom env rnd req w =
     (Ok (respond (Json 429
        (InQueue "Please wait, you are in the virtual waiting room"
           "1-3 minutes" "in_queue" None))), w)) ∧
  (JS.truthy marker = false → queue_full env w = true →
   ∃ w',
     smartWaitingRoom env rnd req w =
       (Ok (respond (Json 429
          (InQueue
             "High traffic detected. You have been placed in the virtual waiting room."
             "1-3 minutes" "in_queue" (Some token)))), w') ∧
     waitingRoomQueue w' =
       mkQueue (q_waiting (waitingRoomQueue w))
         (q_delayed (waitingRoomQueue w) ++ [job]) ∧
     redis w' = <[marker_key req := mkEntry token (Some 300)]> (redis w)) ∧
  (JS.truthy marker = false → queue_full env w = false →
   smartWaitingRoom env rnd req w = (Ok (next None), w)).
Proof.
  intros Hf Hadm Hgt Hdelay clientId marker token job.
  unfold admissible in Hadm.
  apply andb_true_iff in Hadm as [Hpub%negb_true_iff Hroute].
  assert (∀ k : bool → M Handled,
            (shouldActivateWaitingRoom <-
               (if JS.truthy (req_show_id req)
                then checkHighDemandShow (default "" (req_show_id req))
                else checkSystemLoad) ;; k shouldActivateWaitingRoom) w =
            k true w) as Hcheck.
  { intros k. unfold bind. by rewrite check_over_threshold. }
  unfold smartWaitingRoom. rewrite Hpub, Hroute. cbn [negb].
  unfold try_catch. rewrite Hcheck. cbn [negb].
  unfold bind. fold (marker_key req). rewrite get_no_fault by done.
  fold marker.
  destruct (JS.truthy marker) eqn:Hm.
  - rewrite get_no_fault by done.
    destruct (JS.truthy (value <$> redis w !! _)) eqn:Hcp.
    + unfold Redis.del. rewrite round_trip_no_fault by done.
      unfold modify. rewrite round_trip_no_fault by done.
      cbn [foldr snd ret]. wsimpl.
      split_and!; [|done..].
      rewrite lookup_delete_ne.
      * rewrite lookup_delete_ne; [done|apply marker_is_not_a_counter].
      * unfold demand_key. by destruct (JS.truthy (req_show_id req)).
    + split_and!; done.
  - unfold Bull.getWaiting. rewrite round_trip_no_fault by done.
    fold (queue_full env w).
    destruct (queue_full env w) eqn:Hfull.
    + unfold get_world, Bull.add, Redis.setex.
      rewrite round_trip_no_fault by done. unfold modify.
      rewrite round_trip_no_fault by done.
      rewrite decide_True by (cbn; lia). wsimpl. unfold ret.
      split_and!; [|done|by eauto|done].
      cbn [snd]. wsimpl. rewrite lookup_insert_ne; [done|].
      apply marker_is_not_a_counter.
    + split_and!; done.
Qed.

Lemma over_threshold_defers_only_when_queue_full_witness :
  let env := mkEnv None (Some "1") in
  let w := AdmissionSample.world (mkQueue [AdmissionSample.waiting_job] []) in
  ∃ w',
    smartWaitingRoom env AdmissionSample.rnd AdmissionSample.req w =
      (Ok (respond (Json 429
         (InQueue
            "High traffic detected. You have been placed in the virtual waiting room."
            "1-3 minutes" "in_queue" (Some "token_1000_k3j9x0a1b")))), w') ∧
    waitingRoomQueue w' =
      mkQueue [AdmissionSample.waiting_job]
        [mkJob "process-waiting-user" "token_1000_k3j9x0a1b" "10.0.0.1" 1000
           12000 4] ∧
    redis w' =
      <["waiting_room:10.0.0.1" :=
          mkEntry "token_1000_k3j9x0a1b" (Some 300)]> AdmissionSample.hot.
Proof.
  intros env w.
  assert (0 <= random_delay AdmissionSample.rnd) as Hdelay
    by (vm_compute; discriminate).
  pose proof (over_threshold_defers_only_when_queue_full env
                AdmissionSample.rnd AdmissionSample.req w
                eq_refl eq_refl eq_refl Hdelay) as (_ & _ & Hfull & _).
  apply Hfull; vm_compute; reflexivity.
Defined.

(** C6 as the specification words it fails on the code: the per-show counter reads 51,
    above the threshold of 50, the caller has neither a queue marker nor an
    admitted token, and the waiting list is empty.  The request passes
    through: nobody is enqueued, no marker is recorded, no deferred signal
    is sent. *)
Lemma over_threshold_passes_when_queue_short :
  let w := AdmissionSample.world (mkQueue [] []) in
  admissible AdmissionSample.req = true ∧
  demand AdmissionSample.req w = Some 51 ∧
  demand_threshold AdmissionSample.req = 50 ∧
  redis w !! marker_key AdmissionSample.req = None ∧
  (∀ token, redis w !! ("can_proceed:" +:+ token) = None) ∧
  smartWaitingRoom AdmissionSample.env AdmissionSample.rnd
    AdmissionSample.req w = (Ok (next None), w).
Proof.
  intros w. split_and!; vm_compute; reflexivity.
Qed.

(** * Further properties *)

(** ** Decimal renderings are read back *)

Lemma decimal_pretty_N_char (x : N) : (x < 10)%N →
  JS.digit_of (pretty_N_char x) = Some (Z.of_N x) ∧
  decimal (String (pretty_N_char x) "") = true.
Proof.
  intros Hx.
  assert (x = 0 ∨ x = 1 ∨ x = 2 ∨ x = 3 ∨ x = 4 ∨ x = 5 ∨ x = 6 ∨ x = 7
          ∨ x = 8 ∨ x = 9)%N as Hc by lia.
  destruct Hc as [->|[->|[->|[->|[->|[->|[->|[->|[->| ->]]]]]]]]];
    by vm_compute.
Qed.

Lemma digits_pretty_N_go (x : N) (s : string) (acc : option Z) :
  (0 < x)%N →
  ∃ k : Z, 0 <= k ∧
    JS.digits 10 (pretty_N_go x s) acc =
    JS.digits 10 s (Some (default 0 acc * 10 ^ k + Z.of_N x)).
Proof.
  revert s acc. induction (N.lt_wf_0 x) as [x _ IH]; intros s acc Hx.
  rewrite pretty_N_go_step by done.
  assert (x `mod` 10 < 10)%N as Hm by (apply N.mod_lt; lia).
  destruct (decimal_pretty_N_char _ Hm) as [Hd _].
  destruct (decide (x `div` 10 = 0)%N) as [Hz|Hz].
  - rewrite Hz, pretty_N_go_0. exists 1. split; [lia|].
    cbn [JS.digits]. rewrite Hd.
    assert ((Z.of_N (x `mod` 10) <? 10) = true) as -> by (apply Z.ltb_lt; lia).
    do 2 f_equal. rewrite N.mod_small by (apply N.div_small_iff; lia).
    unfold id. lia.
  - assert (x `div` 10 < x)%N as Hlt by (apply N.div_lt; lia).
    destruct (IH _ Hlt (String (pretty_N_char (x `mod` 10)) s) acc)
      as (k & Hk & ->); [by apply N.neq_0_lt_0|].
    exists (k + 1). split; [lia|].
    cbn [JS.digits]. rewrite Hd.
    assert ((Z.of_N (x `mod` 10) <? 10) = true) as -> by (apply Z.ltb_lt; lia).
    do 2 f_equal. cbn [default].
    rewrite Z.pow_add_r, Z.pow_1_r by lia.
    generalize (10 ^ k). intros p.
    pose proof (N.div_mod x 10) as Hdm.
    apply (f_equal Z.of_N) in Hdm; [|done].
    rewrite N2Z.inj_add, N2Z.inj_mul in Hdm.
    change (Z.of_N 10) with 10 in Hdm. unfold id.
    generalize (default 0 acc). intros a. rewrite Hdm. ring.
Qed.

Lemma decimal_pretty_N_go (x : N) (s : string) :
  decimal s = true → decimal (pretty_N_go x s) = true.
Proof.
  revert s. induction (N.lt_wf_0 x) as [x _ IH]; intros s Hs.
  destruct (decide (x = 0)%N) as [->|Hx]; [by rewrite pretty_N_go_0|].
  rewrite pretty_N_go_step by by apply N.neq_0_lt_0.
  apply IH; [apply N.div_lt; [by apply N.neq_0_lt_0|done]|].
  assert (x `mod` 10 < 10)%N as Hm by (apply N.mod_lt; lia).
  destruct (decimal_pretty_N_char _ Hm) as [_ Hd].
  cbn [decimal] in *. rewrite andb_true_r in Hd. by rewrite Hd.
Qed.

Lemma unsigned_decimal (s : string) :
  decimal s = true → JS.unsigned s = JS.digits 10 s None.
Proof.
  destruct s as [|c s]; [done|]. intros H. cbn [decimal] in H.
  apply andb_true_iff in H as [Hc Hs].
  destruct c as [[] [] [] [] [] [] [] []]; try discriminate Hc;
    try reflexivity.
  destruct s as [|c2 s2]; [reflexivity|].
  cbn [decimal] in Hs. apply andb_true_iff in Hs as [Hc2 _].
  destruct c2 as [[] [] [] [] [] [] [] []]; try discriminate Hc2;
    reflexivity.
Qed.

Lemma parseInt_decimal (s : string) :
  s ≠ "" → decimal s = true → JS.parseInt s = JS.digits 10 s None.
Proof.
  intros Hne H. rewrite <- unsigned_decimal by done.
  destruct s as [|c s]; [done|]. cbn [decimal] in H.
  apply andb_true_iff in H as [Hc _].
  destruct c as [[] [] [] [] [] [] [] []]; try discriminate Hc; reflexivity.
Qed.

Lemma digits_pretty_positive (p : positive) :
  decimal (pretty_N_go (Npos p) "") = true ∧
  JS.digits 10 (pretty_N_go (Npos p) "") None = Some (Zpos p).
Proof.
  split; [by apply decimal_pretty_N_go|].
  destruct (digits_pretty_N_go (Npos p) "" None) as (k & _ & ->); [done|].
  cbn. done.
Qed.

(** What [INCR] and the key templates write is what [parseInt] reads. *)
Lemma parseInt_pretty (n : Z) : JS.parseInt (pretty n) = Some n.
Proof.
  destruct n as [|p|p]; [done|..].
  - destruct (digits_pretty_positive p) as [Hd Hv].
    change (pretty (Zpos p)) with (pretty_N_go (Npos p) "").
    rewrite parseInt_decimal; [done| |done].
    intros E. rewrite E in Hv. done.
  - destruct (digits_pretty_positive p) as [Hd Hv].
    change (pretty (Zneg p)) with (String "-" (pretty_N_go (Npos p) "")).
    change (JS.parseInt (String "-" (pretty_N_go (Npos p) "")))
      with (Z.opp <$> JS.unsigned (pretty_N_go (Npos p) "")).
    rewrite unsigned_decimal by done. by rewrite Hv.
Qed.

Lemma integer_of_pretty (n : Z) :
  - 2 ^ 63 <= n < 2 ^ 63 → Redis.integer_of (pretty n) = Some n.
Proof.
  intros Hn. unfold Redis.integer_of. rewrite parseInt_pretty.
  by rewrite decide_True.
Qed.

(** ** Counters in the lock store *)

Lemma reading_value (r : gmap string Entry) k n :
  reading r k = Some n →
  JS.parseInt (JS.or_else (value <$> r !! k) "0") = Some n.
Proof.
  unfold reading. destruct (r !! k) as [e|]; cbn.
  - unfold Redis.integer_of. intros H.
    destruct (JS.parseInt (value e)) as [m|] eqn:Hp; [|done].
    case_decide; [|done]. injection H as ->.
    destruct (decide (value e = "")) as [E|_]; [|done].
    rewrite E in Hp. done.
  - by intros [= <-].
Qed.

(** [INCR] on a key with a reading: the reply is the reading plus one, the
    new value is its decimal rendering, and the time to live of the key is
    the one it had. *)
Lemma incr_store_reading (r : gmap string Entry) k n :
  reading r k = Some n → - 2 ^ 63 <= n + 1 < 2 ^ 63 →
  Redis.incr_store k r =
    Some (n + 1,
          <[k := mkEntry (pretty (n + 1)) (r !! k ≫= ttl)]> r).
Proof.
  unfold reading, Redis.incr_store. intros H Hn.
  destruct (r !! k) as [e|]; cbn.
  - rewrite H. by rewrite decide_True by lia.
  - by injection H as <-.
Qed.

Lemma reading_insert_pretty (r : gmap string Entry) k n t :
  - 2 ^ 63 <= n < 2 ^ 63 →
  reading (<[k := mkEntry (pretty n) t]> r) k = Some n.
Proof.
  intros Hn. unfold reading. rewrite lookup_insert_eq. cbn.
  by apply integer_of_pretty.
Qed.

Lemma reading_insert_ne (r : gmap string Entry) k k' e :
  k ≠ k' → reading (<[k := e]> r) k' = reading r k'.
Proof. intros Hne. unfold reading. by rewrite lookup_insert_ne. Qed.

(** ** The rate limiter counts every request *)

Lemma rateLimiter_limit env req :
  (if JS.includes "/booking/" (path req) || JS.includes "/lock" (path req)
      || JS.includes "/confirm" (path req)
   then Some 30
   else JS.parseInt (JS.or_else (RATE_LIMIT_PER_MINUTE env) "60")) =
  rate_limit env req.
Proof. reflexivity. Qed.

(** One request through the rate limiter when the store answers: the
    counter of the client goes from [n] to [n + 1]; the window of 60 seconds
    is opened by the request that makes the counter 1 and is not extended by
    later ones; the request is refused exactly when [n + 1] exceeds the
    limit, and it has been counted also then. *)
Lemma rateLimiter_step env req w n :
  faults w = [] →
  reading (redis w) (rate_key req) = Some n →
  - 2 ^ 63 <= n + 1 < 2 ^ 63 →
  rateLimiter env req w =
    (Ok (if JS.gt (Some (n + 1)) (rate_limit env req)
         then too_many_requests else next None),
     set_redis
       (<[rate_key req :=
            mkEntry (pretty (n + 1))
              (if bool_decide (n + 1 = 1) then Some 60
               else redis w !! rate_key req ≫= ttl)]> (redis w)) w).
Proof.
  intros Hf Hr Hn. unfold rateLimiter. fold (rate_key req).
  rewrite rateLimiter_limit.
  unfold try_catch, bind, Redis.incr. rewrite round_trip_no_fault by done.
  rewrite (incr_store_reading _ _ n) by done.
  unfold when. case_bool_decide as H1.
  - unfold Redis.expire. rewrite round_trip_no_fault by done.
    unfold modify, Redis.expire_store. wsimpl.
    rewrite lookup_insert_eq. cbn [value]. rewrite insert_insert_eq.
    unfold ret. by destruct (JS.gt _ _).
  - unfold ret. by destruct (JS.gt _ _).
Qed.

Lemma replay_rateLimiter env req limit (k : nat) : ∀ w n,
  faults w = [] →
  rate_limit env req = Some limit →
  reading (redis w) (rate_key req) = Some n →
  0 <= n → n + Z.of_nat k < 2 ^ 63 →
  replay k (rateLimiter env req) w =
    (Ok ((fun i => if limit <? i then too_many_requests else next None)
           <$> seqZ (n + 1) (Z.of_nat k)),
     match k with
     | O => w
     | S _ =>
         set_redis
           (<[rate_key req :=
                mkEntry (pretty (n + Z.of_nat k))
                  (if bool_decide (n = 0) then Some 60
                   else redis w !! rate_key req ≫= ttl)]> (redis w)) w
     end).
Proof.
  induction k as [|k IH]; intros w n Hf Hl Hr Hn Hk; [done|].
  cbn [replay]. unfold bind at 1.
  rewrite (rateLimiter_step env req w n) by (done || lia).
  rewrite Hl. cbn [JS.gt].
  set (w1 := set_redis _ w).
  unfold bind.
  assert (reading (redis w1) (rate_key req) = Some (n + 1)) as Hr1
    by (apply reading_insert_pretty; lia).
  assert (0 <= n + 1) as Hn1 by lia.
  assert (n + 1 + Z.of_nat k < 2 ^ 63) as Hk1 by lia.
  rewrite (IH w1 (n + 1) Hf Hl Hr1 Hn1 Hk1).
  rewrite (seqZ_cons (n + 1) (Z.of_nat (S k))) by lia.
  cbn [fmap list_fmap ret].
  replace (Z.succ (n + 1)) with (n + 1 + 1) by lia.
  replace (Z.pred (Z.of_nat (S k))) with (Z.of_nat k) by lia.
  f_equal. destruct k as [|k].
  - subst w1. replace (n + Z.of_nat 1) with (n + 1) by lia.
    by rewrite (bool_decide_ext (n + 1 = 1) (n = 0)) by lia.
  - subst w1. wsimpl. rewrite insert_insert_eq, lookup_insert_eq. cbn.
    rewrite (bool_decide_eq_false_2 (n + 1 = 0)) by lia.
    replace (n + 1 + Z.of_nat (S k)) with (n + Z.of_nat (S (S k))) by lia.
    by rewrite (bool_decide_ext (n + 1 = 1) (n = 0)) by lia.
Qed.

(** X1: starting with no counter for the client, the [i]-th of [k]
    consecutive requests through the rate limiter is refused with 429
    exactly when [i] exceeds the limit of the route (30 on the booking
    routes); refused requests are counted too, and the counter ends at [k]
    with the 60 second window the first request opened. *)
Theorem rateLimiter_refuses_beyond_limit
    (env : Env) (req : Request) (limit : Z) (k : nat) (w : World) :
  faults w = [] →
  rate_limit env req = Some limit →
  redis w !! rate_key req = None →
  Z.of_nat k < 2 ^ 63 →
  ∃ w',
    replay k (rateLimiter env req) w =
      (Ok ((fun i => if limit <? i then too_many_requests else next None)
             <$> seqZ 1 (Z.of_nat k)), w') ∧
    (k ≠ O →
     redis w' !! rate_key req = Some (mkEntry (pretty (Z.of_nat k)) (Some 60))) ∧
    (∀ key, key ≠ rate_key req → redis w' !! key = redis w !! key).
Proof.
  intros Hf Hl Hnone Hk.
  assert (reading (redis w) (rate_key req) = Some 0) as Hr
    by (unfold reading; by rewrite Hnone).
  assert (0 + Z.of_nat k < 2 ^ 63) as Hk0 by lia.
  eexists. split.
  - exact (replay_rateLimiter env req limit k w 0 Hf Hl Hr (Z.le_refl 0) Hk0).
  - destruct k as [|k]; [done|]. wsimpl. split.
    + intros _. by rewrite lookup_insert_eq.
    + intros key Hne. by rewrite lookup_insert_ne.
Qed.

Lemma rateLimiter_refuses_beyond_limit_witness :
  let env := mkEnv None None in
  let req := mkRequest "/api/v1/bookings/lock" (Some "10.0.0.1") (Some "1") in
  let w := Sample.world Sample.db0 ∅ 1000 [] in
  ∃ w',
    replay 32 (rateLimiter env req) w =
      (Ok (replicate 30 (next None) ++ replicate 2 too_many_requests)%list,
       w') ∧
    redis w' !! rate_key req = Some (mkEntry "32" (Some 60)).
Proof.
  intros env req w.
  destruct (rateLimiter_refuses_beyond_limit env req 30 32 w)
    as (w' & Hrun & Hkey & _); [reflexivity|reflexivity|reflexivity|done|].
  exists w'. split; [exact Hrun|]. by apply Hkey.
Defined.

(** ** Demand counters *)

Lemma checkHighDemandShow_demand_check showId :
  checkHighDemandShow showId = demand_check ("show_demand:" +:+ showId) 50 300.
Proof. reflexivity. Qed.

Lemma checkSystemLoad_demand_check :
  checkSystemLoad = demand_check "system_load" 200 120.
Proof. reflexivity. Qed.

Lemma reading_range (r : gmap string Entry) k n :
  reading r k = Some n → - 2 ^ 63 <= n < 2 ^ 63.
Proof.
  unfold reading, Redis.integer_of. destruct (r !! k) as [e|].
  - destruct (JS.parseInt (value e)); [|done]. case_decide; [|done].
    intros [= <-]. tauto.
  - intros [= <-]. lia.
Qed.

(** One check when the store answers: above the threshold the counter is
    left alone and the answer is [true]; otherwise the counter goes up by
    one, its window starts anew, and the answer is [false]. *)
Lemma demand_check_step key threshold seconds w n :
  faults w = [] → threshold < 2 ^ 63 - 1 →
  reading (redis w) key = Some n →
  demand_check key threshold seconds w =
    if threshold <? n then (Ok true, w)
    else (Ok false,
          set_redis
            (<[key := mkEntry (pretty (n + 1)) (Some seconds)]> (redis w)) w).
Proof.
  intros Hf Ht Hr. pose proof (reading_range _ _ _ Hr) as Hn.
  unfold demand_check, try_catch, bind, Redis.get.
  rewrite round_trip_no_fault by done. cbn [fst snd].
  rewrite (reading_value _ _ _ Hr). cbn [JS.gt].
  destruct (threshold <? n) eqn:Hlt; [done|].
  apply Z.ltb_ge in Hlt.
  unfold Redis.multi_incr_expire. rewrite round_trip_no_fault by done.
  unfold modify, ret. rewrite (incr_store_reading _ _ n) by (done || lia).
  unfold Redis.expire_store. rewrite lookup_insert_eq. cbn [value].
  by rewrite insert_insert_eq.
Qed.

Lemma replay_demand_check key threshold seconds (k : nat) : ∀ w n,
  faults w = [] → 0 <= threshold < 2 ^ 63 - 1 →
  reading (redis w) key = Some n → 0 <= n →
  replay k (demand_check key threshold seconds) w =
    (Ok ((fun seen => threshold <? seen) <$> seqZ n (Z.of_nat k)),
     if decide (k = O ∨ threshold < n) then w
     else
       set_redis
         (<[key :=
              mkEntry (pretty (Z.min (n + Z.of_nat k) (threshold + 1)))
                (Some seconds)]> (redis w)) w).
Proof.
  induction k as [|k IH]; intros w n Hf Ht Hr Hn.
  { cbn. by rewrite decide_True by by left. }
  cbn [replay]. unfold bind at 1.
  rewrite (demand_check_step key threshold seconds w n) by (done || lia).
  rewrite (seqZ_cons n (Z.of_nat (S k))) by lia.
  replace (Z.pred (Z.of_nat (S k))) with (Z.of_nat k) by lia.
  cbn [fmap list_fmap].
  destruct (threshold <? n) eqn:Hlt.
  - apply Z.ltb_lt in Hlt. unfold bind.
    rewrite (IH w n) by done.
    assert (((fun seen => threshold <? seen) <$> seqZ n (Z.of_nat k)) =
            ((fun seen => threshold <? seen) <$> seqZ (Z.succ n) (Z.of_nat k)))
      as ->.
    { apply list_eq. intros i. rewrite !list_lookup_fmap.
      destruct (decide (i < k)%nat) as [Hi|Hi].
      - rewrite !lookup_seqZ_lt by lia. cbn.
        f_equal. transitivity true; [|symmetry]; apply Z.ltb_lt; lia.
      - by rewrite !lookup_seqZ_ge by lia. }
    rewrite !decide_True by by right. done.
  - apply Z.ltb_ge in Hlt. unfold bind.
    set (w1 := set_redis _ w).
    assert (reading (redis w1) key = Some (n + 1)) as Hr1
      by (apply reading_insert_pretty; lia).
    rewrite (IH w1 (n + 1)) by (done || lia).
    replace (Z.succ n) with (n + 1) by lia. cbn [ret].
    rewrite (decide_False (P := S k = O ∨ threshold < n)) by lia.
    f_equal. destruct (decide (k = O ∨ threshold < n + 1)) as [Hc|Hc].
    + subst w1.
      replace (Z.min (n + Z.of_nat (S k)) (threshold + 1)) with (n + 1);
        [done|]. destruct Hc as [->|Hc]; lia.
    + subst w1. wsimpl. rewrite insert_insert_eq.
      by replace (n + 1 + Z.of_nat k) with (n + Z.of_nat (S k)) by lia.
Qed.

(** X2: starting with no counter, the demand check that was preceded by
    [earlier] checks in the window answers "high demand" exactly when
    [earlier > 50] for a show (the waiting room can engage from the 52nd
    request on) and when [earlier > 200] system-wide; once the counter
    stands at threshold + 1 it is not incremented further. *)
Theorem demand_checks_engage_after_threshold (k : nat) (w : World) :
  faults w = [] →
  (∀ showId, redis w !! ("show_demand:" +:+ showId) = None →
   ∃ w',
     replay k (checkHighDemandShow showId) w =
       (Ok ((fun earlier => 50 <? earlier) <$> seqZ 0 (Z.of_nat k)), w') ∧
     reading (redis w') ("show_demand:" +:+ showId) =
       Some (Z.min (Z.of_nat k) 51)) ∧
  (redis w !! "system_load" = None →
   ∃ w',
     replay k checkSystemLoad w =
       (Ok ((fun earlier => 200 <? earlier) <$> seqZ 0 (Z.of_nat k)), w') ∧
     reading (redis w') "system_load" = Some (Z.min (Z.of_nat k) 201)).
Proof.
  intros Hf. split.
  - intros showId Hnone. rewrite checkHighDemandShow_demand_check.
    set (key := "show_demand:" +:+ showId) in *.
    assert (reading (redis w) key = Some 0) as Hr
      by (unfold reading; by rewrite Hnone).
    eexists. split.
    + apply (replay_demand_check key 50 300 k w 0); (done || lia).
    + destruct k as [|k]; [by rewrite decide_True by by left|].
      rewrite decide_False by lia. wsimpl.
      rewrite reading_insert_pretty by lia. f_equal.
  - intros Hnone. rewrite checkSystemLoad_demand_check.
    assert (reading (redis w) "system_load" = Some 0) as Hr
      by (unfold reading; by rewrite Hnone).
    eexists. split.
    + apply (replay_demand_check "system_load" 200 120 k w 0); (done || lia).
    + destruct k as [|k]; [by rewrite decide_True by by left|].
      rewrite decide_False by lia. wsimpl.
      rewrite reading_insert_pretty by lia. f_equal.
Qed.

Lemma demand_checks_engage_after_threshold_witness :
  let w := Sample.world Sample.db0 ∅ 1000 [] in
  ∃ w',
    replay 53 (checkHighDemandShow "1") w =
      (Ok (replicate 51 false ++ replicate 2 true)%list, w') ∧
    reading (redis w') "show_demand:1" = Some 51.
Proof.
  intros w.
  destruct (demand_checks_engage_after_threshold 53 w eq_refl) as [Hshow _].
  destruct (Hshow "1" eq_refl) as (w' & Hrun & Hread).
  exists w'. split; [exact Hrun|exact Hread].
Defined.

(** X3: an admissible request whose demand counter reads [n], at most the
    threshold, passes through; the only change is that this counter now
    reads [n + 1] and its window (300 seconds per show, 120 system-wide)
    starts anew.  Markers, admitted tokens and the queue play no part. *)
Theorem smartWaitingRoom_counts_and_passes_below_threshold
    (env : Env) (rnd : Random) (req : Request) (w : World) (n : Z) :
  faults w = [] →
  admissible req = true →
  reading (redis w) (demand_key req) = Some n →
  n <= demand_threshold req →
  smartWaitingRoom env rnd req w =
    (Ok (next None),
     set_redis
       (<[demand_key req :=
            mkEntry (pretty (n + 1)) (Some (demand_window req))]> (redis w))
       w) ∧
  reading
    (<[demand_key req :=
         mkEntry (pretty (n + 1)) (Some (demand_window req))]> (redis w))
    (demand_key req) = Some (n + 1).
Proof.
  intros Hf Hadm Hr Hn.
  pose proof (reading_range _ _ _ Hr) as Hrange.
  unfold admissible in Hadm.
  apply andb_true_iff in Hadm as [Hpub%negb_true_iff Hroute].
  assert (demand_threshold req < 2 ^ 63 - 1) as Ht
    by (unfold demand_threshold; destruct (JS.truthy _); lia).
  split; [|apply reading_insert_pretty;
           unfold demand_threshold in *; destruct (JS.truthy _); lia].
  unfold smartWaitingRoom. rewrite Hpub, Hroute. cbn [negb].
  unfold try_catch, bind.
  unfold demand_key, demand_threshold, demand_window in *.
  destruct (JS.truthy (req_show_id req)).
  - rewrite checkHighDemandShow_demand_check.
    rewrite (demand_check_step _ _ _ w n) by done.
    by rewrite (proj2 (Z.ltb_ge 50 n)) by done.
  - rewrite checkSystemLoad_demand_check.
    rewrite (demand_check_step _ _ _ w n) by done.
    by rewrite (proj2 (Z.ltb_ge 200 n)) by done.
Qed.

Lemma smartWaitingRoom_counts_and_passes_below_threshold_witness :
  let w := AdmissionSample.world (mkQueue [] []) in
  let hot50 : gmap string Entry :=
    <["show_demand:1" := mkEntry "50" (Some 17)]> ∅ in
  smartWaitingRoom AdmissionSample.env AdmissionSample.rnd AdmissionSample.req
    (set_redis hot50 w) =
    (Ok (next None),
     set_redis (<["show_demand:1" := mkEntry "51" (Some 300)]> hot50) w).
Proof.
  intros w hot50.
  exact (proj1 (smartWaitingRoom_counts_and_passes_below_threshold
                  AdmissionSample.env AdmissionSample.rnd AdmissionSample.req
                  (set_redis hot50 w) 50 eq_refl eq_refl eq_refl
                  ltac:(vm_compute; discriminate))).
Defined.

(** ** The waiting-room worker *)

(** X4: the worker writes the admitted token of its job, with a time to live
    of 300 seconds, exactly when the client's queue marker is still there
    (and not empty); it never changes the marker, the relational store or
    the queue.  When a round trip throws, the error is thrown on and
    nothing has been written. *)
Theorem waitingRoomWorker_admits_waiting_client (job : Job) (w : World) :
  let marker := "waiting_room:" +:+ job_clientId job in
  let admitted := "can_proceed:" +:+ job_token job in
  let '(r, w') := waitingRoomWorker job w in
  same_db w w' ∧ waitingRoomQueue w' = waitingRoomQueue w ∧
  match r with
  | Ok _ =>
      raised w' = raised w ∧
      redis w' =
        if JS.truthy (value <$> redis w !! marker)
        then <[admitted := mkEntry "true" (Some 300)]> (redis w)
        else redis w
  | Thrown => raised w' = S (raised w) ∧ redis w' = redis w
  end ∧
  (faults w = [] → r = Ok tt).
Proof.
  intros marker admitted. unfold waitingRoomWorker, try_catch, bind.
  fold marker admitted. unfold Redis.get, round_trip at 1.
  destruct (faults w) as [|[] fs] eqn:Hf.
  - cbn [fst snd]. unfold when.
    destruct (JS.truthy (value <$> redis w !! marker)).
    + unfold Redis.setex. rewrite round_trip_no_fault by done.
      by cbn.
    + by cbn.
  - by cbn.
  - cbn [fst snd]. wsimpl. unfold when.
    destruct (JS.truthy (value <$> redis w !! marker)).
    + unfold Redis.setex, round_trip. wsimpl.
      destruct fs as [|[] fs]; by cbn.
    + by cbn.
Qed.

(** ** From deferral to admission *)

Lemma admitted_is_not_a_counter req token :
  "can_proceed:" +:+ token ≠ demand_key req.
Proof. unfold demand_key. by destruct (JS.truthy (req_show_id req)). Qed.

Lemma admitted_is_not_a_marker req token :
  "can_proceed:" +:+ token ≠ marker_key req.
Proof. done. Qed.

(** The waiting-room middleware past the demand check, when the store
    answers and the counter is above its threshold. *)
Lemma smartWaitingRoom_over_threshold env rnd req w :
  faults w = [] →
  admissible req = true →
  JS.gt (demand req w) (Some (demand_threshold req)) = true →
  smartWaitingRoom env rnd req w =
    match JS.truthy (value <$> redis w !! marker_key req) with
    | true =>
        let existingToken := default "" (value <$> redis w !! marker_key req) in
        if JS.truthy (value <$> redis w !! ("can_proceed:" +:+ existingToken))
        then
          (Ok (next (Some existingToken)),
           set_redis
             (delete ("can_proceed:" +:+ existingToken)
                (delete (marker_key req) (redis w))) w)
        else
          (Ok (respond (Json 429
             (InQueue "Please wait, you are in the virtual waiting room"
                "1-3 minutes" "in_queue" None))), w)
    | false =>
        if queue_full env w then
          let token :=
            "token_" +:+ pretty (clock w) +:+ "_" +:+ random_suffix rnd in
          (Ok (respond (Json 429
             (InQueue
                "High traffic detected. You have been placed in the virtual waiting room."
                "1-3 minutes" "in_queue" (Some token)))),
           set_redis (<[marker_key req := mkEntry token (Some 300)]> (redis w))
             (set_queue
                (let q := waitingRoomQueue w in
                 let job :=
                   mkJob "process-waiting-user" token
                     (JS.or_else (ip req) "unknown") (clock w)
                     (random_delay rnd + 5000) (random_priority rnd) in
                 if decide (0 < random_delay rnd + 5000)
                 then mkQueue (q_waiting q) (q_delayed q ++ [job])
                 else mkQueue (q_waiting q ++ [job]) (q_delayed q)) w))
        else (Ok (next None), w)
    end.
Proof.
  intros Hf Hadm Hgt.
  unfold admissible in Hadm.
  apply andb_true_iff in Hadm as [Hpub%negb_true_iff Hroute].
  unfold smartWaitingRoom. rewrite Hpub, Hroute. cbn [negb].
  unfold try_catch. unfold bind at 1.
  rewrite check_over_threshold by done. cbn [negb].
  unfold bind. fold (marker_key req). rewrite get_no_fault by done.
  destruct (JS.truthy (value <$> redis w !! marker_key req)).
  - rewrite get_no_fault by done.
    destruct (JS.truthy (value <$> redis w !! _)); [|done].
    unfold Redis.del. rewrite round_trip_no_fault by done.
    unfold modify. rewrite round_trip_no_fault by done. done.
  - unfold Bull.getWaiting. rewrite round_trip_no_fault by done.
    fold (queue_full env w).
    destruct (queue_full env w); [|done].
    unfold get_world, Bull.add, Redis.setex.
    rewrite round_trip_no_fault by done. unfold modify.
    rewrite round_trip_no_fault by done. done.
Qed.

(** X5: the round trip of the waiting room.  A caller without marker is
    deferred when demand is high and the queue is full; the worker processes
    the job that was enqueued for it; the caller's next request, demand
    still high, consumes the admitted token: it passes with the token, and
    marker and admitted token are deleted, so that the lock store is again
    as it was before the first request. *)
Theorem deferred_client_is_admitted_after_worker
    (env : Env) (rnd rnd' : Random) (req : Request) (w : World) :
  faults w = [] →
  admissible req = true →
  JS.gt (demand req w) (Some (demand_threshold req)) = true →
  redis w !! marker_key req = None →
  queue_full env w = true →
  let token := "token_" +:+ pretty (clock w) +:+ "_" +:+ random_suffix rnd in
  let job :=
    mkJob "process-waiting-user" token (JS.or_else (ip req) "unknown")
      (clock w) (random_delay rnd + 5000) (random_priority rnd) in
  ∃ w1 w2 w3,
    smartWaitingRoom env rnd req w =
      (Ok (respond (Json 429
         (InQueue
            "High traffic detected. You have been placed in the virtual waiting room."
            "1-3 minutes" "in_queue" (Some token)))), w1) ∧
    job ∈ (q_waiting (waitingRoomQueue w1) ++ q_delayed (waitingRoomQueue w1))%list ∧
    waitingRoomWorker job w1 = (Ok tt, w2) ∧
    smartWaitingRoom env rnd' req w2 = (Ok (next (Some token)), w3) ∧
    redis w3 = delete ("can_proceed:" +:+ token) (redis w).
Proof.
  intros Hf Hadm Hgt Hnone Hfull token job.
  rewrite (smartWaitingRoom_over_threshold env rnd req w) by done.
  rewrite Hnone, Hfull. cbn [fmap option_fmap option_map JS.truthy].
  fold token job.
  set (r1 := <[marker_key req := mkEntry token (Some 300)]> (redis w)).
  set (w1 := set_redis r1 (set_queue _ w)).
  set (r2 := <["can_proceed:" +:+ token := mkEntry "true" (Some 300)]> r1).
  exists w1, (set_redis r2 w1). eexists. split_and!.
  - done.
  - subst w1. wsimpl.
    destruct (decide (0 < random_delay rnd + 5000));
      cbn [q_waiting q_delayed]; set_solver.
  - unfold waitingRoomWorker, try_catch, bind.
    change ("waiting_room:" +:+ job_clientId job) with (marker_key req).
    rewrite get_no_fault by done.
    change (redis w1) with r1. unfold r1 at 1. rewrite lookup_insert_eq.
    cbn [fmap option_fmap option_map value JS.truthy].
    rewrite bool_decide_eq_true_2 by done.
    unfold when, Redis.setex. rewrite round_trip_no_fault by done.
    done.
  - assert (JS.gt (demand req (set_redis r2 w1))
              (Some (demand_threshold req)) = true) as Hgt2.
    { rewrite <- Hgt. unfold demand. wsimpl. do 3 f_equal.
      unfold r2, r1.
      rewrite lookup_insert_ne by apply admitted_is_not_a_counter.
      rewrite lookup_insert_ne by apply marker_is_not_a_counter. done. }
    rewrite (smartWaitingRoom_over_threshold env rnd' req (set_redis r2 w1))
      by done.
    wsimpl.
    assert (r2 !! marker_key req = Some (mkEntry token (Some 300))) as ->.
    { unfold r2. rewrite lookup_insert_ne by apply admitted_is_not_a_marker.
      unfold r1. by rewrite lookup_insert_eq. }
    cbn [fmap option_fmap option_map value JS.truthy default].
    rewrite bool_decide_eq_true_2 by done. cbn [id].
    assert (r2 !! ("can_proceed:" +:+ token) =
            Some (mkEntry "true" (Some 300))) as ->
      by (unfold r2; by rewrite lookup_insert_eq).
    cbn [fmap option_fmap option_map value JS.truthy].
    rewrite bool_decide_eq_true_2 by done. reflexivity.
  - wsimpl. apply map_eq. intros key. unfold r2, r1.
    rewrite !lookup_delete, !lookup_insert.
    destruct (decide ("can_proceed:" +:+ token = key)) as [|Hk]; [done|].
    destruct (decide (marker_key req = key)) as [<-|Hm]; [done|].
    done.
Qed.

Lemma deferred_client_is_admitted_after_worker_witness :
  let env := mkEnv None (Some "1") in
  let w := AdmissionSample.world (mkQueue [AdmissionSample.waiting_job] []) in
  ∃ w1 w2 w3,
    smartWaitingRoom env AdmissionSample.rnd AdmissionSample.req w =
      (Ok (respond (Json 429
         (InQueue
            "High traffic detected. You have been placed in the virtual waiting room."
            "1-3 minutes" "in_queue" (Some "token_1000_k3j9x0a1b")))), w1) ∧
    waitingRoomWorker
      (mkJob "process-waiting-user" "token_1000_k3j9x0a1b" "10.0.0.1" 1000
         12000 4) w1 = (Ok tt, w2) ∧
    smartWaitingRoom env AdmissionSample.rnd AdmissionSample.req w2 =
      (Ok (next (Some "token_1000_k3j9x0a1b")), w3) ∧
    redis w3 = AdmissionSample.hot.
Proof.
  intros env w.
  destruct (deferred_client_is_admitted_after_worker env AdmissionSample.rnd
              AdmissionSample.rnd AdmissionSample.req w
              eq_refl eq_refl eq_refl eq_refl eq_refl)
    as (w1 & w2 & w3 & H1 & _ & H2 & H3 & H4).
  exists w1, w2, w3. split_and!; [exact H1|exact H2|exact H3|].
  rewrite H4. vm_compute. reflexivity.
Defined.

(** ** The middleware chain *)

Lemma incr_store_frame k (r r' : gmap string Entry) n key :
  Redis.incr_store k r = Some (n, r') → key ≠ k → r' !! key = r !! key.
Proof.
  unfold Redis.incr_store. intros H Hne.
  destruct (r !! k) as [e|].
  - destruct (Redis.integer_of (value e)) as [m|]; [|done].
    case_decide; [|done]. injection H as <- <-. by apply lookup_insert_ne.
  - injection H as <- <-. by apply lookup_insert_ne.
Qed.

Lemma expire_store_frame k s (r : gmap string Entry) key :
  key ≠ k → Redis.expire_store k s r !! key = r !! key.
Proof.
  unfold Redis.expire_store. intros Hne.
  destruct (r !! k); [by apply lookup_insert_ne|done].
Qed.

Lemma Redis_incr_frame k w :
  let '(_, w') := Redis.incr k w in
  committed w' = committed w ∧
  waitingRoomQueue w' = waitingRoomQueue w ∧
  (∀ key, key ≠ k → redis w' !! key = redis w !! key).
Proof.
  unfold Redis.incr, round_trip, throw.
  destruct (faults w) as [|[] fs]; wsimpl; [|done|];
    (destruct (Redis.incr_store k (redis w)) as [[n r]|] eqn:Hi; wsimpl;
     [|done]; split_and!; [done..|]; intros key Hk;
     by apply (incr_store_frame k _ _ n)).
Qed.

Lemma Redis_expire_frame k s w :
  let '(_, w') := Redis.expire k s w in
  committed w' = committed w ∧
  waitingRoomQueue w' = waitingRoomQueue w ∧
  (∀ key, key ≠ k → redis w' !! key = redis w !! key).
Proof.
  unfold Redis.expire, round_trip, throw, modify.
  destruct (faults w) as [|[] fs]; wsimpl; [|done|];
    (split_and!; [done..|]; intros key Hk; by apply expire_store_frame).
Qed.

(** Whatever the store does, the rate limiter answers, and it writes at
    most the counter of its client. *)
Lemma rateLimiter_outcome env req w :
  let '(r, w') := rateLimiter env req w in
  (r = Ok (next None) ∨ r = Ok too_many_requests) ∧
  committed w' = committed w ∧
  waitingRoomQueue w' = waitingRoomQueue w ∧
  (∀ key, key ≠ rate_key req → redis w' !! key = redis w !! key).
Proof.
  unfold rateLimiter. fold (rate_key req). rewrite rateLimiter_limit.
  unfold try_catch, bind, ret.
  pose proof (Redis_incr_frame (rate_key req) w) as Hi.
  destruct (Redis.incr (rate_key req) w) as [[n|] w1];
    destruct Hi as (Hc & Hq & Hk); [|split_and!; [by left|done..]].
  unfold when. case_bool_decide.
  - pose proof (Redis_expire_frame (rate_key req) 60 w1) as He.
    destruct (Redis.expire (rate_key req) 60 w1) as [[[]|] w2];
      destruct He as (Hc2 & Hq2 & Hk2).
    + destruct (JS.gt _ _);
        (split_and!; [by (left + right)|congruence|congruence|]);
        intros key Hkey; by rewrite Hk2, Hk.
    + split_and!; [by left|congruence|congruence|].
      intros key Hkey. by rewrite Hk2, Hk.
  - destruct (JS.gt _ _); (split_and!; [by (left + right)|done..]).
Qed.

(** X6: The order of the chain.  The rate limiter runs first and always
    answers, whatever the lock store does: it passes the request on or
    refuses it with 429 "Too many requests", and it writes nothing but the
    counter of its client.  A request it refuses never reaches the waiting
    room: it is not counted as demand and is not queued.  A request for a
    route outside the waiting room's scope gets the rate limiter's answer
    and costs nothing more. *)
Theorem rate_limiter_runs_before_waiting_room
    (env : Env) (rnd : Random) (req : Request) (w : World) :
  let '(r1, w1) := rateLimiter env req w in
  (r1 = Ok (next None) ∨ r1 = Ok too_many_requests) ∧
  committed w1 = committed w ∧
  waitingRoomQueue w1 = waitingRoomQueue w ∧
  (∀ key, key ≠ rate_key req → redis w1 !! key = redis w !! key) ∧
  (r1 = Ok too_many_requests →
   admission env rnd req w = (Ok too_many_requests, w1)) ∧
  (admissible req = false → admission env rnd req w = (r1, w1)).
Proof.
  pose proof (rateLimiter_outcome env req w) as Ho.
  unfold admission, bind.
  destruct (rateLimiter env req w) as [r1 w1].
  destruct Ho as (Hr & Hc & Hq & Hk). split_and!; [done..| |].
  - intros ->. done.
  - intros Hadm. destruct Hr as [-> | ->]; [|done].
    unfold virtualWaitingRoom, smartWaitingRoom. unfold admissible in Hadm.
    destruct (String.eqb (path req) "/health"
              || JS.startsWith "/api/v1/admin" (path req)); [done|].
    cbn [negb andb] in Hadm. by rewrite Hadm.
Qed.

(** ** Confirm and cancel, branch by branch *)

Lemma select_booking_update st bid uid d :
  Pg.select_booking bid uid (Pg.update_booking_status st bid d) =
  with_status st <$> Pg.select_booking bid uid d.
Proof.
  unfold Pg.select_booking. cbn [Pg.update_booking_status Pg.set_bookings bookings].
  induction (bookings d) as [|b l IH]; [done|].
  cbn [fmap list_fmap]. rewrite !filter_cons.
  destruct (decide (booking_id b = bid)) as [Hb|Hb].
  - destruct (decide (booking_id b = bid ∧ user_id b = uid)) as [Hc|Hc].
    + rewrite decide_True by done. cbn [fmap list_fmap]. f_equal. exact IH.
    + rewrite decide_False by (cbn; tauto). exact IH.
  - rewrite !decide_False by tauto. exact IH.
Qed.

Lemma select_booking_confirmed bid uid d :
  Pg.select_booking bid uid (confirmed bid d) =
  with_status CONFIRMED <$> Pg.select_booking bid uid d.
Proof. apply (select_booking_update CONFIRMED). Qed.

Lemma select_booking_cancelled bid uid d :
  Pg.select_booking bid uid (cancelled bid d) =
  with_status CANCELLED <$> Pg.select_booking bid uid d.
Proof. apply (select_booking_update CANCELLED). Qed.

(** Every way [confirmBooking] can end, for every fault plan. *)
Lemma confirmBooking_outcome bid uid w :
  let '(r, w') := confirmBooking bid uid w in
  ∃ resp, r = Ok resp ∧ session w' = committed w' ∧
    (status resp ≠ 200 ∧ committed w' = committed w ∨
     status resp = 200 ∧
     ∃ booking others,
       Pg.select_booking bid uid (committed w) = booking :: others ∧
       b_status booking = PENDING ∧
       locked_seats bid (committed w) ≠ [] ∧
       expired_seats_at (clock w) (locked_seats bid (committed w)) = [] ∧
       committed w' = confirmed bid (committed w)).
Proof.
  unfold confirmBooking. munfold.
  destruct (Pg.select_booking bid uid (committed w)) as [|booking others]
    eqn:Hb; wsimpl; [eexists; split_and!; [done..|by left]|].
  destruct (decide (b_status booking ≠ PENDING)) as [Hp|Hp]; wsimpl;
    [eexists; split_and!; [done..|by left]|].
  apply dec_stable in Hp.
  fold (locked_seats bid (committed w)).
  destruct (decide (length _ = 0%nat)) as [Hl|Hl]; wsimpl;
    [eexists; split_and!; [done..|by left]|].
  fold (expired_seats_at (clock w) (locked_seats bid (committed w))).
  destruct (decide (0 < length _)%nat) as [He|He]; wsimpl.
  - match goal with |- context [when ?c (Redis.del ?ks) ?w1] =>
      pose proof (when_del_same_db c ks w1) as (Hc & Hs & Hk);
      destruct (when c (Redis.del ks) w1) as [[[]|] w2]
    end; wsimpl; eexists; (split_and!; [done..|]); left;
      (split; [done|congruence]).
  - match goal with |- context [when ?c (Redis.del ?ks) ?w1] =>
      pose proof (when_del_same_db c ks w1) as (Hc & Hs & Hk);
      destruct (when c (Redis.del ks) w1) as [[[]|] w2]
    end; wsimpl; eexists; (split_and!; [done..|]).
    + right. split; [done|]. exists booking, others.
      split_and!; [done|done| | |unfold confirmed; congruence].
      * intros E. rewrite E in Hl. done.
      * apply length_zero_nil. lia.
    + left. split; [done|congruence].
Qed.

(** Every way [cancelBooking] can end, for every fault plan. *)
Lemma cancelBooking_outcome bid uid w :
  let '(r, w') := cancelBooking bid uid w in
  ∃ resp, r = Ok resp ∧ session w' = committed w' ∧
    (status resp ≠ 200 ∧ committed w' = committed w ∨
     status resp = 200 ∧
     ∃ booking others,
       Pg.select_booking bid uid (committed w) = booking :: others ∧
       b_status booking ≠ CANCELLED ∧
       committed w' = cancelled bid (committed w)).
Proof.
  unfold cancelBooking. munfold.
  destruct (Pg.select_booking bid uid (committed w)) as [|booking others]
    eqn:Hb; wsimpl; [eexists; split_and!; [done..|by left]|].
  destruct (decide (b_status booking = CANCELLED)) as [Hp|Hp]; wsimpl;
    [eexists; split_and!; [done..|by left]|].
  match goal with |- context [when ?c (Redis.del ?ks) ?w1] =>
    pose proof (when_del_same_db c ks w1) as (Hc & Hs & Hk);
    destruct (when c (Redis.del ks) w1) as [[[]|] w2]
  end; wsimpl; eexists; (split_and!; [done..|]).
  - right. split; [done|]. exists booking, others.
    split_and!; [done|done|unfold cancelled; congruence].
  - left. split; [done|congruence].
Qed.

(** Worlds written out field by field. *)
Ltac wflat :=
  unfold set_committed, set_session, set_redis, set_queue, set_faults,
    set_raised;
  cbn [committed session redis waitingRoomQueue clock faults raised].

Lemma lookup_foldr_delete (ks : list string) (r : gmap string Entry) key :
  foldr delete r ks !! key = if decide (key ∈ ks) then None else r !! key.
Proof.
  induction ks as [|k ks IH]; cbn [foldr].
  - by rewrite decide_False by apply not_elem_of_nil.
  - destruct (decide (key = k)) as [->|Hne].
    + rewrite decide_True by left. apply lookup_delete_eq.
    + rewrite lookup_delete_ne by done. rewrite IH.
      destruct (decide (key ∈ ks)) as [Hin|Hout].
      * by rewrite decide_True by (by right).
      * by rewrite decide_False by (rewrite elem_of_cons; tauto).
Qed.

Lemma del_no_fault ks w :
  faults w = [] →
  Redis.del ks w = (Ok tt, set_redis (foldr delete (redis w) ks) w).
Proof. intros Hf. unfold Redis.del. by rewrite round_trip_no_fault. Qed.

Lemma when_del_no_fault ks w :
  faults w = [] →
  when (bool_decide (0 < length ks)%nat) (Redis.del ks) w =
    (Ok tt, set_redis (foldr delete (redis w) ks) w).
Proof.
  intros Hf. destruct ks as [|k ks].
  - cbn. by destruct w.
  - rewrite bool_decide_eq_true_2 by (cbn; lia). by apply del_no_fault.
Qed.

Lemma expired_seats_at_nil now seats :
  expired_seats_at now seats = [] ↔
  ∀ seat, seat ∈ seats → now <= lockedAt seat + 600000.
Proof.
  unfold expired_seats_at. split.
  - intros Hnil seat Hin.
    destruct (decide (now > lockedAt seat + 10 * 60 * 1000)) as [Hl|Hl];
      [|lia].
    assert (seat ∈ filter (λ seat, now > lockedAt seat + 10 * 60 * 1000) seats)
      as Hx by (by apply list_elem_of_filter).
    rewrite Hnil in Hx. by apply elem_of_nil in Hx.
  - intros Hall.
    destruct (filter _ seats) as [|x l] eqn:Hf; [done|exfalso].
    assert (x ∈ filter (λ seat, now > lockedAt seat + 10 * 60 * 1000) seats)
      as Hx by (rewrite Hf; left).
    apply list_elem_of_filter in Hx as [Hl Hx]. specialize (Hall x Hx). lia.
Qed.

(** The run of [confirmBooking] on a PENDING booking with locked seats when
    no round trip throws. *)
Lemma confirmBooking_no_fault bid uid w booking others :
  faults w = [] →
  Pg.select_booking bid uid (committed w) = booking :: others →
  b_status booking = PENDING →
  locked_seats bid (committed w) ≠ [] →
  let locked := locked_seats bid (committed w) in
  let late := expired_seats_at (clock w) locked in
  let key := fun seat => seat_lock_key (b_show_id booking) (ss_seat_id seat) in
  confirmBooking bid uid w =
    if decide (late = []) then
      (Ok (Json 200
         (BookingConfirmed "Booking confirmed successfully" bid
            (seat_detail <$>
               Pg.select_seat_details_of_booking bid
                 (confirmed bid (committed w))))),
       mkWorld (confirmed bid (committed w)) (confirmed bid (committed w))
         (foldr delete (redis w) (key <$> locked))
         (waitingRoomQueue w) (clock w) [] (raised w))
    else
      (Ok (Json 410
         (ExpiredSeats "Seat locks have expired. Booking has been cancelled."
            (ss_seat_id <$> late))),
       mkWorld (committed w) (committed w)
         (foldr delete (redis w) (key <$> late))
         (waitingRoomQueue w) (clock w) [] (raised w)).
Proof.
  intros Hf Hsel Hpen Hne locked late key.
  unfold confirmBooking. munfold. rewrite Hsel. wsimpl.
  rewrite decide_False by (intros H; by apply H).
  fold (locked_seats bid (committed w)). fold locked.
  rewrite decide_False by (by rewrite length_zero_nil).
  wsimpl. fold (expired_seats_at (clock w) locked). fold late.
  destruct (decide (late = [])) as [Hl|Hl].
  - rewrite decide_False by (rewrite length_pos_nil; tauto).
    rewrite when_del_no_fault by done. wflat. rewrite Hf. reflexivity.
  - rewrite decide_True by (by rewrite length_pos_nil).
    rewrite when_del_no_fault by done. wflat. rewrite Hf. reflexivity.
Qed.

(** ** Confirming inside and outside the hold window *)

(** X7: Confirm inside the hold window: when no round trip throws, the booking
    found for the requester is PENDING, it has LOCKED seats and none of them
    was locked more than 600000 ms ago (the bound itself still counts as
    inside), confirm answers 200 and commits: every booking row with this id
    becomes CONFIRMED, every seat row of the booking becomes BOOKED and
    keeps its owner and its lock timestamp, no other row of either table
    changes, the lock entries of the booking's locked seats are deleted and
    no other entry of the lock store changes. *)
Theorem confirmBooking_confirms_within_window
    (bid uid : Z) (w : World) (booking : Booking) (others : list Booking) :
  faults w = [] →
  Pg.select_booking bid uid (committed w) = booking :: others →
  b_status booking = PENDING →
  locked_seats bid (committed w) ≠ [] →
  (∀ seat, seat ∈ locked_seats bid (committed w) →
     clock w <= lockedAt seat + 600000) →
  let '(r, w') := confirmBooking bid uid w in
  (∃ seats,
     r = Ok (Json 200
       (BookingConfirmed "Booking confirmed successfully" bid seats))) ∧
  bookings (committed w') =
    (fun b => if decide (booking_id b = bid) then with_status CONFIRMED b
              else b) <$> bookings (committed w) ∧
  show_seats (committed w') =
    (fun row =>
       if decide (ss_booking_id row = Some bid)
       then mkShowSeat (ss_show_id row) (ss_seat_id row) BOOKED (Some bid)
              (locked_at row)
       else row) <$> show_seats (committed w) ∧
  session w' = committed w' ∧
  (∀ key,
     redis w' !! key =
       if decide (key ∈ (fun seat =>
                           seat_lock_key (b_show_id booking) (ss_seat_id seat))
                          <$> locked_seats bid (committed w))
       then None else redis w !! key).
Proof.
  intros Hf Hsel Hpen Hne Hwin.
  rewrite (confirmBooking_no_fault bid uid w booking others) by done.
  rewrite decide_True by (by apply expired_seats_at_nil).
  split_and!.
  - by eexists.
  - reflexivity.
  - cbn. apply list_fmap_ext. intros _ row _. cbn.
    case_decide as Hb; [|done]. by rewrite Hb.
  - reflexivity.
  - intros key. cbn [redis]. apply lookup_foldr_delete.
Qed.

Lemma confirmBooking_confirms_within_window_witness :
  let w := Sample.world Sample.db_held Sample.locks_held 601000 [] in
  let '(r, w') := confirmBooking 1 7 w in
  r = Ok (Json 200
        (BookingConfirmed "Booking confirmed successfully" 1
           [mkSeatDetail 1 "A" 1; mkSeatDetail 2 "A" 2])) ∧
  show_seats (committed w') =
    [mkShowSeat 1 1 BOOKED (Some 1) (Some 1000);
     mkShowSeat 1 2 BOOKED (Some 1) (Some 1000);
     mkShowSeat 1 3 LOCKED (Some 2) (Some 2000)] ∧
  redis w' !! "seat_lock:1:1" = None.
Proof.
  intros w.
  assert (∀ seat, seat ∈ locked_seats 1 (committed w) →
            clock w <= lockedAt seat + 600000) as Hwin.
  { intros seat Hin. apply list_elem_of_In in Hin. cbn in Hin.
    destruct Hin as [<-|[<-|[]]]; cbn; unfold id; lia. }
  pose proof (confirmBooking_confirms_within_window 1 7 w
                (mkBooking 1 7 1 PENDING 1000) [] eq_refl eq_refl eq_refl
                ltac:(done) Hwin) as H.
  destruct (confirmBooking 1 7 w) as [r w'] eqn:Hrun.
  destruct H as (_ & _ & Hrows & _ & Hkeys).
  split_and!.
  - vm_compute in Hrun. congruence.
  - rewrite Hrows. reflexivity.
  - rewrite Hkeys. reflexivity.
Defined.

(** X8: Confirm outside the hold window: when no round trip throws, the booking
    found for the requester is PENDING and one of its LOCKED seats was
    locked more than 600000 ms ago, confirm answers 410 and lists exactly
    the seats whose lock is that old; nothing is committed (the tables are
    as before: no seat becomes BOOKED, the booking is not CONFIRMED), the
    lock entries of the listed seats are deleted and no other entry of the
    lock store changes. *)
Theorem confirmBooking_refuses_outside_window
    (bid uid : Z) (w : World) (booking : Booking) (others : list Booking)
    (old : ShowSeat) :
  faults w = [] →
  Pg.select_booking bid uid (committed w) = booking :: others →
  b_status booking = PENDING →
  old ∈ locked_seats bid (committed w) →
  clock w > lockedAt old + 600000 →
  let late := expired_seats_at (clock w) (locked_seats bid (committed w)) in
  let '(r, w') := confirmBooking bid uid w in
  r = Ok (Json 410
        (ExpiredSeats "Seat locks have expired. Booking has been cancelled."
           (ss_seat_id <$> late))) ∧
  (∀ seat, seat ∈ late ↔
     seat ∈ locked_seats bid (committed w) ∧
     clock w > lockedAt seat + 600000) ∧
  committed w' = committed w ∧ session w' = committed w ∧
  (∀ key,
     redis w' !! key =
       if decide (key ∈ (fun seat =>
                           seat_lock_key (b_show_id booking) (ss_seat_id seat))
                          <$> late)
       then None else redis w !! key).
Proof.
  intros Hf Hsel Hpen Hold Hlate late.
  assert (locked_seats bid (committed w) ≠ []) as Hne.
  { intros E. rewrite E in Hold. by apply elem_of_nil in Hold. }
  rewrite (confirmBooking_no_fault bid uid w booking others) by done.
  rewrite decide_False.
  2:{ rewrite expired_seats_at_nil. intros Hall. specialize (Hall old Hold).
      lia. }
  split_and!.
  - reflexivity.
  - intros seat. unfold late, expired_seats_at.
    rewrite list_elem_of_filter. split; intros [? ?]; split; (done || lia).
  - reflexivity.
  - reflexivity.
  - intros key. cbn [redis]. apply lookup_foldr_delete.
Qed.

Lemma confirmBooking_refuses_outside_window_witness :
  let w := Sample.world Sample.db_held Sample.locks_held 601001 [] in
  let '(r, w') := confirmBooking 1 7 w in
  r = Ok (Json 410
        (ExpiredSeats "Seat locks have expired. Booking has been cancelled."
           [1; 2])) ∧
  committed w' = Sample.db_held.
Proof.
  intros w.
  pose proof (confirmBooking_refuses_outside_window 1 7 w
                (mkBooking 1 7 1 PENDING 1000) []
                (mkShowSeat 1 1 LOCKED (Some 1) (Some 1000))
                eq_refl eq_refl eq_refl) as H.
  cbv zeta in H.
  destruct (confirmBooking 1 7 w) as [r w'].
  destruct H as (Hr & _ & Hc & _).
  - apply list_elem_of_In. vm_compute. tauto.
  - cbn. unfold id. lia.
  - split; [rewrite Hr; reflexivity|exact Hc].
Defined.

(** ** Cancelling *)

Lemma cancelBooking_no_fault bid uid w booking others :
  faults w = [] →
  Pg.select_booking bid uid (committed w) = booking :: others →
  b_status booking ≠ CANCELLED →
  let seats := Pg.select_seat_details_of_booking bid (committed w) in
  cancelBooking bid uid w =
    (Ok (Json 200
       (BookingCancelled "Booking cancelled successfully" bid
          (seat_detail <$> seats))),
     mkWorld (cancelled bid (committed w)) (cancelled bid (committed w))
       (foldr delete (redis w)
          ((fun seat => seat_lock_key (b_show_id booking) (seat_id seat))
             <$> seats))
       (waitingRoomQueue w) (clock w) [] (raised w)).
Proof.
  intros Hf Hsel Hst seats.
  unfold cancelBooking. munfold. rewrite Hsel. wsimpl.
  rewrite decide_False by done. wsimpl.
  rewrite when_del_no_fault by done. wflat. rewrite Hf. reflexivity.
Qed.

(** X9: Cancel: when no round trip throws and the booking found for the
    requester is not CANCELLED (it may be PENDING or CONFIRMED), cancel
    answers 200 with the booking's seats and commits: every booking row with
    this id becomes CANCELLED, every seat row of the booking becomes
    AVAILABLE with no owner and no lock timestamp, so that no seat row
    refers to the booking any more, and no other row of either table
    changes; the lock entries of the answered seats are deleted and no other
    entry of the lock store changes. *)
Theorem cancelBooking_releases_the_seats
    (bid uid : Z) (w : World) (booking : Booking) (others : list Booking) :
  faults w = [] →
  Pg.select_booking bid uid (committed w) = booking :: others →
  b_status booking ≠ CANCELLED →
  let seats := Pg.select_seat_details_of_booking bid (committed w) in
  let '(r, w') := cancelBooking bid uid w in
  r = Ok (Json 200
        (BookingCancelled "Booking cancelled successfully" bid
           (seat_detail <$> seats))) ∧
  bookings (committed w') =
    (fun b => if decide (booking_id b = bid) then with_status CANCELLED b
              else b) <$> bookings (committed w) ∧
  show_seats (committed w') =
    (fun row =>
       if decide (ss_booking_id row = Some bid)
       then mkShowSeat (ss_show_id row) (ss_seat_id row) AVAILABLE None None
       else row) <$> show_seats (committed w) ∧
  (∀ row, row ∈ show_seats (committed w') → ss_booking_id row ≠ Some bid) ∧
  session w' = committed w' ∧
  (∀ key,
     redis w' !! key =
       if decide (key ∈ (fun seat =>
                           seat_lock_key (b_show_id booking) (seat_id seat))
                          <$> seats)
       then None else redis w !! key).
Proof.
  intros Hf Hsel Hst seats.
  rewrite (cancelBooking_no_fault bid uid w booking others) by done.
  split_and!; try reflexivity.
  - intros row (row0 & -> & Hin)%list_elem_of_fmap.
    case_decide; [done|]. done.
  - intros key. cbn [redis]. apply lookup_foldr_delete.
Qed.

Lemma cancelBooking_releases_the_seats_witness :
  let w := Sample.world Sample.db_held Sample.locks_held 5000 [] in
  let '(r, w') := cancelBooking 1 7 w in
  r = Ok (Json 200
        (BookingCancelled "Booking cancelled successfully" 1
           [mkSeatDetail 1 "A" 1; mkSeatDetail 2 "A" 2])) ∧
  show_seats (committed w') =
    [mkShowSeat 1 1 AVAILABLE None None;
     mkShowSeat 1 2 AVAILABLE None None;
     mkShowSeat 1 3 LOCKED (Some 2) (Some 2000)] ∧
  redis w' !! "seat_lock:1:2" = None.
Proof.
  intros w.
  pose proof (cancelBooking_releases_the_seats 1 7 w
                (mkBooking 1 7 1 PENDING 1000) [] eq_refl eq_refl
                ltac:(done)) as H.
  cbv zeta in H.
  destruct (cancelBooking 1 7 w) as [r w'].
  destruct H as (Hr & _ & Hrows & _ & _ & Hkeys).
  split_and!.
  - rewrite Hr. reflexivity.
  - rewrite Hrows. reflexivity.
  - rewrite Hkeys. reflexivity.
Defined.

(** ** Bookings of other users, and settled bookings *)

Lemma select_booking_none bid uid d :
  (∀ b, b ∈ bookings d → booking_id b = bid → user_id b ≠ uid) →
  Pg.select_booking bid uid d = [].
Proof.
  intros Hnone. unfold Pg.select_booking.
  destruct (filter _ (bookings d)) as [|b l] eqn:Hf; [done|exfalso].
  assert (b ∈ filter (λ b, booking_id b = bid ∧ user_id b = uid) (bookings d))
    as Hb by (rewrite Hf; left).
  apply list_elem_of_filter in Hb as [[Hid Hu] Hin]. by apply (Hnone b).
Qed.

(** X10: Ownership check: for a booking id and a user id that are values
    of the integer id columns, when no booking with the given id belongs to
    the requester (the id is unknown, or the booking is another user's),
    confirm and cancel both answer 404 "Booking not found" before any round
    trip to the lock store, so whatever the fault plan; the transaction is
    rolled back and nothing else of the world changes. *)
Theorem foreign_booking_is_not_found (bid uid : Z) (w : World) :
  int4 bid →
  int4 uid →
  (∀ b, b ∈ bookings (committed w) → booking_id b = bid → user_id b ≠ uid) →
  confirmBooking bid uid w =
    (Ok (Json 404 (Message "Booking not found")),
     set_session (committed w) w) ∧
  cancelBooking bid uid w =
    (Ok (Json 404 (Message "Booking not found")),
     set_session (committed w) w).
Proof.
  intros _ _ Hnone. apply select_booking_none in Hnone.
  unfold confirmBooking, cancelBooking. munfold. rewrite Hnone. done.
Qed.

Lemma foreign_booking_is_not_found_witness :
  let w := Sample.world Sample.db_held Sample.locks_held 5000 [true] in
  confirmBooking 2 7 w =
    (Ok (Json 404 (Message "Booking not found")),
     set_session (committed w) w) ∧
  cancelBooking 2 7 w =
    (Ok (Json 404 (Message "Booking not found")),
     set_session (committed w) w).
Proof.
  intros w.
  apply (foreign_booking_is_not_found 2 7 w); [unfold int4; lia..|].
  intros b Hin Hid. apply list_elem_of_In in Hin. cbn in Hin.
  destruct Hin as [<-|[<-|[]]]; cbn in *; lia.
Defined.

(** X11: A confirmed booking cannot be confirmed again: after a confirm answered
    200, every later confirm of the same booking by the same user is
    answered 400 "Booking is not in pending status".  The later call may
    find any lock store, clock, queue and fault plan, as long as the
    committed tables are those the first call left; it is rolled back. *)
Theorem confirmed_booking_rejects_second_confirm
    (bid uid : Z) (w w1 w2 : World) (resp : Response) :
  confirmBooking bid uid w = (Ok resp, w1) →
  status resp = 200 →
  committed w2 = committed w1 →
  confirmBooking bid uid w2 =
    (Ok (Json 400 (Message "Booking is not in pending status")),
     set_session (committed w2) w2).
Proof.
  intros Hrun H200 Hsame.
  pose proof (confirmBooking_outcome bid uid w) as Ho. rewrite Hrun in Ho.
  destruct Ho
    as (? & [= <-] & _ & [[? _]|(_ & b & bs & Hsel & _ & _ & _ & Hc)]);
    [done|].
  assert (Pg.select_booking bid uid (committed w2) =
            with_status CONFIRMED <$> b :: bs) as Hs2
    by (by rewrite Hsame, Hc, select_booking_confirmed, Hsel).
  unfold confirmBooking. munfold. rewrite Hs2. cbn [fmap list_fmap].
  wsimpl. rewrite decide_True by done. reflexivity.
Qed.

Lemma confirmed_booking_rejects_second_confirm_witness :
  let w := Sample.world Sample.db_held Sample.locks_held 5000 [] in
  let w1 := (confirmBooking 1 7 w).2 in
  let w2 := set_faults [true] (set_redis ∅ w1) in
  confirmBooking 1 7 w2 =
    (Ok (Json 400 (Message "Booking is not in pending status")),
     set_session (committed w2) w2).
Proof.
  intros w w1 w2.
  apply (confirmed_booking_rejects_second_confirm 1 7 w w1 w2
           (Json 200
              (BookingConfirmed "Booking confirmed successfully" 1
                 [mkSeatDetail 1 "A" 1; mkSeatDetail 2 "A" 2])));
    [vm_compute; reflexivity|reflexivity|reflexivity].
Defined.

(** X12: A cancelled booking stays cancelled: after a cancel answered 200, every
    later cancel of the same booking by the same user is answered 400
    "Booking is already cancelled" and every later confirm 400 "Booking is
    not in pending status".  The later call may find any lock store, clock,
    queue and fault plan, as long as the committed tables are those the
    cancel left; it is rolled back. *)
Theorem cancelled_booking_rejects_cancel_and_confirm
    (bid uid : Z) (w w1 w2 : World) (resp : Response) :
  cancelBooking bid uid w = (Ok resp, w1) →
  status resp = 200 →
  committed w2 = committed w1 →
  cancelBooking bid uid w2 =
    (Ok (Json 400 (Message "Booking is already cancelled")),
     set_session (committed w2) w2) ∧
  confirmBooking bid uid w2 =
    (Ok (Json 400 (Message "Booking is not in pending status")),
     set_session (committed w2) w2).
Proof.
  intros Hrun H200 Hsame.
  pose proof (cancelBooking_outcome bid uid w) as Ho. rewrite Hrun in Ho.
  destruct Ho as (? & [= <-] & _ & [[? _]|(_ & b & bs & Hsel & _ & Hc)]);
    [done|].
  assert (Pg.select_booking bid uid (committed w2) =
            with_status CANCELLED <$> b :: bs) as Hs2
    by (by rewrite Hsame, Hc, select_booking_cancelled, Hsel).
  split.
  - unfold cancelBooking. munfold. rewrite Hs2. cbn [fmap list_fmap].
    wsimpl. rewrite decide_True by done. reflexivity.
  - unfold confirmBooking. munfold. rewrite Hs2. cbn [fmap list_fmap].
    wsimpl. rewrite decide_True by done. reflexivity.
Qed.

Lemma cancelled_booking_rejects_cancel_and_confirm_witness :
  let w := Sample.world Sample.db_held Sample.locks_held 5000 [] in
  let w1 := (cancelBooking 1 7 w).2 in
  let w2 := set_faults [true] w1 in
  cancelBooking 1 7 w2 =
    (Ok (Json 400 (Message "Booking is already cancelled")),
     set_session (committed w2) w2) ∧
  confirmBooking 1 7 w2 =
    (Ok (Json 400 (Message "Booking is not in pending status")),
     set_session (committed w2) w2).
Proof.
  intros w w1 w2.
  apply (cancelled_booking_rejects_cancel_and_confirm 1 7 w w1 w2
           (Json 200
              (BookingCancelled "Booking cancelled successfully" 1
                 [mkSeatDetail 1 "A" 1; mkSeatDetail 2 "A" 2])));
    [vm_compute; reflexivity|reflexivity|reflexivity].
Defined.

(** ** What a grant takes, and what it leaves alone *)

(** An acquisition that ends with every key set found each key free, set
    each to the requester's id with the hold time, and touched no other
    key. *)
Lemma acquire_locks_granted sid uid t all todo locked keys w l w' :
  acquire_locks sid uid t all todo locked keys w = (Ok (inl l), w') →
  (∀ s, s ∈ todo → redis w !! seat_lock_key sid s = None) ∧
  (∀ key,
     redis w' !! key =
       if decide (key ∈ seat_lock_key sid <$> todo)
       then Some (mkEntry (pretty uid) (Some t)) else redis w !! key).
Proof.
  revert locked keys w. induction todo as [|s todo IH]; intros locked keys w.
  - cbn. intros [= <- <-]. split; [by intros s Hs%elem_of_nil|].
    intros key. by rewrite decide_False by apply not_elem_of_nil.
  - cbn [acquire_locks]. unfold bind at 1. unfold Redis.set_ex_nx, round_trip.
    assert (∀ w0 : World, redis w0 = redis w →
      match
        match redis w0 !! seat_lock_key sid s with
        | Some _ => (Ok false, w0)
        | None =>
            (Ok true,
             set_redis
               (<[seat_lock_key sid s := mkEntry (pretty uid) (Some t)]>
                  (redis w0)) w0)
        end
      with
      | (Ok lockResult, w1) =>
          (if lockResult : bool
           then acquire_locks sid uid t all todo (locked ++ [s])
                  (keys ++ [seat_lock_key sid s])
           else
             release_locks keys ;;;
             Pg.ROLLBACK ;;;
             ret (inr (Json 409
               (FailedSeats "Some seats are no longer available"
                  (filter (fun id => id ∉ locked) all))))) w1
      | (Thrown, w1) => (Thrown, w1)
      end = (Ok (inl l), w') →
      (∀ s0, s0 ∈ s :: todo → redis w !! seat_lock_key sid s0 = None) ∧
      (∀ key,
         redis w' !! key =
           if decide (key ∈ seat_lock_key sid <$> s :: todo)
           then Some (mkEntry (pretty uid) (Some t)) else redis w !! key))
      as Hstep.
    { intros w0 Hr0. destruct (redis w0 !! seat_lock_key sid s) eqn:Hk.
      - munfold. destruct (release_locks keys w0) as [[[]|] w2]; done.
      - intros Hrun. apply IH in Hrun as [Hfree Hset]. wsimpl.
        rewrite Hr0 in *. split.
        + intros s0 [->|Hin]%elem_of_cons; [done|].
          specialize (Hfree s0 Hin).
          destruct (decide (seat_lock_key sid s = seat_lock_key sid s0))
            as [Heq|Hne].
          * rewrite Heq, lookup_insert_eq in Hfree. done.
          * by rewrite lookup_insert_ne in Hfree.
        + intros key. rewrite Hset. cbn [fmap list_fmap].
          destruct (decide (key ∈ seat_lock_key sid <$> todo)) as [Hin|Hout].
          * by rewrite decide_True by (by right).
          * destruct (decide (key = seat_lock_key sid s)) as [->|Hne].
            -- rewrite decide_True by left. apply lookup_insert_eq.
            -- rewrite decide_False by (rewrite elem_of_cons; tauto).
               by apply lookup_insert_ne. }
    destruct (faults w) as [|[] fs].
    + by apply Hstep.
    + done.
    + by apply (Hstep (set_faults fs w)).
Qed.

Lemma upsert_locked_row_frame sid bid now rows seat row :
  row ∈ rows → ¬ (ss_show_id row = sid ∧ ss_seat_id row = seat) →
  row ∈ Pg.upsert_locked_row sid bid now rows seat.
Proof.
  intros Hin Hno. unfold Pg.upsert_locked_row.
  destruct (decide (Exists _ rows)) as [_|_].
  - apply list_elem_of_fmap. exists row. split; [|done].
    by rewrite decide_False.
  - apply elem_of_app. by left.
Qed.

Lemma upsert_locked_frame sid bid now ids rows row :
  row ∈ rows → (ss_show_id row = sid → ss_seat_id row ∉ ids) →
  row ∈ foldl (Pg.upsert_locked_row sid bid now) rows ids.
Proof.
  revert rows. induction ids as [|i ids IH]; intros rows Hin Hno; [done|].
  cbn [foldl]. apply IH.
  - apply upsert_locked_row_frame; [done|]. intros [Hs Hi].
    apply (Hno Hs). rewrite Hi. left.
  - intros Hs Hi. apply (Hno Hs). by right.
Qed.

(** The seats the acquisition loop visits are requested seats. *)
Lemma visited_seat_is_requested sid (ids : list Z) (d : Db) s :
  let rows := Pg.select_show_seats_for_update sid ids d in
  s ∈ ((ss_seat_id <$> rows) ++
       filter (fun seatId => seatId ∉ ss_seat_id <$> rows) ids)%list →
  s ∈ ids.
Proof.
  intros rows [Hin|Hin]%elem_of_app.
  - apply list_elem_of_fmap in Hin as (row & -> & Hrow).
    apply list_elem_of_filter in Hrow. tauto.
  - apply list_elem_of_filter in Hin. tauto.
Qed.

(** Every way [lockSeats] can answer 200. *)
Lemma lockSeats_granted sid ids uid w resp w' :
  lockSeats sid ids uid w = (Ok resp, w') → status resp = 200 →
  ∃ seat_ids w1,
    ids = Some seat_ids ∧ seat_ids ≠ [] ∧
    let rows := Pg.select_show_seats_for_update sid seat_ids (committed w) in
    let all : list Z :=
      ((ss_seat_id <$> rows) ++
       filter (fun seatId => seatId ∉ ss_seat_id <$> rows) seat_ids)%list in
    Pg.select_show sid (committed w) ≠ [] ∧
    filter (fun row => ss_status row ≠ AVAILABLE) rows = [] ∧
    (∀ s, s ∈ all → s ∈ ss_seat_id <$> rows ∨
                    s ∈ seat_id <$> seats (committed w)) ∧
    acquire_locks sid uid 600 all all [] [] (set_session (committed w) w) =
      (Ok (inl all), w1) ∧
    session w1 = committed w ∧ clock w1 = clock w ∧
    resp = Json 200
      (SeatsLocked "Seats locked successfully" (bookings_seq (committed w))
         (seat_detail <$> Pg.select_seats all (granted sid uid all w1)) 600) ∧
    w' = set_committed (granted sid uid all w1)
           (set_session (granted sid uid all w1) w1).
Proof.
  intros Hrun H200.
  destruct ids as [ids|]; [|cbn in Hrun; injection Hrun as <- <-; done].
  destruct (decide (ids = [])) as [->|Hne];
    [cbn in Hrun; injection Hrun as <- <-; done|].
  rewrite lockSeats_cases in Hrun by done.
  destruct (decide (Pg.select_show sid (committed w) = [])) as [Hshow|Hshow];
    [injection Hrun as <- <-; done|].
  destruct (decide (filter _ _ = [])) as [Hun|Hun];
    [|injection Hrun as <- <-; done].
  destruct (decide (filter _ _ = [])) as [Hinv|Hinv];
    [|injection Hrun as <- <-; done].
  match type of Hrun with context [acquire_locks ?s ?u ?t ?a ?a ?l ?k ?w1] =>
    pose proof (acquire_locks_outcome s u t a a l k w1) as Hout;
    destruct (acquire_locks s u t a a l k w1) as [[[locked|r409]|] w2] eqn:Hacq
  end; wsimpl.
  - destruct Hout as (Hc & Hk & Hl & Hs). cbn [app] in Hl. subst locked.
    injection Hrun as <- <-. exists ids, w2.
    split_and!; try done; [|by rewrite Hs].
    intros s [Hrow|Hnew]%elem_of_app; [by left|right].
    destruct (decide (s ∈ seat_id <$>
                Pg.select_seats
                  (filter (λ seatId, seatId ∉ ss_seat_id <$>
                     Pg.select_show_seats_for_update sid ids (committed w))
                     ids) (committed w))) as [Hv|Hv].
    + apply list_elem_of_fmap in Hv as (seat & -> & Hseat).
      apply list_elem_of_filter in Hseat as [_ Hseat].
      by apply list_elem_of_fmap_2.
    + exfalso.
      assert (s ∈ filter
                (λ id, id ∉ seat_id <$>
                   Pg.select_seats
                     (filter (λ seatId, seatId ∉ ss_seat_id <$>
                        Pg.select_show_seats_for_update sid ids (committed w))
                        ids) (committed w))
                (filter (λ seatId, seatId ∉ ss_seat_id <$>
                   Pg.select_show_seats_for_update sid ids (committed w)) ids))
        as Hx by (by apply list_elem_of_filter).
      rewrite Hinv in Hx. by apply elem_of_nil in Hx.
  - destruct Hout as (_ & _ & (failed & ->) & _). injection Hrun as <- <-.
    done.
  - injection Hrun as <- <-. done.
Qed.

Lemma granted_show_seats sid uid locked w :
  show_seats (granted sid uid locked w) =
  foldl (Pg.upsert_locked_row sid (bookings_seq (session w)) (clock w))
    (show_seats (session w)) locked.
Proof.
  unfold granted. case_bool_decide as Hl; [done|].
  destruct locked; [done|]. cbn in Hl. lia.
Qed.

Lemma granted_bookings sid uid locked w :
  bookings (granted sid uid locked w) =
  (bookings (session w) ++
     [mkBooking (bookings_seq (session w)) uid sid PENDING (clock w)])%list.
Proof. unfold granted. by case_bool_decide. Qed.

(** Every answer of [lockSeats] other than 200 commits nothing. *)
Lemma lockSeats_refused sid ids uid w :
  let '(r, w') := lockSeats sid ids uid w in
  ∃ resp, r = Ok resp ∧ (status resp ≠ 200 → committed w' = committed w).
Proof.
  destruct ids as [ids|]; [|cbn; by eauto].
  destruct (decide (ids = [])) as [->|Hne]; [cbn; by eauto|].
  rewrite lockSeats_cases by done.
  repeat case_decide; try by eauto.
  match goal with |- context [acquire_locks ?s ?u ?t ?a ?a ?l ?k ?w1] =>
    pose proof (acquire_locks_outcome s u t a a l k w1) as Hout;
    destruct (acquire_locks s u t a a l k w1) as [[[locked|resp]|] w2]
  end; wsimpl.
  - eexists. split; [done|]. intros Hn. by exfalso.
  - destruct Hout as (Hc & _). eauto.
  - destruct Hout as (Hc & _). eauto.
Qed.

(** X13: A lock request never takes a seat somebody holds.  Whatever the request,
    the lock store and the fault plan, and whatever the answer: every
    committed seat row that is LOCKED or BOOKED is still there unchanged,
    with its owner and timestamp; so is every seat row of another show and
    every row of a seat that was not requested; and the bookings table is
    either unchanged or has grown by exactly one row at its end, the PENDING
    booking of the requester for the show, with the next id of the serial
    and the time of the call. *)
Theorem lockSeats_leaves_held_seats
    (sid : Z) (ids : option (list Z)) (uid : Z) (w : World) :
  let '(_, w') := lockSeats sid ids uid w in
  (∀ row, row ∈ show_seats (committed w) → ss_status row ≠ AVAILABLE →
     row ∈ show_seats (committed w')) ∧
  (∀ row, row ∈ show_seats (committed w) →
     ss_show_id row ≠ sid ∨ (∀ l, ids = Some l → ss_seat_id row ∉ l) →
     row ∈ show_seats (committed w')) ∧
  (bookings (committed w') = bookings (committed w) ∨
   bookings (committed w') =
     (bookings (committed w) ++
        [mkBooking (bookings_seq (committed w)) uid sid PENDING (clock w)])
     %list).
Proof.
  destruct (lockSeats sid ids uid w) as [r w'] eqn:Hrun.
  pose proof (lockSeats_refused sid ids uid w) as He. rewrite Hrun in He.
  destruct He as (resp & -> & He).
  destruct (decide (status resp = 200)) as [H200|Hn200].
  - destruct (lockSeats_granted _ _ _ _ _ _ Hrun H200)
      as (l & w1 & -> & Hne & _ & Hun & _ & _ & Hs & Hk & _ & ->).
    wsimpl. rewrite granted_show_seats, granted_bookings, Hs, Hk.
    split_and!.
    + intros row Hin Hst. apply upsert_locked_frame; [done|].
      intros Hsid Hvis. pose proof Hvis as Hreq.
      apply visited_seat_is_requested in Hreq.
      assert (row ∈ filter (λ row, ss_status row ≠ AVAILABLE)
                (Pg.select_show_seats_for_update sid l (committed w))) as Hx.
      { apply list_elem_of_filter. split; [done|].
        by apply list_elem_of_filter. }
      rewrite Hun in Hx. by apply elem_of_nil in Hx.
    + intros row Hin Hother. apply upsert_locked_frame; [done|].
      intros Hsid Hvis. apply visited_seat_is_requested in Hvis.
      destruct Hother as [Hother|Hother]; [done|]. by apply (Hother l).
    + by right.
  - rewrite (He Hn200). split_and!; [done|done|by left].
Qed.

(** X14: A grant holds the lock entries.  Whenever a lock request is answered
    200, whatever the fault plan: the lock key of every requested seat was
    free before the call and holds the requester's id with a 600 s time to
    live after it, and no other key of the lock store changed.  So a seat
    whose key is held by anyone, the requester included, is never granted. *)
Theorem lockSeats_grant_holds_the_lock_entries
    (sid uid : Z) (ids : list Z) (w : World) (resp : Response) (w' : World) :
  lockSeats sid (Some ids) uid w = (Ok resp, w') →
  status resp = 200 →
  (∀ s, s ∈ ids →
     redis w !! seat_lock_key sid s = None ∧
     redis w' !! seat_lock_key sid s = Some (mkEntry (pretty uid) (Some 600))) ∧
  (∀ key, key ∉ seat_lock_key sid <$> ids → redis w' !! key = redis w !! key).
Proof.
  intros Hrun H200.
  destruct (lockSeats_granted _ _ _ _ _ _ Hrun H200)
    as (l & w1 & [= <-] & Hne & _ & _ & _ & Hacq & _ & _ & _ & ->).
  apply acquire_locks_granted in Hacq as [Hfree Hset]. wsimpl. split.
  - intros s Hs.
    pose proof (requested_seat_is_visited ids
                  (Pg.select_show_seats_for_update sid ids (committed w)) s Hs)
      as Hvis.
    split; [by apply Hfree|].
    rewrite Hset, decide_True; [done|]. by apply list_elem_of_fmap_2.
  - intros key Hkey. rewrite Hset, decide_False; [done|].
    intros (s & -> & Hvis)%list_elem_of_fmap. apply Hkey.
    apply list_elem_of_fmap_2. by apply visited_seat_is_requested in Hvis.
Qed.

Lemma lockSeats_grant_holds_the_lock_entries_witness :
  let w := Sample.world Sample.db0 ∅ 1000 [] in
  let w' := (lockSeats 1 (Some [1; 2]) 7 w).2 in
  redis w' !! "seat_lock:1:1" = Some (mkEntry "7" (Some 600)) ∧
  redis w' !! "seat_lock:1:2" = Some (mkEntry "7" (Some 600)) ∧
  redis w' !! "seat_lock:1:3" = None.
Proof.
  intros w w'.
  destruct (lockSeats_grant_holds_the_lock_entries 1 7 [1; 2] w
              (Json 200
                 (SeatsLocked "Seats locked successfully" 1
                    [mkSeatDetail 1 "A" 1; mkSeatDetail 2 "A" 2] 600))
              w' ltac:(vm_compute; reflexivity) eq_refl) as [Hheld Hrest].
  split_and!.
  - apply (Hheld 1). apply list_elem_of_In. cbn. tauto.
  - apply (Hheld 2). apply list_elem_of_In. cbn. tauto.
  - rewrite Hrest; [reflexivity|].
    intros Hin%list_elem_of_In. vm_compute in Hin.
    destruct Hin as [Hin|[Hin|[]]]; discriminate Hin.
Defined.

(** ** Invariants of the committed tables *)

Lemma cancelled_swept b d : cancelled (booking_id b) d = swept d b.
Proof. reflexivity. Qed.

Lemma upsert_locked_row_keys sid bid now rows seat :
  let key := fun row => (ss_show_id row, ss_seat_id row) in
  key <$> Pg.upsert_locked_row sid bid now rows seat =
    if decide ((sid, seat) ∈ key <$> rows) then key <$> rows
    else ((key <$> rows) ++ [(sid, seat)])%list.
Proof.
  intros key. unfold Pg.upsert_locked_row.
  destruct (decide (Exists _ rows)) as [Hex|Hex].
  - rewrite decide_True.
    2:{ apply Exists_exists in Hex as (r & Hr & Hs & Hi).
        apply list_elem_of_fmap. exists r. split; [|done].
        unfold key. by rewrite Hs, Hi. }
    rewrite <- list_fmap_compose. apply list_fmap_ext.
    intros _ row _. cbn. by case_decide.
  - rewrite decide_False.
    2:{ intros (r & Hk & Hr)%list_elem_of_fmap. apply Hex.
        apply Exists_exists. exists r. split; [done|].
        unfold key in Hk. by injection Hk as -> ->. }
    by rewrite fmap_app.
Qed.

Lemma upsert_locked_row_pkey sid bid now rows seat :
  NoDup ((fun row => (ss_show_id row, ss_seat_id row)) <$> rows) →
  NoDup ((fun row => (ss_show_id row, ss_seat_id row))
           <$> Pg.upsert_locked_row sid bid now rows seat).
Proof.
  intros Hnd. rewrite upsert_locked_row_keys.
  case_decide as Hin; [done|].
  apply NoDup_app. split_and!; [done| |apply NoDup_singleton].
  intros k Hk ->%list_elem_of_singleton. done.
Qed.

Lemma upsert_locked_pkey sid bid now ids rows :
  NoDup ((fun row => (ss_show_id row, ss_seat_id row)) <$> rows) →
  NoDup ((fun row => (ss_show_id row, ss_seat_id row))
           <$> foldl (Pg.upsert_locked_row sid bid now) rows ids).
Proof.
  revert rows. induction ids as [|i ids IH]; intros rows Hnd; [done|].
  cbn [foldl]. apply IH. by apply upsert_locked_row_pkey.
Qed.

Lemma granted_pkey sid uid locked w :
  show_seats_pkey (session w) → show_seats_pkey (granted sid uid locked w).
Proof.
  unfold show_seats_pkey. rewrite granted_show_seats.
  apply upsert_locked_pkey.
Qed.

Lemma confirmed_keys bid d :
  (fun row => (ss_show_id row, ss_seat_id row)) <$> show_seats (confirmed bid d)
  = (fun row => (ss_show_id row, ss_seat_id row)) <$> show_seats d.
Proof.
  cbn. rewrite <- list_fmap_compose. apply list_fmap_ext.
  intros _ row _. cbn. by case_decide.
Qed.

Lemma swept_keys d b :
  (fun row => (ss_show_id row, ss_seat_id row)) <$> show_seats (swept d b)
  = (fun row => (ss_show_id row, ss_seat_id row)) <$> show_seats d.
Proof.
  cbn. rewrite <- list_fmap_compose. apply list_fmap_ext.
  intros _ row _. cbn. by case_decide.
Qed.

Lemma swept_all_pkey expired d :
  show_seats_pkey d → show_seats_pkey (foldl swept d expired).
Proof.
  revert d. induction expired as [|b expired IH]; intros d H; [done|].
  cbn [foldl]. apply IH. unfold show_seats_pkey. by rewrite swept_keys.
Qed.

(** X15: The primary key of [show_seats] survives every operation: if no two
    committed seat rows share (show_id, seat_id), the same holds after a
    lock, confirm, cancel or sweep, whatever the lock store and the fault
    plan.  In particular the upsert of a grant never adds a second row for a
    seat of the show. *)
Theorem operations_keep_show_seats_pkey (op : Op) (w : World) :
  show_seats_pkey (committed w) → show_seats_pkey (committed (run op w)).
Proof.
  intros H. destruct op as [sid ids uid|bid uid|bid uid|]; cbn [run].
  - pose proof (lockSeats_effect sid ids uid w) as He.
    destruct (lockSeats sid ids uid w) as [r w']; cbn [snd].
    destruct He as (resp & _ & [->|(locked & ->)]); [done|].
    by apply granted_pkey.
  - pose proof (confirmBooking_outcome bid uid w) as He.
    destruct (confirmBooking bid uid w) as [r w']; cbn [snd].
    destruct He as (resp & _ & _ & [[_ ->]|(_ & b & bs & _ & _ & _ & _ & ->)]);
      [done|].
    unfold show_seats_pkey. by rewrite confirmed_keys.
  - pose proof (cancelBooking_outcome bid uid w) as He.
    destruct (cancelBooking bid uid w) as [r w']; cbn [snd].
    destruct He as (resp & _ & _ & [[_ ->]|(_ & b & bs & Hsel & _ & ->)]);
      [done|].
    apply select_booking_head in Hsel as (_ & <- & _).
    rewrite cancelled_swept. unfold show_seats_pkey. by rewrite swept_keys.
  - pose proof (cleanupExpiredBookings_effect w) as He.
    destruct (cleanupExpiredBookings w) as [[[]|] w']; cbn [snd];
      rewrite He; [|done].
    by apply swept_all_pkey.
Qed.

Lemma operations_keep_show_seats_pkey_witness :
  show_seats_pkey
    (committed
       (run (Lock 1 (Some [2; 9]) 7) (Sample.world Sample.db0 ∅ 1000 []))).
Proof.
  apply (operations_keep_show_seats_pkey (Lock 1 (Some [2; 9]) 7)
           (Sample.world Sample.db0 ∅ 1000 [])).
  unfold show_seats_pkey. apply (bool_decide_unpack _). by vm_compute.
Defined.

Lemma upsert_locked_row_origin sid bid now rows seat row :
  row ∈ Pg.upsert_locked_row sid bid now rows seat →
  row ∈ rows ∨ ∃ s, row = mkShowSeat sid s LOCKED (Some bid) (Some now).
Proof.
  unfold Pg.upsert_locked_row. destruct (decide (Exists _ rows)) as [_|_].
  - intros (r & -> & Hr)%list_elem_of_fmap.
    case_decide as Hc; [|by left]. right. destruct Hc as [<- _]. by eexists.
  - intros [Hin|Hin]%elem_of_app; [by left|].
    apply list_elem_of_singleton in Hin as ->. right. by eexists.
Qed.

Lemma upsert_locked_origin sid bid now ids rows row :
  row ∈ foldl (Pg.upsert_locked_row sid bid now) rows ids →
  row ∈ rows ∨ ∃ s, row = mkShowSeat sid s LOCKED (Some bid) (Some now).
Proof.
  revert rows. induction ids as [|i ids IH]; intros rows Hin; [by left|].
  cbn [foldl] in Hin. apply IH in Hin as [Hin|Hin]; [|by right].
  by apply upsert_locked_row_origin in Hin.
Qed.

Lemma ownership_ok_row (d d' : Db) row :
  (∀ b, b ∈ bookings d → ss_booking_id row = Some (booking_id b) →
     ∃ b', b' ∈ bookings d' ∧ booking_id b' = booking_id b ∧
           b_status b' = b_status b) →
  match ss_status row with
  | AVAILABLE => ss_booking_id row = None
  | LOCKED => owned_by d row PENDING
  | BOOKED => owned_by d row CONFIRMED
  end →
  match ss_status row with
  | AVAILABLE => ss_booking_id row = None
  | LOCKED => owned_by d' row PENDING
  | BOOKED => owned_by d' row CONFIRMED
  end.
Proof.
  intros Hkeep. destruct (ss_status row); [done| |];
    intros (b & Hb & Hid & Hst);
    destruct (Hkeep b Hb Hid) as (b' & Hb' & Hid' & Hst');
    exists b'; (split_and!; [done|congruence|congruence]).
Qed.

Lemma granted_ownership sid uid locked w :
  ownership_ok (session w) → ownership_ok (granted sid uid locked w).
Proof.
  intros Hok row. rewrite granted_show_seats.
  intros [Hin|(s & ->)]%upsert_locked_origin.
  - apply (ownership_ok_row (session w)); [|by apply Hok].
    intros b Hb _. exists b. split; [|done].
    rewrite granted_bookings. apply elem_of_app. by left.
  - cbn. exists (mkBooking (bookings_seq (session w)) uid sid PENDING (clock w)).
    split_and!; [|reflexivity|reflexivity].
    rewrite granted_bookings. apply elem_of_app. right. left.
Qed.

Lemma confirmed_ownership bid d :
  ownership_ok d → ownership_ok (confirmed bid d).
Proof.
  intros Hok row (row0 & -> & Hin)%list_elem_of_fmap.
  specialize (Hok row0 Hin).
  cbn [bookings show_seats Pg.update_booking_status Pg.set_bookings] in *.
  destruct (decide (ss_booking_id row0 = Some bid)) as [Hb|Hb].
  - cbn [ss_status]. destruct (ss_status row0).
    + congruence.
    + destruct Hok as (b & Hbin & Hid & Hst).
      exists (with_status CONFIRMED b). split_and!; [|done|done].
      apply (update_booking_status_moves CONFIRMED bid d b); [done|congruence].
    + destruct Hok as (b & Hbin & Hid & Hst).
      exists (with_status CONFIRMED b). split_and!; [|done|done].
      apply (update_booking_status_moves CONFIRMED bid d b); [done|congruence].
  - apply (ownership_ok_row d); [|done].
    intros b Hbin Hid. exists b. split; [|done].
    apply (update_booking_status_keeps CONFIRMED bid d b); [done|].
    left. congruence.
Qed.

Lemma swept_ownership d e : ownership_ok d → ownership_ok (swept d e).
Proof.
  intros Hok row (row0 & -> & Hin)%list_elem_of_fmap.
  specialize (Hok row0 Hin).
  destruct (decide (ss_booking_id row0 = Some (booking_id e))) as [Hb|Hb].
  - done.
  - apply (ownership_ok_row d); [|done].
    intros b Hbin Hid. exists b. split; [|done].
    apply (update_booking_status_keeps CANCELLED (booking_id e)
             (Pg.release_seats (booking_id e) d) b); [done|].
    left. congruence.
Qed.

Lemma swept_all_ownership expired d :
  ownership_ok d → ownership_ok (foldl swept d expired).
Proof.
  revert d. induction expired as [|b expired IH]; intros d H; [done|].
  cbn [foldl]. apply IH. by apply swept_ownership.
Qed.

(** X16: Seats and bookings stay in step.  If in the committed tables every
    AVAILABLE seat row has no owner, every LOCKED row is owned by a PENDING
    booking and every BOOKED row by a CONFIRMED booking, then the same holds
    after a lock, confirm, cancel or sweep, whatever the lock store and the
    fault plan: no operation leaves a held seat without its booking, or a
    seat held for a cancelled booking. *)
Theorem operations_keep_ownership (op : Op) (w : World) :
  ownership_ok (committed w) → ownership_ok (committed (run op w)).
Proof.
  intros H. destruct op as [sid ids uid|bid uid|bid uid|]; cbn [run].
  - pose proof (lockSeats_effect sid ids uid w) as He.
    destruct (lockSeats sid ids uid w) as [r w']; cbn [snd].
    destruct He as (resp & _ & [->|(locked & ->)]); [done|].
    by apply granted_ownership.
  - pose proof (confirmBooking_outcome bid uid w) as He.
    destruct (confirmBooking bid uid w) as [r w']; cbn [snd].
    destruct He as (resp & _ & _ & [[_ ->]|(_ & b & bs & _ & _ & _ & _ & ->)]);
      [done|].
    by apply confirmed_ownership.
  - pose proof (cancelBooking_outcome bid uid w) as He.
    destruct (cancelBooking bid uid w) as [r w']; cbn [snd].
    destruct He as (resp & _ & _ & [[_ ->]|(_ & b & bs & Hsel & _ & ->)]);
      [done|].
    apply select_booking_head in Hsel as (_ & <- & _).
    rewrite cancelled_swept. by apply swept_ownership.
  - pose proof (cleanupExpiredBookings_effect w) as He.
    destruct (cleanupExpiredBookings w) as [[[]|] w']; cbn [snd];
      rewrite He; [|done].
    by apply swept_all_ownership.
Qed.

Lemma operations_keep_ownership_witness :
  ownership_ok
    (committed
       (run (Confirm 1 7)
          (Sample.world Sample.db_held Sample.locks_held 5000 []))).
Proof.
  apply (operations_keep_ownership (Confirm 1 7)
           (Sample.world Sample.db_held Sample.locks_held 5000 [])).
  intros row Hin. apply list_elem_of_In in Hin. cbn in Hin.
  destruct Hin as [<-|[<-|[<-|[]]]]; cbn.
  - exists (mkBooking 1 7 1 PENDING 1000). split_and!; [left|done|done].
  - exists (mkBooking 1 7 1 PENDING 1000). split_and!; [left|done|done].
  - exists (mkBooking 2 8 1 PENDING 2000).
    split_and!; [right; left|done|done].
Defined.

(** ** What the sweep spares, and what it leaves behind *)

Lemma swept_frame_rows expired d row :
  row ∈ show_seats d →
  (∀ e, e ∈ expired → ss_booking_id row ≠ Some (booking_id e)) →
  row ∈ show_seats (foldl swept d expired).
Proof.
  revert d. induction expired as [|e expired IH]; intros d Hin Hno; [done|].
  cbn [foldl]. apply IH.
  - cbn. apply list_elem_of_fmap. exists row. split; [|done].
    rewrite decide_False; [done|]. apply Hno. left.
  - intros e' He'. apply Hno. by right.
Qed.

Lemma swept_booking_origin expired d b :
  b ∈ bookings (foldl swept d expired) →
  b_status b = CANCELLED ∨
  b ∈ bookings d ∧ ∀ e, e ∈ expired → booking_id e ≠ booking_id b.
Proof.
  revert d. induction expired as [|e expired IH]; intros d Hin.
  - right. split; [done|]. by intros e He%elem_of_nil.
  - cbn [foldl] in Hin. apply IH in Hin as [Hc|[Hin Hrest]]; [by left|].
    cbn in Hin. apply list_elem_of_fmap in Hin as (b0 & -> & Hb0).
    case_decide as Hid; [by left|]. right. split; [done|].
    intros e' [->|He']%elem_of_cons; [done|]. by apply Hrest.
Qed.

(** X17: The sweep spares what has not expired.  Whatever the lock store and the
    fault plan, and whether the sweep commits or is rolled back: with
    [booking_id] the primary key of bookings, every booking that is not
    PENDING, or was created no more than 600000 ms before the sweep, is
    still there unchanged, and so is every seat row that is not owned by a
    PENDING booking older than that; in particular no CONFIRMED booking and
    no BOOKED seat is touched. *)
Theorem sweep_spares_live_bookings (w : World) :
  bookings_pkey (committed w) →
  let '(_, w') := cleanupExpiredBookings w in
  (∀ b, b ∈ bookings (committed w) →
     b_status b ≠ PENDING ∨ clock w - 600000 <= created_at b →
     b ∈ bookings (committed w')) ∧
  (∀ row, row ∈ show_seats (committed w) →
     (∀ b, b ∈ bookings (committed w) →
        ss_booking_id row = Some (booking_id b) →
        b_status b ≠ PENDING ∨ clock w - 600000 <= created_at b) →
     row ∈ show_seats (committed w')).
Proof.
  intros Hpk. pose proof (cleanupExpiredBookings_effect w) as He.
  destruct (cleanupExpiredBookings w) as [[[]|] w']; rewrite He; [|done].
  split.
  - intros b Hin Hlive. apply swept_keeps_booking; [done|]. right.
    intros e [[Hp Hold] He']%list_elem_of_filter Hid.
    assert (e = b) as -> by (by apply (bookings_pkey_inj (bookings (committed w)))).
    destruct Hlive; [done|lia].
  - intros row Hin Hlive. apply swept_frame_rows; [done|].
    intros e [[Hp Hold] He']%list_elem_of_filter Hid.
    destruct (Hlive e He' Hid); [done|lia].
Qed.

Lemma sweep_spares_live_bookings_witness :
  let w := Sample.world Sample.db_held Sample.locks_held 601500 [] in
  let w' := (cleanupExpiredBookings w).2 in
  mkBooking 2 8 1 PENDING 2000 ∈ bookings (committed w') ∧
  mkShowSeat 1 3 LOCKED (Some 2) (Some 2000) ∈ show_seats (committed w').
Proof.
  intros w w'.
  assert (bookings_pkey (committed w)) as Hpk
    by (apply (bool_decide_unpack _); by vm_compute).
  pose proof (sweep_spares_live_bookings w Hpk) as H.
  fold w' in H. change (cleanupExpiredBookings w) with
    ((cleanupExpiredBookings w).1, w') in H.
  destruct H as [Hb Hrow]. split.
  - apply Hb; [right; left|]. right. cbn. lia.
  - apply Hrow; [right; right; left|].
    intros b Hin%list_elem_of_In Hid. cbn in Hin.
    destruct Hin as [<-|[<-|[]]]; cbn in Hid; [discriminate|].
    right. cbn. lia.
Defined.

(** X18: The sweep leaves nothing to sweep.  After a sweep that returned, no
    committed booking is both PENDING and older than the timeout at the time
    of the sweep, or at any earlier time; so a second sweep that finds the
    same tables at the same or an earlier clock reading commits no change,
    whatever the lock store does. *)
Theorem sweep_leaves_nothing_to_sweep (w w' : World) (now : Z) :
  cleanupExpiredBookings w = (Ok tt, w') →
  now <= clock w →
  Pg.select_expired_bookings 10 now (committed w') = [] ∧
  ∀ w2, committed w2 = committed w' → clock w2 = now →
    committed (cleanupExpiredBookings w2).2 = committed w2.
Proof.
  intros Hrun Hnow. pose proof (cleanupExpiredBookings_effect w) as He.
  rewrite Hrun in He.
  assert (Pg.select_expired_bookings 10 now (committed w') = []) as Hnil.
  { destruct (Pg.select_expired_bookings 10 now (committed w')) as [|b l]
      eqn:Hsel; [done|exfalso].
    assert (b ∈ Pg.select_expired_bookings 10 now (committed w')) as Hb
      by (rewrite Hsel; left).
    apply list_elem_of_filter in Hb as [[Hp Hold] Hin].
    rewrite He in Hin.
    apply swept_booking_origin in Hin as [Hc|[Hin Hno]]; [congruence|].
    apply (Hno b); [|done]. apply list_elem_of_filter. split; [|done].
    split; [done|lia]. }
  split; [done|]. intros w2 Hsame Hclock.
  pose proof (cleanupExpiredBookings_effect w2) as He2.
  destruct (cleanupExpiredBookings w2) as [[[]|] w3]; cbn [snd];
    rewrite He2; [|done].
  by rewrite Hsame, Hclock, Hnil.
Qed.

Lemma sweep_leaves_nothing_to_sweep_witness :
  let w := Sample.world Sample.db_held Sample.locks_held 700000 [] in
  let w' := (cleanupExpiredBookings w).2 in
  Pg.select_expired_bookings 10 700000 (committed w') = [].
Proof.
  intros w w'.
  apply (sweep_leaves_nothing_to_sweep w w' 700000);
    [vm_compute; reflexivity|cbn; lia].
Defined.

Lemma release_seat_locks_no_fault sid rows w :
  faults w = [] →
  release_seat_locks sid rows w =
    (Ok tt,
     set_redis
       (foldl (fun r k => delete k r) (redis w)
          ((fun row => seat_lock_key sid (ss_seat_id row)) <$> rows)) w).
Proof.
  revert w. induction rows as [|row rows IH]; intros w Hf.
  - by destruct w.
  - cbn [release_seat_locks foldl fmap list_fmap]. unfold bind, Redis.del.
    rewrite round_trip_no_fault by done. unfold modify.
    rewrite IH by done. reflexivity.
Qed.

Lemma cleanup_each_no_fault expired w :
  faults w = [] →
  ∃ w', cleanup_each expired w = (Ok tt, w') ∧ faults w' = [] ∧
    ∀ key,
      redis w' !! key =
        if decide (key ∈ sweep_keys (session w) expired) then None
        else redis w !! key.
Proof.
  revert w. induction expired as [|e expired IH]; intros w Hf.
  - exists w. split_and!; [done..|]. intros key.
    by rewrite decide_False by apply not_elem_of_nil.
  - cbn [cleanup_each sweep_keys]. munfold.
    rewrite release_seat_locks_no_fault by done.
    match goal with |- context [cleanup_each expired ?w1] =>
      destruct (IH w1 Hf) as (w' & -> & Hf' & Hkeys)
    end.
    exists w'. split_and!; [done..|]. intros key. rewrite Hkeys. wsimpl.
    rewrite lookup_foldl_delete. fold (swept (session w) e).
    destruct (decide (key ∈ sweep_keys (swept (session w) e) expired))
      as [Hin|Hout].
    + rewrite decide_True; [done|]. apply elem_of_app. by right.
    + case_decide as Hk.
      * rewrite decide_True; [done|]. apply elem_of_app. by left.
      * rewrite decide_False; [done|]. rewrite elem_of_app. tauto.
Qed.

Lemma sweep_keys_owner d expired key :
  key ∈ sweep_keys d expired →
  ∃ e row, e ∈ expired ∧ row ∈ show_seats d ∧
    ss_booking_id row = Some (booking_id e) ∧
    key = seat_lock_key (b_show_id e) (ss_seat_id row).
Proof.
  revert d. induction expired as [|e expired IH]; intros d Hin.
  - by apply elem_of_nil in Hin.
  - cbn [sweep_keys] in Hin. apply elem_of_app in Hin as [Hin|Hin].
    + apply list_elem_of_fmap in Hin as (row & -> & Hrow).
      apply list_elem_of_filter in Hrow as [Hb Hrow].
      exists e, row. split_and!; [left|done..].
    + apply IH in Hin as (e' & row & He' & Hrow & Hb & ->).
      cbn in Hrow. apply list_elem_of_fmap in Hrow as (row0 & -> & Hrow0).
      case_decide as Hid; [done|].
      exists e', row0. split_and!; [by right|done..].
Qed.

Lemma sweep_keys_covers d expired e row :
  NoDup (booking_id <$> expired) →
  e ∈ expired → row ∈ show_seats d →
  ss_booking_id row = Some (booking_id e) →
  seat_lock_key (b_show_id e) (ss_seat_id row) ∈ sweep_keys d expired.
Proof.
  revert d. induction expired as [|e0 expired IH]; intros d Hnd He Hrow Hb.
  - by apply elem_of_nil in He.
  - cbn [sweep_keys]. cbn in Hnd. apply NoDup_cons in Hnd as [Hfresh Hnd].
    apply elem_of_app. apply elem_of_cons in He as [->|He].
    + left.
      apply (list_elem_of_fmap_2
               (fun row => seat_lock_key (b_show_id e0) (ss_seat_id row))).
      by apply list_elem_of_filter.
    + right. apply IH; [done..| |done].
      cbn. apply list_elem_of_fmap. exists row. split; [|done].
      rewrite decide_False; [done|]. rewrite Hb. intros [= Hid].
      apply Hfresh. rewrite <- Hid. by apply list_elem_of_fmap_2.
Qed.

(** ** The sweep and the lock store *)

Lemma Redis_del_store ks w :
  let '(r, w') := Redis.del ks w in
  match r with
  | Ok _ => redis w' = foldr delete (redis w) ks
  | Thrown => redis w' = redis w
  end.
Proof.
  unfold Redis.del, round_trip, throw, modify.
  by destruct (faults w) as [|[] fs].
Qed.

(** Whatever the lock store does, the release loop of the sweep deletes
    the keys of the rows it is given if it returns, and some of them if it
    throws. *)
Lemma release_seat_locks_store sid rows w :
  let keys := (fun row => seat_lock_key sid (ss_seat_id row)) <$> rows in
  let '(r, w') := release_seat_locks sid rows w in
  match r with
  | Ok _ => redis w' = foldl (fun r k => delete k r) (redis w) keys
  | Thrown =>
      ∀ key, redis w' !! key = redis w !! key ∨
             redis w' !! key = None ∧ key ∈ keys
  end.
Proof.
  revert w. induction rows as [|row rows IH]; intros w; [done|].
  cbn [release_seat_locks fmap list_fmap foldl]. unfold bind.
  pose proof (Redis_del_store [seat_lock_key sid (ss_seat_id row)] w) as Hd.
  destruct (Redis.del _ w) as [[[]|] w1].
  - cbn [foldr] in Hd. specialize (IH w1).
    destruct (release_seat_locks sid rows w1) as [[[]|] w2].
    + by rewrite IH, Hd.
    + intros key. destruct (IH key) as [Hsame|[Hnone Hin]].
      * rewrite Hsame, Hd.
        destruct (decide (key = seat_lock_key sid (ss_seat_id row)))
          as [->|Hne].
        -- right. split; [apply lookup_delete_eq|left].
        -- left. by apply lookup_delete_ne.
      * right. split; [done|by right].
  - intros key. left. by rewrite Hd.
Qed.

(** Whatever the lock store does, the loop of the sweep deletes exactly
    the keys of [sweep_keys] if it returns, and some of them if it
    throws. *)
Lemma cleanup_each_store expired w :
  let '(r, w') := cleanup_each expired w in
  match r with
  | Ok _ =>
      ∀ key,
        redis w' !! key =
          if decide (key ∈ sweep_keys (session w) expired) then None
          else redis w !! key
  | Thrown =>
      ∀ key, redis w' !! key = redis w !! key ∨
             redis w' !! key = None ∧ key ∈ sweep_keys (session w) expired
  end.
Proof.
  revert w. induction expired as [|e expired IH]; intros w.
  - cbn. intros key. by rewrite decide_False by apply not_elem_of_nil.
  - cbn [cleanup_each sweep_keys]. munfold.
    fold (swept (session w) e).
    match goal with |- context [release_seat_locks ?s ?rows ?w1] =>
      pose proof (release_seat_locks_store s rows w1) as Hrel;
      pose proof (release_seat_locks_same_db s rows w1) as (_ & Hs & _);
      destruct (release_seat_locks s rows w1) as [[[]|] w2]
    end; wsimpl.
    + specialize (IH w2). rewrite Hs in IH.
      destruct (cleanup_each expired w2) as [[[]|] w3].
      * intros key. rewrite IH, Hrel, lookup_foldl_delete.
        destruct (decide (key ∈ sweep_keys (swept (session w) e) expired))
          as [Hin|Hout].
        -- rewrite decide_True; [done|]. apply elem_of_app. by right.
        -- case_decide as Hk.
           ++ rewrite decide_True; [done|]. apply elem_of_app. by left.
           ++ rewrite decide_False; [done|]. rewrite elem_of_app. tauto.
      * intros key. destruct (IH key) as [Hsame|[Hnone Hin]].
        -- rewrite Hsame, Hrel, lookup_foldl_delete. case_decide as Hk.
           ++ right. split; [done|]. apply elem_of_app. by left.
           ++ by left.
        -- right. split; [done|]. apply elem_of_app. by right.
    + intros key. destruct (Hrel key) as [Hsame|[Hnone Hin]]; [by left|].
      right. split; [done|]. apply elem_of_app. by left.
Qed.

(** C5 as the code has it: one sweep is one transaction over all the expired
    PENDING bookings, and the lock entries are deleted inside it, booking by
    booking.  Either no round trip throws and the sweep commits the cleanup
    of every matching booking (each is CANCELLED, each of its seats is
    released) and has deleted exactly the lock entries of the seat rows the
    matching bookings owned when their turn came, all other entries being
    as before; or a round trip throws, and then the whole sweep is rolled
    back (the committed tables are those from before the sweep, also for
    the bookings already handled), the error is thrown on to the job
    runner, and the lock entries deleted before the error stay deleted.  On
    an empty fault plan the sweep commits. *)
Theorem sweep_commits_all_or_nothing
    (w : World) (r : Result unit) (w' : World) :
  cleanupExpiredBookings w = (r, w') →
  let expired := Pg.select_expired_bookings 10 (clock w) (committed w) in
  (r = Ok tt ∧ raised w' = raised w ∧
   committed w' = foldl swept (committed w) expired ∧
   (∀ e, e ∈ expired → with_status CANCELLED e ∈ bookings (committed w')) ∧
   (∀ e row, e ∈ expired → row ∈ show_seats (committed w) →
      ss_booking_id row = Some (booking_id e) →
      Pg.released row ∈ show_seats (committed w')) ∧
   (∀ key,
      redis w' !! key =
        if decide (key ∈ sweep_keys (committed w) expired) then None
        else redis w !! key) ∧
   (bookings_pkey (committed w) →
    ∀ e row, e ∈ expired → row ∈ show_seats (committed w) →
      ss_booking_id row = Some (booking_id e) →
      redis w' !! seat_lock_key (b_show_id e) (ss_seat_id row) = None) ∨
   r = Thrown ∧ raised w' = S (raised w) ∧ committed w' = committed w ∧
   (∀ key,
      redis w' !! key = redis w !! key ∨
      redis w' !! key = None ∧ key ∈ sweep_keys (committed w) expired)) ∧
  (faults w = [] → r = Ok tt).
Proof.
  intros Hrun expired.
  pose proof (cleanupExpiredBookings_effect w) as He.
  pose proof (counts_cleanupExpiredBookings w) as Hc.
  rewrite Hrun in He, Hc.
  assert (match r with
          | Ok _ =>
              ∀ key,
                redis w' !! key =
                  if decide (key ∈ sweep_keys (committed w) expired) then None
                  else redis w !! key
          | Thrown =>
              ∀ key,
                redis w' !! key = redis w !! key ∨
                redis w' !! key = None ∧
                key ∈ sweep_keys (committed w) expired
          end) as Hstore.
  { unfold cleanupExpiredBookings in Hrun. munfold. fold expired in Hrun.
    pose proof (cleanup_each_store expired (set_session (committed w) w))
      as Hs.
    destruct (cleanup_each expired (set_session (committed w) w))
      as [[[]|] w1]; injection Hrun as <- <-; exact Hs. }
  split.
  - destruct r as [[]|]; [left|right; done].
    split_and!; [done..| | | |].
    + intros e Hin. rewrite He. apply swept_cancels. left. split; [|done].
      apply list_elem_of_filter in Hin. tauto.
    + intros e row Hin Hrow Hb. rewrite He.
      apply (swept_releases _ _ e). by left.
    + exact Hstore.
    + intros Hpk e row Hin Hrow Hb. rewrite Hstore, decide_True; [done|].
      apply sweep_keys_covers; [|done..].
      eapply sublist_NoDup; [exact Hpk|].
      apply fmap_sublist, sublist_filter.
  - intros Hf. unfold cleanupExpiredBookings in Hrun. munfold.
    destruct (steady_cleanup_each expired (set_session (committed w) w) Hf)
      as ([] & w1 & Heach & _).
    fold expired in Hrun. rewrite Heach in Hrun. by injection Hrun as <- _.
Qed.

Lemma sweep_commits_all_or_nothing_witness :
  let w := Sample.world Sample.db_held Sample.locks_held 700000 [] in
  ∃ w',
    cleanupExpiredBookings w = (Ok tt, w') ∧
    mkBooking 1 7 1 CANCELLED 1000 ∈ bookings (committed w') ∧
    mkBooking 2 8 1 CANCELLED 2000 ∈ bookings (committed w') ∧
    redis w' !! "seat_lock:1:3" = None.
Proof.
  intros w. eexists. split; [vm_compute; reflexivity|].
  edestruct (sweep_commits_all_or_nothing w)
    as [[(_ & _ & _ & Hb & _ & Hkeys & _)|(Hr & _)] _];
    [vm_compute; reflexivity| |done].
  split_and!.
  - apply (Hb (mkBooking 1 7 1 PENDING 1000)).
    apply list_elem_of_In. vm_compute. tauto.
  - apply (Hb (mkBooking 2 8 1 PENDING 2000)).
    apply list_elem_of_In. vm_compute. tauto.
  - rewrite Hkeys. vm_compute. reflexivity.
Defined.

(** C5 as the specification words it fails on the code: bookings 1 and 2 are both
    expired; the deletes for the seats of booking 1 succeed and the delete
    for the seat of booking 2 throws.  The sweep does not go on: it rolls
    back and throws, and booking 1 is still PENDING with its seats LOCKED,
    while the lock entries of its seats are gone. *)
Lemma sweep_failure_undoes_other_bookings :
  let w :=
    Sample.world Sample.db_held Sample.locks_held 700000
      [false; false; true] in
  Pg.select_expired_bookings 10 (clock w) (committed w) =
    [mkBooking 1 7 1 PENDING 1000; mkBooking 2 8 1 PENDING 2000] ∧
  ∃ w',
    cleanupExpiredBookings w = (Thrown, w') ∧
    committed w' = Sample.db_held ∧
    mkBooking 1 7 1 PENDING 1000 ∈ bookings (committed w') ∧
    mkShowSeat 1 1 LOCKED (Some 1) (Some 1000) ∈ show_seats (committed w') ∧
    redis w' !! "seat_lock:1:1" = None ∧
    redis w' !! "seat_lock:1:2" = None.
Proof.
  intros w. split; [vm_compute; reflexivity|].
  eexists. split; [vm_compute; reflexivity|].
  split_and!; try (vm_compute; reflexivity);
    apply list_elem_of_In; vm_compute; tauto.
Qed.

(** X19: The sweep frees the lock entries.  When no round trip throws and
    [booking_id] is the primary key of bookings, the sweep returns, and for
    every PENDING booking older than the timeout the lock entry of each seat
    row it owned (the key built from the booking's show and the seat) is
    gone afterwards; every key that is not one of these is as it was. *)
Theorem sweep_frees_the_lock_entries (w : World) :
  faults w = [] →
  bookings_pkey (committed w) →
  let expired := Pg.select_expired_bookings 10 (clock w) (committed w) in
  let '(r, w') := cleanupExpiredBookings w in
  r = Ok tt ∧
  (∀ e row, e ∈ expired → row ∈ show_seats (committed w) →
     ss_booking_id row = Some (booking_id e) →
     redis w' !! seat_lock_key (b_show_id e) (ss_seat_id row) = None) ∧
  (∀ key,
     (∀ e row, e ∈ expired → row ∈ show_seats (committed w) →
        ss_booking_id row = Some (booking_id e) →
        key ≠ seat_lock_key (b_show_id e) (ss_seat_id row)) →
     redis w' !! key = redis w !! key).
Proof.
  intros Hf Hpk expired. unfold cleanupExpiredBookings. munfold.
  fold expired.
  destruct (cleanup_each_no_fault expired (set_session (committed w) w) Hf)
    as (w1 & -> & _ & Hkeys).
  wsimpl. split_and!; [done| |].
  - intros e row He Hrow Hb. rewrite Hkeys, decide_True; [done|].
    apply sweep_keys_covers; [|done..].
    eapply sublist_NoDup; [exact Hpk|].
    apply fmap_sublist, sublist_filter.
  - intros key Hother. rewrite Hkeys, decide_False; [done|].
    intros (e & row & He & Hrow & Hb & ->)%sweep_keys_owner.
    by apply (Hother e row).
Qed.

Lemma sweep_frees_the_lock_entries_witness :
  let w := Sample.world Sample.db_held Sample.locks_held 601500 [] in
  let w' := (cleanupExpiredBookings w).2 in
  redis w' !! "seat_lock:1:1" = None ∧
  redis w' !! "seat_lock:1:2" = None ∧
  redis w' !! "seat_lock:1:3" = Some (mkEntry "8" (Some 600)).
Proof.
  intros w w'.
  assert (bookings_pkey (committed w)) as Hpk
    by (apply (bool_decide_unpack _); by vm_compute).
  pose proof (sweep_frees_the_lock_entries w eq_refl Hpk) as H.
  cbv zeta in H. fold w' in H.
  change (cleanupExpiredBookings w) with ((cleanupExpiredBookings w).1, w') in H.
  destruct H as (_ & Hfree & Hrest).
  assert (mkBooking 1 7 1 PENDING 1000
            ∈ Pg.select_expired_bookings 10 (clock w) (committed w)) as He
    by (apply list_elem_of_In; vm_compute; tauto).
  split_and!.
  - apply (Hfree _ (mkShowSeat 1 1 LOCKED (Some 1) (Some 1000)) He);
      [left|done].
  - apply (Hfree _ (mkShowSeat 1 2 LOCKED (Some 1) (Some 1000)) He);
      [right; left|done].
  - rewrite Hrest; [reflexivity|].
    intros e row [[_ Hold] Hin%list_elem_of_In]%list_elem_of_filter
      Hrow%list_elem_of_In Hb.
    cbn in Hin, Hrow.
    destruct Hin as [<-|[<-|[]]]; [|cbn in Hold; lia].
    destruct Hrow as [<-|[<-|[<-|[]]]];
      cbn in Hb; try discriminate; vm_compute; discriminate.
Defined.

(** ** From a grant to a confirmation or a cancellation *)

Lemma no_row_of_next_booking d row :
  bookings_serial d → ownership_ok d → row ∈ show_seats d →
  ss_booking_id row ≠ Some (bookings_seq d).
Proof.
  intros [_ Hlt] Hok Hin Hb. specialize (Hok row Hin).
  destruct (ss_status row).
  - congruence.
  - destruct Hok as (b & Hbin & Hid & _). specialize (Hlt b Hbin).
    rewrite Hb in Hid. injection Hid as Hid. lia.
  - destruct Hok as (b & Hbin & Hid & _). specialize (Hlt b Hbin).
    rewrite Hb in Hid. injection Hid as Hid. lia.
Qed.

Lemma granted_select_booking sid uid locked w :
  bookings_serial (session w) →
  Pg.select_booking (bookings_seq (session w)) uid (granted sid uid locked w) =
    [mkBooking (bookings_seq (session w)) uid sid PENDING (clock w)].
Proof.
  intros [_ Hlt]. unfold Pg.select_booking. rewrite granted_bookings.
  rewrite filter_app.
  replace (filter _ (bookings (session w))) with (@nil Booking).
  - rewrite filter_cons, decide_True by done. done.
  - symmetry. destruct (filter _ (bookings (session w))) as [|b l] eqn:Hf;
      [done|exfalso].
    assert (b ∈ filter (λ b, booking_id b = bookings_seq (session w) ∧
                             user_id b = uid) (bookings (session w))) as Hb
      by (rewrite Hf; left).
    apply list_elem_of_filter in Hb as [[Hid _] Hin]. specialize (Hlt b Hin).
    lia.
Qed.

Lemma granted_row_of_booking sid uid locked w row :
  bookings_serial (session w) → ownership_ok (session w) →
  row ∈ show_seats (granted sid uid locked w) →
  ss_booking_id row = Some (bookings_seq (session w)) →
  ∃ s, row = mkShowSeat sid s LOCKED (Some (bookings_seq (session w)))
               (Some (clock w)).
Proof.
  intros Hser Hok Hin Hb. rewrite granted_show_seats in Hin.
  apply upsert_locked_origin in Hin as [Hin|Hin]; [|done].
  exfalso. by apply (no_row_of_next_booking (session w) row).
Qed.

Lemma granted_has_row sid uid locked w s :
  s ∈ locked →
  mkShowSeat sid s LOCKED (Some (bookings_seq (session w))) (Some (clock w))
    ∈ show_seats (granted sid uid locked w).
Proof.
  intros Hs. rewrite granted_show_seats. apply upsert_locked_all. by left.
Qed.

(** What holds of every lock request, whatever the lock store does.  The
    request is answered, and it is either granted whole (200: one PENDING
    booking is appended and every requested seat is a LOCKED row of it) or
    nothing is committed.  On an existing show a targeted row that is not
    AVAILABLE gives the 409 conflict with the seat ids of exactly those rows
    and a world that is otherwise unchanged.  Every answer other than the
    grant and the 500 leaves the lock store exactly as it was, so the keys
    set before a conflict have been deleted again; after a 500 every key is
    as it was or is a key of a requested seat that this call has set and
    not deleted.  Without a fault there is no 500, and a requested seat
    whose key is held gives the conflict. *)
Lemma lockSeats_all_or_none
    (sid uid : Z) (ids : list Z) (w : World) (r : Result Response)
    (w' : World) :
  lockSeats sid (Some ids) uid w = (r, w') →
  let rows := Pg.select_show_seats_for_update sid ids (committed w) in
  let unavailable := filter (fun row => ss_status row ≠ AVAILABLE) rows in
  ∃ resp, r = Ok resp ∧
    ((status resp = 200 ∧
      bookings (committed w') =
        (bookings (committed w) ++
           [mkBooking (bookings_seq (committed w)) uid sid PENDING (clock w)])
        %list ∧
      ∀ s, s ∈ ids →
        mkShowSeat sid s LOCKED (Some (bookings_seq (committed w)))
          (Some (clock w)) ∈ show_seats (committed w')) ∨
     (status resp ≠ 200 ∧ committed w' = committed w)) ∧
    (int4 sid → Forall int4 ids →
     Pg.select_show sid (committed w) ≠ [] → unavailable ≠ [] →
     ∃ failed,
       resp = Json 409
         (FailedSeats "Some seats are no longer available" failed) ∧
       failed ≡ₚ ss_seat_id <$> unavailable ∧
       w' = set_session (committed w) w) ∧
    (status resp ≠ 200 → status resp ≠ 500 → redis w' = redis w) ∧
    (status resp = 500 →
     ∀ key,
       redis w' !! key = redis w !! key ∨
       redis w !! key = None ∧
       redis w' !! key = Some (mkEntry (pretty uid) (Some 600)) ∧
       ∃ s, s ∈ ids ∧ key = seat_lock_key sid s) ∧
    (faults w = [] → status resp ≠ 500) ∧
    (faults w = [] →
     Pg.select_show sid (committed w) ≠ [] → unavailable = [] →
     (∀ s, s ∈ ids →
        (∃ row, row ∈ show_seats (committed w) ∧
                ss_show_id row = sid ∧ ss_seat_id row = s) ∨
        (∃ seat, seat ∈ seats (committed w) ∧ seat_id seat = s)) →
     (∃ s, s ∈ ids ∧ is_Some (redis w !! seat_lock_key sid s)) →
     ∃ failed,
       resp = Json 409
         (FailedSeats "Some seats are no longer available" failed)).
Proof.
  intros Hrun rows unavailable.
  destruct (decide (ids = [])) as [->|Hne].
  { cbn in Hrun. injection Hrun as <- <-. eexists. split; [done|].
    split_and!; [right; done| |done|done|done|].
    - intros _ _ _ Hu. exfalso. apply Hu. unfold unavailable, rows.
      by rewrite select_show_seats_no_ids.
    - intros _ _ _ _ (s & Hs & _). by apply elem_of_nil in Hs. }
  rewrite lockSeats_cases in Hrun by done. fold rows unavailable in Hrun.
  destruct (decide (Pg.select_show sid (committed w) = [])) as [Hshow|Hshow].
  { injection Hrun as <- <-. eexists. split; [done|].
    split_and!; [right; done|done|done|done|done|done]. }
  destruct (decide (unavailable = [])) as [Hun|Hun]; cycle 1.
  { injection Hrun as <- <-. eexists. split; [done|].
    split_and!; [right; done| |done|done|done|done].
    intros _ _ _ _. by eexists. }
  destruct (decide (_ = [])) as [Hinv|Hinv]; cycle 1.
  { injection Hrun as <- <-. eexists. split; [done|].
    split_and!; [right; done|done|done|done|done|].
    intros _ _ _ Hknown _. exfalso. apply Hinv.
    by apply no_invalid_seat. }
  clear Hinv.
  set (all := ((ss_seat_id <$> rows) ++ _)%list) in Hrun.
  set (w0 := set_session (committed w) w) in *.
  pose proof (acquire_locks_outcome sid uid 600 all all [] [] w0) as Hout.
  pose proof (acquire_locks_no_fault sid uid 600 all all [] [] w0 (redis w))
    as Hnf.
  pose proof (acquire_locks_store sid uid 600 all all [] [] w0 (redis w)
                (fun key => ∃ s, s ∈ ids ∧ key = seat_lock_key sid s))
    as Hst.
  destruct (acquire_locks sid uid 600 all all [] [] w0) as [[[l|resp]|] w1].
  - destruct Hout as (Hc & Hk & -> & Hs). cbn [app] in *.
    injection Hrun as <- <-. eexists. split; [done|].
    split_and!; [left|done|done|done|done|].
    + split; [done|]. subst w0. wsimpl. split.
      * rewrite granted_bookings, Hs, Hk. done.
      * intros s Hin.
        replace (bookings_seq (committed w)) with (bookings_seq (session w1))
          by (by rewrite Hs).
        rewrite <- Hk. apply granted_has_row.
        by apply requested_seat_is_visited.
    + intros Hf _ _ _ (s & Hin & Hheld). exfalso.
      destruct Hnf as (_ & _ & _ & _ & Hex); [done|done|..].
      { intros key Hkey. by apply elem_of_nil in Hkey. }
      destruct Hex as [resp Hresp]; [|done].
      apply Exists_exists. exists s. split; [|done].
      by apply requested_seat_is_visited.
  - destruct Hout as (Hc & Hk & (failed & ->) & Hs).
    injection Hrun as <- <-. eexists. split; [done|].
    split_and!; [right; done|done| |done|done|by eexists].
    intros _ _. apply Hst; [done| |].
    + intros key Hkey. by apply elem_of_nil in Hkey.
    + intros s Hs'. exists s. split; [|done].
      by apply (visited_seat_is_requested sid ids (committed w)).
  - destruct Hout as (Hc & Hk & Hs).
    injection Hrun as <- <-. eexists. split; [done|].
    split_and!; [right; done|done|done| |..].
    + intros _ key. wsimpl. apply Hst; [done| |].
      * intros key' Hkey. by apply elem_of_nil in Hkey.
      * intros s Hs'. exists s. split; [|done].
        by apply (visited_seat_is_requested sid ids (committed w)).
    + intros Hf. exfalso.
      destruct Hnf as (_ & _ & _ & Hr & _); [done|done| |done].
      intros key Hkey. by apply elem_of_nil in Hkey.
    + intros Hf _ _ _ _. exfalso.
      destruct Hnf as (_ & _ & _ & Hr & _); [done|done| |done].
      intros key Hkey. by apply elem_of_nil in Hkey.
Qed.

(** X20: From a grant to a confirmation.  Let the committed tables be consistent
    (booking ids unique and below the serial, held seats owned by live
    bookings) and let a lock request be answered 200 with booking [bid].
    Then a confirm of [bid] by the same user that finds the tables as the
    grant left them, at most 600000 ms after the grant and without a store
    fault, is answered 200: the booking is committed as CONFIRMED, every
    requested seat as BOOKED under that booking with the grant's timestamp,
    and the lock entry of every requested seat is gone.  The lock store the
    confirm finds may be any, so entries that expired or were taken over in
    between do not stop it. *)
Theorem granted_booking_can_be_confirmed
    (sid uid : Z) (ids : list Z) (w w1 w2 : World) (resp : Response) :
  bookings_serial (committed w) →
  ownership_ok (committed w) →
  lockSeats sid (Some ids) uid w = (Ok resp, w1) →
  status resp = 200 →
  committed w2 = committed w1 →
  faults w2 = [] →
  clock w2 <= clock w + 600000 →
  let bid := bookings_seq (committed w) in
  let '(r, w3) := confirmBooking bid uid w2 in
  (∃ seats,
     resp = Json 200 (SeatsLocked "Seats locked successfully" bid seats 600)) ∧
  (∃ seats,
     r = Ok (Json 200
       (BookingConfirmed "Booking confirmed successfully" bid seats))) ∧
  mkBooking bid uid sid CONFIRMED (clock w) ∈ bookings (committed w3) ∧
  (∀ s, s ∈ ids →
     mkShowSeat sid s BOOKED (Some bid) (Some (clock w))
       ∈ show_seats (committed w3)) ∧
  (∀ s, s ∈ ids → redis w3 !! seat_lock_key sid s = None).
Proof.
  intros Hser Hok Hrun H200 Hsame Hf Hclock bid.
  destruct (lockSeats_granted _ _ _ _ _ _ Hrun H200)
    as (l & w0 & [= <-] & Hne & _ & _ & _ & _ & Hs & Hk & -> & ->).
  wsimpl. rewrite <- Hs in Hser, Hok. unfold bid. rewrite <- Hs, <- Hk.
  set (all := ((ss_seat_id <$> _) ++ _)%list) in *.
  set (d1 := granted sid uid all w0) in *.
  set (new := mkBooking (bookings_seq (session w0)) uid sid PENDING (clock w0)).
  assert (Pg.select_booking (bookings_seq (session w0)) uid (committed w2) =
            [new]) as Hsel
    by (rewrite Hsame; by apply granted_select_booking).
  assert (∀ s, s ∈ ids →
            mkShowSeat sid s LOCKED (Some (bookings_seq (session w0)))
              (Some (clock w0)) ∈
            locked_seats (bookings_seq (session w0)) (committed w2)) as Hrows.
  { intros s Hin. rewrite Hsame. apply list_elem_of_filter. split; [done|].
    apply granted_has_row. unfold all. by apply requested_seat_is_visited. }
  assert (locked_seats (bookings_seq (session w0)) (committed w2) ≠ [])
    as Hlocked.
  { destruct ids as [|s ids]; [done|]. intros E.
    specialize (Hrows s ltac:(left)). rewrite E in Hrows.
    by apply elem_of_nil in Hrows. }
  rewrite (confirmBooking_no_fault _ uid w2 new []) by done.
  rewrite decide_True.
  2:{ apply expired_seats_at_nil. intros seat [[Hb _] Hin]%list_elem_of_filter.
      rewrite Hsame in Hin.
      apply granted_row_of_booking in Hin as (s & ->); [|done..].
      cbn. unfold id. lia. }
  split_and!.
  - by eexists.
  - by eexists.
  - cbn [committed]. rewrite Hsame.
    apply (update_booking_status_moves CONFIRMED _ _ new); [|done].
    fold d1. unfold d1. rewrite granted_bookings. apply elem_of_app.
    right. left.
  - intros s Hin. specialize (Hrows s Hin).
    apply list_elem_of_filter in Hrows as [_ Hrow].
    cbn [committed]. cbn. apply list_elem_of_fmap.
    eexists. split; [|exact Hrow]. by rewrite decide_True.
  - intros s Hin. cbn [redis]. rewrite lookup_foldr_delete, decide_True; [done|].
    apply list_elem_of_fmap. eexists. split; [|exact (Hrows s Hin)]. done.
Qed.

Lemma sample_db0_serial : bookings_serial Sample.db0.
Proof.
  split; [apply NoDup_nil_2|]. by intros b Hb%elem_of_nil.
Qed.

Lemma sample_db0_ownership : ownership_ok Sample.db0.
Proof.
  intros row Hin%list_elem_of_In. cbn in Hin.
  destruct Hin as [<-|[<-|[<-|[]]]]; done.
Qed.

Lemma granted_booking_can_be_confirmed_witness :
  let w := Sample.world Sample.db0 ∅ 1000 [] in
  let d1 :=
    mkDb (shows Sample.db0) (seats Sample.db0) [mkBooking 1 7 1 PENDING 1000]
      [mkShowSeat 1 1 LOCKED (Some 1) (Some 1000);
       mkShowSeat 1 2 LOCKED (Some 1) (Some 1000);
       mkShowSeat 1 3 AVAILABLE None None] 2 in
  let r1 : gmap string Entry :=
    <["seat_lock:1:1" := mkEntry "7" (Some 600)]>
      (<["seat_lock:1:2" := mkEntry "7" (Some 600)]> ∅) in
  let w1 := Sample.world d1 r1 1000 [] in
  let w2 := Sample.world d1 ∅ 601000 [] in
  let '(_, w3) := confirmBooking 1 7 w2 in
  mkBooking 1 7 1 CONFIRMED 1000 ∈ bookings (committed w3) ∧
  mkShowSeat 1 2 BOOKED (Some 1) (Some 1000) ∈ show_seats (committed w3).
Proof.
  intros w d1 r1 w1 w2.
  pose proof (granted_booking_can_be_confirmed 1 7 [1; 2] w w1 w2
                (Json 200
                   (SeatsLocked "Seats locked successfully" 1
                      [mkSeatDetail 1 "A" 1; mkSeatDetail 2 "A" 2] 600))
                sample_db0_serial sample_db0_ownership
                ltac:(vm_compute; reflexivity) eq_refl eq_refl eq_refl
                ltac:(cbn; lia)) as H.
  cbv zeta in H. change (bookings_seq (committed w)) with 1 in H.
  destruct (confirmBooking 1 7 w2) as [r w3].
  destruct H as (_ & _ & Hb & Hrows & _).
  split; [exact Hb|]. apply Hrows. right. left.
Defined.

(** X21: From a grant to a cancellation.  Let the committed tables be consistent
    (booking ids unique and below the serial, held seats owned by live
    bookings, every seat row referring to a seat of the seats table) and let
    a lock request be answered 200 with booking [bid].  Then a cancel of
    [bid] by the same user that finds the tables as the grant left them and
    meets no store fault is answered 200 at any later time: the booking is
    committed as CANCELLED, every requested seat is AVAILABLE again with no
    owner and no timestamp, and the lock entry of every requested seat is
    gone. *)
Theorem granted_booking_can_be_cancelled
    (sid uid : Z) (ids : list Z) (w w1 w2 : World) (resp : Response) :
  bookings_serial (committed w) →
  ownership_ok (committed w) →
  seat_refs_ok (committed w) →
  lockSeats sid (Some ids) uid w = (Ok resp, w1) →
  status resp = 200 →
  committed w2 = committed w1 →
  faults w2 = [] →
  let bid := bookings_seq (committed w) in
  let '(r, w3) := cancelBooking bid uid w2 in
  (∃ seats,
     r = Ok (Json 200
       (BookingCancelled "Booking cancelled successfully" bid seats))) ∧
  mkBooking bid uid sid CANCELLED (clock w) ∈ bookings (committed w3) ∧
  (∀ s, s ∈ ids →
     mkShowSeat sid s AVAILABLE None None ∈ show_seats (committed w3)) ∧
  (∀ row, row ∈ show_seats (committed w3) → ss_booking_id row ≠ Some bid) ∧
  (∀ s, s ∈ ids → redis w3 !! seat_lock_key sid s = None).
Proof.
  intros Hser Hok Hfk Hrun H200 Hsame Hf bid.
  destruct (lockSeats_granted _ _ _ _ _ _ Hrun H200)
    as (l & w0 & [= <-] & Hne & _ & _ & Hvalid & _ & Hs & Hk & -> & ->).
  wsimpl. rewrite <- Hs in Hser, Hok. unfold bid. rewrite <- Hs, <- Hk.
  set (all := ((ss_seat_id <$> _) ++ _)%list) in *.
  set (new := mkBooking (bookings_seq (session w0)) uid sid PENDING (clock w0)).
  assert (Pg.select_booking (bookings_seq (session w0)) uid (committed w2) =
            [new]) as Hsel
    by (rewrite Hsame; by apply granted_select_booking).
  assert (∀ s, s ∈ ids →
            mkShowSeat sid s LOCKED (Some (bookings_seq (session w0)))
              (Some (clock w0)) ∈ show_seats (committed w2)) as Hrows.
  { intros s Hin. rewrite Hsame.
    apply granted_has_row. unfold all. by apply requested_seat_is_visited. }
  rewrite (cancelBooking_no_fault _ uid w2 new []) by done.
  split_and!.
  - by eexists.
  - cbn [committed]. rewrite Hsame.
    apply (update_booking_status_moves CANCELLED _ _ new); [|done].
    rewrite granted_bookings. apply elem_of_app. right. left.
  - intros s Hin. specialize (Hrows s Hin).
    cbn [committed]. cbn. apply list_elem_of_fmap.
    eexists. split; [|exact Hrows]. by rewrite decide_True.
  - intros row. cbn [committed]. cbn.
    intros (row0 & -> & Hin)%list_elem_of_fmap. by case_decide.
  - intros s Hin. cbn [redis]. rewrite lookup_foldr_delete, decide_True; [done|].
    assert (∃ seat, seat ∈ seats (committed w2) ∧ seat_id seat = s)
      as (seat & Hseat & Hid).
    { rewrite Hsame. unfold granted. rewrite Hs.
      assert (∃ seat, seat ∈ seats (committed w) ∧ seat_id seat = s)
        as (seat & Hseat & Hid).
      { assert (s ∈ all) as Hvis
          by (unfold all; by apply requested_seat_is_visited).
        destruct (Hvalid s Hvis) as [Hrow|Hseat].
        - apply list_elem_of_fmap in Hrow as (row & -> & Hrow).
          apply list_elem_of_filter in Hrow as [_ Hrow].
          destruct (Hfk row Hrow) as (seat & ? & ?). by exists seat.
        - apply list_elem_of_fmap in Hseat as (seat & -> & Hseat).
          by exists seat. }
      exists seat. split; [|done]. by case_bool_decide. }
    apply list_elem_of_fmap. exists seat. split; [by rewrite Hid|].
    unfold Pg.select_seat_details_of_booking.
    apply list_elem_of_bind. exists seat. split; [|done].
    apply list_elem_of_fmap. eexists. split; [done|].
    apply list_elem_of_filter. split; [|exact (Hrows s Hin)]. done.
Qed.

Lemma sample_db0_seat_refs : seat_refs_ok Sample.db0.
Proof.
  intros row Hin%list_elem_of_In. cbn in Hin.
  destruct Hin as [<-|[<-|[<-|[]]]].
  - exists (mkSeat 1 1 "A" 1). split; [left|done].
  - exists (mkSeat 2 1 "A" 2). split; [right; left|done].
  - exists (mkSeat 3 1 "A" 3). split; [right; right; left|done].
Qed.

Lemma granted_booking_can_be_cancelled_witness :
  let w := Sample.world Sample.db0 ∅ 1000 [] in
  let d1 :=
    mkDb (shows Sample.db0) (seats Sample.db0) [mkBooking 1 7 1 PENDING 1000]
      [mkShowSeat 1 1 LOCKED (Some 1) (Some 1000);
       mkShowSeat 1 2 LOCKED (Some 1) (Some 1000);
       mkShowSeat 1 3 AVAILABLE None None] 2 in
  let r1 : gmap string Entry :=
    <["seat_lock:1:1" := mkEntry "7" (Some 600)]>
      (<["seat_lock:1:2" := mkEntry "7" (Some 600)]> ∅) in
  let w1 := Sample.world d1 r1 1000 [] in
  let '(_, w3) := cancelBooking 1 7 w1 in
  mkBooking 1 7 1 CANCELLED 1000 ∈ bookings (committed w3) ∧
  mkShowSeat 1 2 AVAILABLE None None ∈ show_seats (committed w3) ∧
  redis w3 !! "seat_lock:1:2" = None.
Proof.
  intros w d1 r1 w1.
  pose proof (granted_booking_can_be_cancelled 1 7 [1; 2] w w1 w1
                (Json 200
                   (SeatsLocked "Seats locked successfully" 1
                      [mkSeatDetail 1 "A" 1; mkSeatDetail 2 "A" 2] 600))
                sample_db0_serial sample_db0_ownership sample_db0_seat_refs
                ltac:(vm_compute; reflexivity) eq_refl eq_refl eq_refl) as H.
  cbv zeta in H. change (bookings_seq (committed w)) with 1 in H.
  destruct (cancelBooking 1 7 w1) as [r w3].
  destruct H as (_ & Hb & Hrows & _ & Hkeys).
  split_and!; [exact Hb| |].
  - apply Hrows. right. left.
  - apply (Hkeys 2). right. left.
Defined.

(** ** When a lock request is granted *)

Lemma seat_lock_key_inj sid s1 s2 :
  seat_lock_key sid s1 = seat_lock_key sid s2 → s1 = s2.
Proof.
  unfold seat_lock_key. intros H.
  apply String.app_inj in H. apply String.app_inj in H.
  apply String.app_inj in H. by apply pretty_Z_inj in H.
Qed.

(** Without a fault, on distinct seats whose keys are all free, the
    acquisition sets every key. *)
Lemma acquire_locks_free sid uid t all todo locked keys w :
  faults w = [] → NoDup todo →
  (∀ s, s ∈ todo → redis w !! seat_lock_key sid s = None) →
  ∃ w', acquire_locks sid uid t all todo locked keys w =
          (Ok (inl (locked ++ todo)%list), w').
Proof.
  revert locked keys w. induction todo as [|s todo IH];
    intros locked keys w Hf Hnd Hfree.
  - exists w. cbn. by rewrite app_nil_r.
  - cbn [acquire_locks]. unfold bind at 1. unfold Redis.set_ex_nx.
    rewrite round_trip_no_fault by done.
    rewrite (Hfree s) by left.
    apply NoDup_cons in Hnd as [Hs Hnd].
    match goal with |- context [acquire_locks _ _ _ _ todo ?l ?k ?w1] =>
      destruct (IH l k w1) as (w' & ->); [done|done| |]
    end.
    + intros s' Hs'. wsimpl. rewrite lookup_insert_ne; [apply Hfree; by right|].
      intros Heq%seat_lock_key_inj. congruence.
    + exists w'. by rewrite <- app_assoc.
Qed.

Lemma NoDup_seat_ids sid (rows : list ShowSeat) :
  NoDup ((fun row => (ss_show_id row, ss_seat_id row)) <$> rows) →
  Forall (fun row => ss_show_id row = sid) rows →
  NoDup (ss_seat_id <$> rows).
Proof.
  induction rows as [|row rows IH]; intros Hnd Hall; [apply NoDup_nil_2|].
  cbn in *. apply NoDup_cons in Hnd as [Hfresh Hnd].
  apply Forall_cons in Hall as [Hrow Hall].
  apply NoDup_cons. split; [|by apply IH].
  intros (row' & Hid & Hin)%list_elem_of_fmap. apply Hfresh.
  apply list_elem_of_fmap. exists row'. split; [|done].
  rewrite Forall_forall in Hall. by rewrite Hid, Hrow, (Hall row' Hin).
Qed.

Lemma NoDup_visited sid (ids : list Z) (d : Db) :
  show_seats_pkey d → NoDup ids →
  let rows := Pg.select_show_seats_for_update sid ids d in
  NoDup ((ss_seat_id <$> rows) ++
         filter (fun seatId => seatId ∉ ss_seat_id <$> rows) ids)%list.
Proof.
  intros Hpk Hnd rows. apply NoDup_app. split_and!.
  - apply (NoDup_seat_ids sid).
    + eapply sublist_NoDup; [exact Hpk|]. apply fmap_sublist, sublist_filter.
    + apply Forall_forall. intros row Hrow%list_elem_of_filter. tauto.
  - intros s Hs Hnew%list_elem_of_filter. tauto.
  - by apply NoDup_filter.
Qed.

(** The run of [lockSeats] on free seats when no round trip throws: the
    acquisition sets every key and the grant is committed. *)
Lemma lockSeats_free_run sid uid ids w :
  faults w = [] →
  ids ≠ [] →
  NoDup ids →
  Pg.select_show sid (committed w) ≠ [] →
  show_seats_pkey (committed w) →
  (∀ s, s ∈ ids →
     (∃ row, row ∈ show_seats (committed w) ∧
             ss_show_id row = sid ∧ ss_seat_id row = s) ∨
     (∃ seat, seat ∈ seats (committed w) ∧ seat_id seat = s)) →
  (∀ row, row ∈ show_seats (committed w) → ss_show_id row = sid →
     ss_seat_id row ∈ ids → ss_status row = AVAILABLE) →
  (∀ s, s ∈ ids → redis w !! seat_lock_key sid s = None) →
  let rows := Pg.select_show_seats_for_update sid ids (committed w) in
  let all : list Z :=
    ((ss_seat_id <$> rows) ++
     filter (fun seatId => seatId ∉ ss_seat_id <$> rows) ids)%list in
  ∃ w1,
    acquire_locks sid uid 600 all all [] [] (set_session (committed w) w) =
      (Ok (inl all), w1) ∧
    session w1 = committed w ∧ clock w1 = clock w ∧
    lockSeats sid (Some ids) uid w =
      (Ok (Json 200
         (SeatsLocked "Seats locked successfully" (bookings_seq (committed w))
            (seat_detail <$> Pg.select_seats all (granted sid uid all w1))
            600)),
       set_committed (granted sid uid all w1)
         (set_session (granted sid uid all w1) w1)).
Proof.
  intros Hf Hne Hnd Hshow Hpk Hknown Havail Hfree rows all.
  rewrite lockSeats_cases by done.
  rewrite decide_False by done.
  rewrite decide_True.
  2:{ fold rows.
      destruct (filter (λ row, ss_status row ≠ AVAILABLE) rows)
        as [|row l] eqn:Hfil; [done|exfalso].
      assert (row ∈ filter (λ row, ss_status row ≠ AVAILABLE) rows)
        as Hx by (rewrite Hfil; left).
      apply list_elem_of_filter in Hx as [Hst Hx].
      apply list_elem_of_filter in Hx as [[Hs Hi] Hx]. by apply Hst, Havail. }
  rewrite decide_True by (by apply no_invalid_seat).
  fold rows. fold all.
  destruct (acquire_locks_free sid uid 600 all all [] []
              (set_session (committed w) w)) as (w1 & Hacq).
  { done. }
  { by apply NoDup_visited. }
  { intros s Hs. wsimpl. apply Hfree.
    by apply (visited_seat_is_requested sid ids (committed w)). }
  exists w1. rewrite Hacq. cbn [app].
  pose proof (acquire_locks_outcome sid uid 600 all all [] []
                (set_session (committed w) w)) as Hout.
  rewrite Hacq in Hout. destruct Hout as (Hc & Hk & _ & Hs). wsimpl.
  split_and!; [done..|]. by rewrite Hs.
Qed.

(** X22: The grant.  When no round trip throws, the show exists, the seat ids of
    the request are distinct, (show_id, seat_id) is the primary key of the
    seat rows, every requested seat has a row for the show or is a seat of
    the seats table, every row of a requested seat is AVAILABLE and the lock
    key of every requested seat is free, the request is answered 200 with
    the next booking id: a PENDING booking of the requester for the show is
    appended with that id and the time of the call, every requested seat is
    committed as LOCKED under that booking with the same time, and its lock
    key holds the requester's id for 600 s. *)
Theorem lockSeats_grants_free_seats
    (sid uid : Z) (ids : list Z) (w : World) :
  faults w = [] →
  ids ≠ [] →
  NoDup ids →
  Pg.select_show sid (committed w) ≠ [] →
  show_seats_pkey (committed w) →
  (∀ s, s ∈ ids →
     (∃ row, row ∈ show_seats (committed w) ∧
             ss_show_id row = sid ∧ ss_seat_id row = s) ∨
     (∃ seat, seat ∈ seats (committed w) ∧ seat_id seat = s)) →
  (∀ row, row ∈ show_seats (committed w) → ss_show_id row = sid →
     ss_seat_id row ∈ ids → ss_status row = AVAILABLE) →
  (∀ s, s ∈ ids → redis w !! seat_lock_key sid s = None) →
  let bid := bookings_seq (committed w) in
  let '(r, w') := lockSeats sid (Some ids) uid w in
  (∃ seats,
     r = Ok (Json 200
       (SeatsLocked "Seats locked successfully" bid seats 600))) ∧
  bookings (committed w') =
    (bookings (committed w) ++ [mkBooking bid uid sid PENDING (clock w)])%list ∧
  bookings_seq (committed w') = bid + 1 ∧
  (∀ s, s ∈ ids →
     mkShowSeat sid s LOCKED (Some bid) (Some (clock w))
       ∈ show_seats (committed w')) ∧
  (∀ s, s ∈ ids →
     redis w' !! seat_lock_key sid s = Some (mkEntry (pretty uid) (Some 600))).
Proof.
  intros Hf Hne Hnd Hshow Hpk Hknown Havail Hfree bid.
  destruct (lockSeats_free_run sid uid ids w Hf Hne Hnd Hshow Hpk Hknown
              Havail Hfree) as (w1 & Hacq & Hs & Hk & ->).
  apply acquire_locks_granted in Hacq as [_ Hset]. wsimpl.
  split_and!.
  - by eexists.
  - rewrite granted_bookings, Hs, Hk. done.
  - unfold granted. rewrite Hs. by case_bool_decide.
  - intros s Hin. unfold bid. rewrite <- Hs, <- Hk. apply granted_has_row.
    by apply requested_seat_is_visited.
  - intros s Hin. rewrite Hset, decide_True; [done|].
    apply list_elem_of_fmap_2. by apply requested_seat_is_visited.
Qed.

Lemma lockSeats_grants_free_seats_witness :
  let w := Sample.world Sample.db0 ∅ 1000 [] in
  let '(_, w') := lockSeats 1 (Some [2; 9]) 7 w in
  bookings (committed w') = [mkBooking 1 7 1 PENDING 1000] ∧
  mkShowSeat 1 9 LOCKED (Some 1) (Some 1000) ∈ show_seats (committed w') ∧
  redis w' !! "seat_lock:1:9" = Some (mkEntry "7" (Some 600)).
Proof.
  intros w.
  assert (∀ s, s ∈ [2; 9] →
            (∃ row, row ∈ show_seats (committed w) ∧
                    ss_show_id row = 1 ∧ ss_seat_id row = s) ∨
            (∃ seat, seat ∈ seats (committed w) ∧ seat_id seat = s)) as Hknown.
  { intros s Hs%list_elem_of_In. cbn in Hs. destruct Hs as [<-|[<-|[]]].
    - left. exists (mkShowSeat 1 2 AVAILABLE None None).
      split; [right; left|done].
    - right. exists (mkSeat 9 2 "Z" 1).
      split; [right; right; right; left|done]. }
  assert (∀ row, row ∈ show_seats (committed w) → ss_show_id row = 1 →
            ss_seat_id row ∈ [2; 9] → ss_status row = AVAILABLE) as Havail.
  { intros row Hin%list_elem_of_In _ _. cbn in Hin.
    destruct Hin as [<-|[<-|[<-|[]]]]; done. }
  assert (show_seats_pkey (committed w)) as Hpk
    by (apply (bool_decide_unpack _); by vm_compute).
  assert (NoDup [2; 9]) as Hnd
    by (apply (bool_decide_unpack _); by vm_compute).
  pose proof (lockSeats_grants_free_seats 1 7 [2; 9] w eq_refl ltac:(done)
                Hnd ltac:(done) Hpk Hknown Havail ltac:(done)) as H.
  cbv zeta in H. change (bookings_seq (committed w)) with 1 in H.
  destruct (lockSeats 1 (Some [2; 9]) 7 w) as [r w'].
  destruct H as (_ & Hb & _ & Hrows & Hkeys).
  split_and!; [exact Hb| |].
  - apply Hrows. right. left.
  - apply (Hkeys 9). right. left.
Defined.

(** ** Released seats can be taken again *)

Lemma show_seats_pkey_inj d row1 row2 :
  show_seats_pkey d → row1 ∈ show_seats d → row2 ∈ show_seats d →
  ss_show_id row1 = ss_show_id row2 → ss_seat_id row1 = ss_seat_id row2 →
  row1 = row2.
Proof.
  unfold show_seats_pkey. induction (show_seats d) as [|row l IH];
    intros Hnd H1 H2 Hs Hi.
  - by apply elem_of_nil in H1.
  - cbn in Hnd. apply NoDup_cons in Hnd as [Hfresh Hnd].
    apply elem_of_cons in H1 as [->|H1], H2 as [->|H2]; [done|..|by apply IH].
    + exfalso. apply Hfresh. apply list_elem_of_fmap. exists row2.
      split; [by rewrite Hs, Hi|done].
    + exfalso. apply Hfresh. apply list_elem_of_fmap. exists row1.
      split; [by rewrite Hs, Hi|done].
Qed.

(** X23: After a cancel, the seats are free for the next request.  Let no round
    trip throw, let the cancel of a booking that is not CANCELLED go through
    on tables in which (show_id, seat_id) is the primary key of the seat
    rows, every seat row refers to a seat of the seats table, the booking
    owns at least one seat row and its seat rows are rows of its show, which
    exists.  Then a lock request by any user for exactly those seats, made
    at any later time on the tables and the lock store the cancel left, is
    answered 200 with the next booking id, and every one of the seats is
    committed as LOCKED under the new booking. *)
Theorem cancelled_seats_can_be_locked_again
    (bid uid uid' : Z) (w w2 : World) (booking : Booking)
    (others : list Booking) :
  faults w = [] →
  Pg.select_booking bid uid (committed w) = booking :: others →
  b_status booking ≠ CANCELLED →
  show_seats_pkey (committed w) →
  seat_refs_ok (committed w) →
  Pg.select_show (b_show_id booking) (committed w) ≠ [] →
  Pg.select_seats_of_booking bid (committed w) ≠ [] →
  Forall (fun row => ss_show_id row = b_show_id booking)
    (Pg.select_seats_of_booking bid (committed w)) →
  committed w2 = committed (cancelBooking bid uid w).2 →
  redis w2 = redis (cancelBooking bid uid w).2 →
  faults w2 = [] →
  let sid := b_show_id booking in
  let ids := ss_seat_id <$> Pg.select_seats_of_booking bid (committed w) in
  let bid' := bookings_seq (committed w) in
  let '(r, w') := lockSeats sid (Some ids) uid' w2 in
  (∃ seats,
     r = Ok (Json 200
       (SeatsLocked "Seats locked successfully" bid' seats 600))) ∧
  (∀ s, s ∈ ids →
     mkShowSeat sid s LOCKED (Some bid') (Some (clock w2))
       ∈ show_seats (committed w')).
Proof.
  intros Hf Hsel Hst Hpk Hfk Hshow Hrows Hsame Hc2 Hr2 Hf2 sid ids bid'.
  rewrite (cancelBooking_no_fault bid uid w booking others) in Hc2, Hr2
    by done.
  cbn [snd committed redis] in Hc2, Hr2.
  pose proof (select_booking_head _ _ _ _ _ Hsel) as (_ & Hbid & _).
  rewrite Forall_forall in Hsame.
  assert (∀ s, s ∈ ids →
            ∃ row, row ∈ show_seats (committed w) ∧
                   ss_booking_id row = Some bid ∧ ss_show_id row = sid ∧
                   ss_seat_id row = s) as Hids.
  { intros s (row & -> & Hrow)%list_elem_of_fmap.
    pose proof (Hsame row Hrow) as Hs.
    apply list_elem_of_filter in Hrow as [Hb Hrow]. by exists row. }
  destruct (lockSeats_free_run sid uid' ids w2) as (w1 & _ & Hs1 & Hk1 & ->).
  - done.
  - unfold ids. destruct (Pg.select_seats_of_booking bid (committed w));
      done.
  - apply (NoDup_seat_ids sid).
    + eapply sublist_NoDup; [exact Hpk|]. apply fmap_sublist, sublist_filter.
    + by apply Forall_forall.
  - by rewrite Hc2.
  - rewrite Hc2, <- Hbid, cancelled_swept. unfold show_seats_pkey.
    by rewrite swept_keys.
  - intros s (row & Hrow & Hb & Hs & Hi)%Hids. left.
    exists (Pg.released row). rewrite Hc2. split_and!; [|done..].
    cbn. apply list_elem_of_fmap. exists row. split; [|done].
    by rewrite decide_True.
  - intros row' Hin Hs (row & Hrow & Hb & Hs' & Hi)%Hids.
    rewrite Hc2 in Hin. cbn in Hin.
    apply list_elem_of_fmap in Hin as (row0 & -> & Hrow0).
    case_decide as Hb0; [done|]. exfalso. apply Hb0.
    assert (row0 = row) as ->; [|done].
    apply (show_seats_pkey_inj (committed w)); [done..|congruence|done].
  - intros s (row & Hrow & Hb & Hs & Hi)%Hids.
    rewrite Hr2, lookup_foldr_delete, decide_True; [done|].
    destruct (Hfk row Hrow) as (seat & Hseat & Hid).
    apply list_elem_of_fmap. exists seat. split; [by rewrite Hid, Hi|].
    unfold Pg.select_seat_details_of_booking.
    apply list_elem_of_bind. exists seat. split; [|done].
    apply list_elem_of_fmap. eexists. split; [done|].
    apply list_elem_of_filter. split; [|exact Hrow]. done.
  - split.
    + unfold bid'. rewrite Hc2. by eexists.
    + intros s Hin. cbn [committed]. unfold bid'.
      replace (bookings_seq (committed w)) with (bookings_seq (session w1))
        by (by rewrite Hs1, Hc2).
      rewrite <- Hk1. apply granted_has_row.
      by apply requested_seat_is_visited.
Qed.

Lemma cancelled_seats_can_be_locked_again_witness :
  let w := Sample.world Sample.db_held Sample.locks_held 5000 [] in
  let d1 :=
    mkDb (shows Sample.db0) (seats Sample.db0)
      [mkBooking 1 7 1 CANCELLED 1000; mkBooking 2 8 1 PENDING 2000]
      [mkShowSeat 1 1 AVAILABLE None None;
       mkShowSeat 1 2 AVAILABLE None None;
       mkShowSeat 1 3 LOCKED (Some 2) (Some 2000)] 3 in
  let r1 : gmap string Entry :=
    <["seat_lock:1:3" := mkEntry "8" (Some 600)]> ∅ in
  let w2 := Sample.world d1 r1 9000 [] in
  let '(_, w') := lockSeats 1 (Some [1; 2]) 8 w2 in
  mkShowSeat 1 1 LOCKED (Some 3) (Some 9000) ∈ show_seats (committed w') ∧
  mkShowSeat 1 2 LOCKED (Some 3) (Some 9000) ∈ show_seats (committed w').
Proof.
  intros w d1 r1 w2.
  assert (show_seats_pkey (committed w)) as Hpk
    by (apply (bool_decide_unpack _); by vm_compute).
  assert (seat_refs_ok (committed w)) as Hfk.
  { intros row Hin%list_elem_of_In. cbn in Hin.
    destruct Hin as [<-|[<-|[<-|[]]]].
    - exists (mkSeat 1 1 "A" 1). split; [left|done].
    - exists (mkSeat 2 1 "A" 2). split; [right; left|done].
    - exists (mkSeat 3 1 "A" 3). split; [right; right; left|done]. }
  assert (Forall (λ row, ss_show_id row = 1)
            (Pg.select_seats_of_booking 1 (committed w))) as Hsame
    by (repeat constructor).
  pose proof (cancelled_seats_can_be_locked_again 1 7 8 w w2
                (mkBooking 1 7 1 PENDING 1000) [] eq_refl eq_refl
                ltac:(done) Hpk Hfk ltac:(done) ltac:(done) Hsame
                ltac:(vm_compute; reflexivity) ltac:(vm_compute; reflexivity)
                eq_refl) as H.
  cbv zeta in H.
  change (b_show_id (mkBooking 1 7 1 PENDING 1000)) with 1 in H.
  change (ss_seat_id <$> Pg.select_seats_of_booking 1 (committed w))
    with [1; 2] in H.
  change (bookings_seq (committed w)) with 3 in H.
  destruct (lockSeats 1 (Some [1; 2]) 8 w2) as [r w'].
  destruct H as (_ & Hrows).
  split; [apply (Hrows 1); left|apply (Hrows 2); right; left].
Defined.

(** ** A show that does not exist *)

(** X24: A lock request for a show id that is a value of the integer id
    column and is not in the shows table is answered 404 "Show not found"
    right after the lookup: the transaction is rolled back, no round trip to
    the lock store is made (so the fault plan does not matter) and nothing
    else of the world changes. *)
Theorem lockSeats_unknown_show_is_not_found
    (sid uid : Z) (ids : list Z) (w : World) :
  int4 sid →
  ids ≠ [] →
  Pg.select_show sid (committed w) = [] →
  lockSeats sid (Some ids) uid w =
    (Ok (Json 404 (Message "Show not found")), set_session (committed w) w).
Proof.
  intros _ Hne Hshow. rewrite lockSeats_cases by done.
  by rewrite decide_True.
Qed.

Lemma lockSeats_unknown_show_is_not_found_witness :
  let w := Sample.world Sample.db0 ∅ 1000 [true] in
  lockSeats 2 (Some [1]) 7 w =
    (Ok (Json 404 (Message "Show not found")), set_session (committed w) w).
Proof.
  intros w.
  apply (lockSeats_unknown_show_is_not_found 2 7 [1] w);
    [unfold int4; lia|done|reflexivity].
Defined.
